(** * trio.testing._raises_group: a shallow embedding and its properties

    The development follows [src/trio/testing/_raises_group.py]:
    [_ExceptionInfo], the helpers [_stringify_exception], [_match_pattern],
    [_check_raw_type], the classes [AbstractMatcher], [Matcher] and
    [RaisesGroup], the table [ResultHolder] and [possible_match].

    Python objects are modelled by records, the attribute [fail_reason] that
    the matching methods write is threaded through a small state-and-error
    monad, and what the host language provides ([repr] of an exception,
    [repr] of a string, [re.compile], [textwrap.indent]) is the interface
    [Host]. *)

From Stdlib Require Import String Ascii.
From stdpp Require Import base option list gmap sets strings pretty.

Open Scope string_scope.
Local Set Warnings "-register-all,-clear-no-such-hyp".

(** ** Python values the module works on *)

(** A class: its [__name__] and the names of its proper ancestors (the tail
    of [__mro__]).  Multiple inheritance is a class with several chains of
    ancestors. *)
Record pyclass := PyClass {
  cls_name : string;
  cls_bases : list string;
}.

Definition cls_mro (c : pyclass) : list string := cls_name c :: cls_bases c.

(** [issubclass(a, b)] *)
Definition issubclass (a b : pyclass) : bool :=
  bool_decide (cls_name b ∈ cls_mro a).

Definition BaseException : pyclass := PyClass "BaseException" ["object"].
Definition Exception : pyclass :=
  PyClass "Exception" ["BaseException"; "object"].
Definition BaseExceptionGroup : pyclass :=
  PyClass "BaseExceptionGroup" ["BaseException"; "object"].
Definition ExceptionGroup : pyclass :=
  PyClass "ExceptionGroup"
          ["BaseExceptionGroup"; "Exception"; "BaseException"; "object"].

(** An exception object: its class, what
    [getattr(exc, "message", str(exc))] yields, its [__notes__] and, for an
    exception group, its [exceptions]. *)
Inductive exc := Exc {
  exc_type : pyclass;
  exc_message : string;
  exc_notes : list string;
  exc_exceptions : list exc;
}.

(** [isinstance(e, c)] *)
Definition isinstance (e : exc) (c : pyclass) : bool :=
  issubclass (exc_type e) c.

(** A [check] callable: the boolean it computes and its [repr]. *)
Record py_callable := PyCallable {
  call : exc → bool;
  callable_repr : string;
}.

(** A compiled regular expression ([re.Pattern]): the attributes [pattern]
    and [flags], and its method [search] as a predicate on the text. *)
Record Pattern := MkPattern {
  pattern : string;
  flags : Z;
  search : string → bool;
}.

(** [re.search(p, s)] on a compiled pattern is [p.search(s)]. *)
Definition re_search (p : Pattern) (s : string) : bool := search p s.

(** Exceptions the module itself can raise. *)
Inductive pyexn :=
| ValueError (msg : string)
| AssertionError (msg : string)
| KeyError (key : nat)
| IndexError
| NameError (name : string)
| TypeError
| AttributeError (name : string)
| RecursionError
| re_error.

(** ** The expected patterns *)

Record Matcher := MkMatcher {
  exception_type : option pyclass;
  m_match : option Pattern;
  m_check : option py_callable;
}.

(** The attributes of a [RaisesGroup]; [E] is the type of its expected
    patterns, which may themselves be [RaisesGroup]s. *)
Record RaisesGroup_ (E : Type) := MkRaisesGroup {
  expected_exceptions : list E;
  allow_unwrapped : bool;
  flatten_subgroups : bool;
  match_expr : option Pattern;
  check : option py_callable;
  is_baseexceptiongroup : bool;
  _nested : bool;
}.
Arguments MkRaisesGroup {E}.
Arguments expected_exceptions {E}.
Arguments allow_unwrapped {E}.
Arguments flatten_subgroups {E}.
Arguments match_expr {E}.
Arguments check {E}.
Arguments is_baseexceptiongroup {E}.
Arguments _nested {E}.

(** [ExpectedType]: an exception type, a [Matcher] or a [RaisesGroup]. *)
Inductive ExpectedType :=
| ExpType (t : pyclass)
| ExpMatcher (m : Matcher)
| ExpGroup (g : RaisesGroup_ ExpectedType).

Abbreviation RaisesGroup := (RaisesGroup_ ExpectedType).

(** ** Effects: raising, and the attribute [self.fail_reason] *)

Inductive outcome (A : Type) :=
| Returns (a : A)
| Raises (e : pyexn).
Arguments Returns {A}.
Arguments Raises {A}.

(** A method of an [AbstractMatcher]: it reads and writes
    [self.fail_reason] and may raise; the attribute keeps the value it had
    when the exception was raised. *)
Definition M (A : Type) : Type := option string → outcome A * option string.

Definition ret {A} (a : A) : M A := λ s, (Returns a, s).
Definition bind {A B} (m : M A) (k : A → M B) : M B :=
  λ s, match m s with
       | (Returns a, s') => k a s'
       | (Raises e, s') => (Raises e, s')
       end.
Definition raise {A} (e : pyexn) : M A := λ s, (Raises e, s).
Definition get_fail_reason : M (option string) := λ s, (Returns s, s).
Definition set_fail_reason (r : option string) : M unit := λ _, (Returns tt, r).

(** Code that does not touch [self] (static methods, module functions). *)
Definition lift {A} (o : outcome A) : M A := λ s, (o, s).

(** [obj.method(...)] on another object whose [fail_reason] is [r0]: the
    value returned, together with [obj.fail_reason] after the call. *)
Definition call_method {A} (m : M A) (r0 : option string)
  : outcome (A * option string) :=
  match m r0 with
  | (Returns a, r) => Returns (a, r)
  | (Raises e, _) => Raises e
  end.

Definition obind {A B} (o : outcome A) (k : A → outcome B) : outcome B :=
  match o with
  | Returns a => k a
  | Raises e => Raises e
  end.

Declare Scope py_scope.
Delimit Scope py_scope with py.
Notation "'let*' x ':=' c1 'in' c2" := (bind c1 (λ x, c2))
  (at level 10, x name, c1 at level 100, c2 at level 200) : py_scope.
Notation "'let*' ' pat ':=' c1 'in' c2" :=
  (bind c1 (λ x, match x with pat => c2 end))
  (at level 10, pat pattern, c1 at level 100, c2 at level 200) : py_scope.
Notation "c1 ;; c2" := (bind c1 (λ _, c2))
  (at level 100, c2 at level 200, right associativity) : py_scope.
Notation "'let+' x ':=' c1 'in' c2" := (obind c1 (λ x, c2))
  (at level 10, x name, c1 at level 100, c2 at level 200) : py_scope.
Notation "'let+' ' pat ':=' c1 'in' c2" :=
  (obind c1 (λ x, match x with pat => c2 end))
  (at level 10, pat pattern, c1 at level 100, c2 at level 200) : py_scope.
Open Scope py_scope.

(** [self.fail_reason += s] *)
Definition append_fail_reason (s : string) : M unit :=
  let* r := get_fail_reason in
  match r with
  | Some r => set_fail_reason (Some (r ++ s))
  | None => raise TypeError
  end.

(** ** What the host language provides *)

Class Host := {
  (** [repr(e)] of an exception object *)
  repr_exc : exc → string;
  (** [repr(s)] of a [str] *)
  repr_str : string → string;
  (** [repr(p)] of a compiled pattern *)
  repr_Pattern : Pattern → string;
  (** [repr(c)] of a class *)
  repr_class : pyclass → string;
  (** [re.compile(s)] *)
  re_compile : string → outcome Pattern;
  (** [textwrap.indent(text, prefix)] *)
  indent : string → string → string;
}.

(** [", ".join(l)] and the like *)
Definition join (sep : string) (l : list string) : string := String.concat sep l.
Global Arguments join : simpl never.

(** [s.startswith("\n")] *)
Definition startswith_newline (s : string) : bool :=
  match s with
  | String c _ => bool_decide (c = "010"%char)
  | EmptyString => false
  end.

Definition newline : string := String "010"%char EmptyString.
Definition dquote : string := String "034"%char EmptyString.

(** ** [_ExceptionInfo]: the handle a [with] block hands out *)

(** The traceback object is opaque to the module. *)
Definition traceback := nat.

(** [(exc_type, exc_val, exc_tb)] as [__exit__] receives them once
    [exc_type] is known not to be [None]. *)
Definition exc_info_tuple : Type := pyclass * option exc * option traceback.

Record _ExceptionInfo := Mk_ExceptionInfo {
  _excinfo : option exc_info_tuple;
}.

(** [fill_unfilled]: the handle after the call, or the assertion failure *)
Definition fill_unfilled (self : _ExceptionInfo)
    (exc_info : exc_info_tuple) : outcome _ExceptionInfo :=
  match _excinfo self with
  | None => Returns (Mk_ExceptionInfo (Some exc_info))
  | Some _ => Raises (AssertionError "ExceptionInfo was already filled")
  end.

Definition for_later : _ExceptionInfo := Mk_ExceptionInfo None.

Definition excinfo_type (self : _ExceptionInfo) : outcome pyclass :=
  match _excinfo self with
  | Some (t, _, _) => Returns t
  | None => Raises (AssertionError
      ".type can only be used after the context manager exits")
  end.

Definition excinfo_value (self : _ExceptionInfo) : outcome (option exc) :=
  match _excinfo self with
  | Some (_, v, _) => Returns v
  | None => Raises (AssertionError
      ".value can only be used after the context manager exits")
  end.

Definition excinfo_tb (self : _ExceptionInfo) : outcome (option traceback) :=
  match _excinfo self with
  | Some (_, _, tb) => Returns tb
  | None => Raises (AssertionError
      ".tb can only be used after the context manager exits")
  end.

(** ** Module-level helpers *)

Definition _stringify_exception (e : exc) : string :=
  join newline (exc_message e :: exc_notes e).

(** The flags of the compiled empty pattern: string patterns carry the unicode flag,
    [re.UNICODE = 32]. *)
Definition _REGEX_NO_FLAGS : Z := 32.

Definition _match_pattern (m : Pattern) : string + Pattern :=
  if bool_decide (flags m = _REGEX_NO_FLAGS) then inl (pattern m) else inr m.

(** [v == s] for [v : str | Pattern] and [s : str]: a compiled pattern is
    never equal to a string. *)
Definition str_or_Pattern_eq (v : string + Pattern) (s : string) : bool :=
  match v with
  | inl v => bool_decide (v = s)
  | inr _ => false
  end.

(** [x is None] *)
Definition is_none {A} (x : option A) : bool :=
  match x with
  | None => true
  | Some _ => false
  end.

Definition repr_callable (fun_ : py_callable) : string := callable_repr fun_.

Section WithHost.
Context `{Host}.

(** [repr] of a [str | Pattern] value, the [!r] of the f-strings *)
Definition repr_str_or_Pattern (v : string + Pattern) : string :=
  match v with
  | inl s => repr_str s
  | inr p => repr_Pattern p
  end.

Definition _exception_type_name (e : pyclass) : string :=
  repr_str (cls_name e).

Definition _check_raw_type (expected_type : option pyclass) (exception : exc)
  : option string :=
  match expected_type with
  | None => None
  | Some expected_type =>
    if negb (isinstance exception expected_type) then
      let actual_type_str := _exception_type_name (exc_type exception) in
      let expected_type_str := _exception_type_name expected_type in
      if isinstance exception BaseExceptionGroup then
        Some ("Unexpected nested " ++ actual_type_str
              ++ ", expected bare " ++ expected_type_str)
      else Some (actual_type_str ++ " is not of type " ++ expected_type_str)
    else None
  end.

(** ** [AbstractMatcher] *)

Definition _check_check (check : option py_callable) (exception : exc)
    (suppress_repr : bool) : M bool :=
  match check with
  | None => ret true
  | Some check =>
    if call check exception then ret true
    else
      let check_repr :=
        if suppress_repr then EmptyString else " " ++ repr_callable check in
      set_fail_reason (Some ("check" ++ check_repr ++ " did not return True")) ;;
      ret false
  end.

Definition _check_match (match_expr : option Pattern) (e : exc) : M bool :=
  match match_expr with
  | None => ret true
  | Some match_expr =>
    let stringified_exception := _stringify_exception e in
    if re_search match_expr stringified_exception then ret true
    else
      let maybe_specify_type :=
        if isinstance e BaseExceptionGroup
        then " of " ++ _exception_type_name (exc_type e) else EmptyString in
      set_fail_reason (Some (
        "Regex pattern " ++ repr_str_or_Pattern (_match_pattern match_expr)
        ++ " did not match " ++ repr_str stringified_exception
        ++ maybe_specify_type)) ;;
      (if str_or_Pattern_eq (_match_pattern match_expr) stringified_exception
       then append_fail_reason
              (newline ++ "Did you mean to `re.escape()` the regex?")
       else ret tt) ;;
      ret false
  end.

(** ** [Matcher] *)

(** The [match] argument of a constructor: a [str] or a compiled pattern. *)
Inductive match_arg :=
| MatchStr (s : string)
| MatchPattern (p : Pattern).

(** [re.compile(match) if isinstance(match, str) else match] *)
Definition compile_match (match_ : option match_arg) : outcome (option Pattern) :=
  match match_ with
  | Some (MatchStr s) => let+ p := re_compile s in Returns (Some p)
  | Some (MatchPattern p) => Returns (Some p)
  | None => Returns None
  end.

(** [Matcher.__init__].  The attribute [_match] (the argument as given) is
    read nowhere and is left out; [_nested] is always [True] on a [Matcher]
    and is the literal passed to [_check_check] in [matches]. *)
Definition Matcher_init (exception_type : option pyclass)
    (match_ : option match_arg) (check : option py_callable) : outcome Matcher :=
  if is_none exception_type && is_none match_ && is_none check then
    Raises (ValueError "You must specify at least one parameter to match on.")
  else if (match exception_type with
           | Some t => negb (issubclass t BaseException)
           | None => false
           end) then
    Raises (ValueError ("exception_type "
      ++ from_option repr_class EmptyString exception_type
      ++ " must be a subclass of BaseException"))
  else
    let+ m := compile_match match_ in
    Returns (MkMatcher exception_type m check).

Definition Matcher__check_type (self : Matcher) (exception : exc) : M bool :=
  set_fail_reason (_check_raw_type (exception_type self) exception) ;;
  let* r := get_fail_reason in
  ret (is_none r).

Definition Matcher_matches (self : Matcher) (exception : exc) : M bool :=
  let* ok := Matcher__check_type self exception in
  if negb ok then ret false else
  let* ok := _check_match (m_match self) exception in
  if negb ok then ret false else
  _check_check (m_check self) exception true.

Definition Matcher_repr (self : Matcher) : string :=
  let parameters :=
    (match exception_type self with
     | Some t => [cls_name t]
     | None => []
     end
     ++ match m_match self with
        | Some p => [("match=" ++ repr_str_or_Pattern (_match_pattern p))%string]
        | None => []
        end
     ++ match m_check self with
        | Some c => [("check=" ++ callable_repr c)%string]
        | None => []
        end)%list in
  "Matcher(" ++ join ", " parameters ++ ")".

End WithHost.

(** ** [ResultHolder] and [possible_match] *)

(** A cell of the table: the sentinel [NotChecked], or the result of one
    [_check_expected] ([None] for a match, the reason otherwise). *)
Inductive cell :=
| NotChecked
| Checked (res : option string).

(** [results[actual][expected]]: one row per raised exception. *)
Record ResultHolder := MkResultHolder {
  results : list (list cell);
}.

Definition ResultHolder_init {E} (expected_exceptions : list E)
    (actual_exceptions : list exc) : ResultHolder :=
  MkResultHolder
    (map (λ _, map (λ _, NotChecked) expected_exceptions) actual_exceptions).

Definition set_result (self : ResultHolder) (expected actual : nat)
    (result : option string) : outcome ResultHolder :=
  match results self !! actual with
  | None => Raises IndexError
  | Some row =>
    if bool_decide (expected < length row) then
      Returns (MkResultHolder
        (<[actual := <[expected := Checked result]> row]> (results self)))
    else Raises IndexError
  end.

Definition get_cell (self : ResultHolder) (expected actual : nat)
  : outcome cell :=
  match results self !! actual with
  | None => Raises IndexError
  | Some row =>
    match row !! expected with
    | None => Raises IndexError
    | Some c => Returns c
    end
  end.

Definition get_result (self : ResultHolder) (expected actual : nat)
  : outcome (option string) :=
  let+ res := get_cell self expected actual in
  match res with
  | NotChecked => Raises (AssertionError EmptyString)
  | Checked res => Returns res
  end.

Definition has_result (self : ResultHolder) (expected actual : nat)
  : outcome bool :=
  let+ res := get_cell self expected actual in
  match res with
  | NotChecked => Returns false
  | Checked _ => Returns true
  end.

(** The inner loop of [no_match_for_expected]: [false] when it returned
    [False], [true] when it ran to its end. *)
Fixpoint no_match_in_column (i : nat) (rows : list (list cell)) : outcome bool :=
  match rows with
  | [] => Returns true
  | actual_results :: rows =>
    match actual_results !! i with
    | None => Raises IndexError
    | Some NotChecked => Raises (AssertionError EmptyString)
    | Some (Checked None) => Returns false
    | Some (Checked (Some _)) => no_match_in_column i rows
    end
  end.

Fixpoint no_match_for_expected (self : ResultHolder) (expected : list nat)
  : outcome bool :=
  match expected with
  | [] => Returns true
  | i :: expected =>
    let+ through := no_match_in_column i (results self) in
    if through then no_match_for_expected self expected else Returns false
  end.

(** The inner loop of [no_match_for_actual]. *)
Fixpoint no_match_in_row (row : list cell) : outcome bool :=
  match row with
  | [] => Returns true
  | NotChecked :: _ => Raises (AssertionError EmptyString)
  | Checked None :: _ => Returns false
  | Checked (Some _) :: row => no_match_in_row row
  end.

Fixpoint no_match_for_actual (self : ResultHolder) (actual : list nat)
  : outcome bool :=
  match actual with
  | [] => Returns true
  | i :: actual =>
    match results self !! i with
    | None => Raises IndexError
    | Some row =>
      let+ through := no_match_in_row row in
      if through then no_match_for_actual self actual else Returns false
    end
  end.

(** [val is None] on a cell *)
Definition is_match (val : cell) : bool :=
  match val with
  | Checked None => true
  | _ => false
  end.

(** The loop [for i, val in enumerate(results.results[curr_row])] of
    [possible_match]; [recurse i] is [possible_match(results, used | {i})]. *)
Definition try_columns (recurse : nat → outcome bool) (used : gset nat)
  : nat → list cell → outcome bool :=
  fix loop i vals :=
    match vals with
    | [] => Returns false
    | val :: vals =>
      if is_match val && negb (bool_decide (i ∈ used)) then
        let+ found := recurse i in
        if found then Returns true else loop (S i) vals
      else loop (S i) vals
    end.

(** [possible_match(results, used)].  Every call adds a column to [used],
    so the calls nest as deep as the table has rows; [depth] bounds the
    nesting. *)
Fixpoint possible_match_rec (depth : nat) (results_ : ResultHolder)
    (used : gset nat) : outcome bool :=
  let curr_row := size used in
  if bool_decide (curr_row = length (results results_)) then Returns true
  else
    match depth with
    | 0 => Raises RecursionError
    | S depth =>
      match results results_ !! curr_row with
      | None => Raises IndexError
      | Some row =>
        try_columns (λ i, possible_match_rec depth results_ (used ∪ {[i]}))
          used 0 row
      end
    end.

(** [possible_match(results)], with [used] defaulting to the empty set: one
    call per row and a last one that returns [True]. *)
Definition possible_match (results_ : ResultHolder) : outcome bool :=
  possible_match_rec (length (results results_)) results_ ∅.

(** ** [RaisesGroup]: construction and rendering *)

(** An argument given for an expected exception: Python does not type the
    call, so it may be anything. *)
Inductive pyobj :=
| ObjType (c : pyclass)
| ObjMatcher (m : Matcher)
| ObjRaisesGroup (g : RaisesGroup)
| ObjOther (repr : string).

Definition set__nested (g : RaisesGroup) (b : bool) : RaisesGroup :=
  MkRaisesGroup (expected_exceptions g) (allow_unwrapped g)
    (flatten_subgroups g) (match_expr g) (check g)
    (is_baseexceptiongroup g) b.

Section RaisesGroupStatic.
Context `{Host}.

(** [e.__name__ if isinstance(e, type) else repr(e)], with
    [RaisesGroup.__repr__] below it *)
Fixpoint repr_req (e : ExpectedType) : string :=
  match e with
  | ExpType t => cls_name t
  | ExpMatcher m => Matcher_repr m
  | ExpGroup g =>
    let reqs :=
      (map repr_req (expected_exceptions g)
       ++ (if allow_unwrapped g then ["allow_unwrapped=True"] else [])
       ++ (if flatten_subgroups g then ["flatten_subgroups=True"] else [])
       ++ match match_expr g with
          | Some p => [("match=" ++ repr_str_or_Pattern (_match_pattern p))%string]
          | None => []
          end
       ++ match check g with
          | Some c => [("check=" ++ callable_repr c)%string]
          | None => []
          end)%list in
    "RaisesGroup(" ++ join ", " reqs ++ ")"
  end.

Definition RaisesGroup_repr (self : RaisesGroup) : string :=
  repr_req (ExpGroup self).

Definition _repr_expected (e : ExpectedType) : string :=
  match e with
  | ExpType t => _exception_type_name t
  | ExpMatcher m => Matcher_repr m
  | ExpGroup g => RaisesGroup_repr g
  end.

(** One element of [subexcs] in [expected_type], with the method below *)
Fixpoint subexc_str (e : ExpectedType) : string :=
  match e with
  | ExpMatcher m => Matcher_repr m
  | ExpGroup g =>
    (if is_baseexceptiongroup g then "Base" else EmptyString)
    ++ "ExceptionGroup(" ++ join ", " (map subexc_str (expected_exceptions g))
    ++ ")"
  | ExpType t => cls_name t
  end.

Definition expected_type (self : RaisesGroup) : string :=
  subexc_str (ExpGroup self).

(** The loop of [__init__] that verifies [expected_exceptions] and computes
    [is_baseexceptiongroup]; it yields the patterns as stored, the nested
    groups with [_nested] set. *)
Fixpoint verify_expected (flatten_subgroups : bool) (excs : list pyobj)
    (is_base : bool) : outcome (list ExpectedType * bool) :=
  match excs with
  | [] => Returns ([], is_base)
  | ObjRaisesGroup g :: excs =>
    if flatten_subgroups then
      Raises (ValueError ("You cannot specify a nested structure inside a RaisesGroup with"
        ++ " `flatten_subgroups=True`. The parameter will flatten subgroups"
        ++ " in the raised exceptiongroup before matching, which would never"
        ++ " match a nested structure."))
    else
      let+ '(rest, is_base) :=
        verify_expected flatten_subgroups excs
          (is_base || is_baseexceptiongroup g) in
      Returns (ExpGroup (set__nested g true) :: rest, is_base)
  | ObjMatcher m :: excs =>
    let is_base :=
      match exception_type m with
      | None => is_base
      | Some t => is_base || negb (issubclass t Exception)
      end in
    let+ '(rest, is_base) := verify_expected flatten_subgroups excs is_base in
    Returns (ExpMatcher m :: rest, is_base)
  | ObjType c :: excs =>
    if issubclass c BaseException then
      let+ '(rest, is_base) :=
        verify_expected flatten_subgroups excs
          (is_base || negb (issubclass c Exception)) in
      Returns (ExpType c :: rest, is_base)
    else
      Raises (ValueError ("Invalid argument " ++ dquote ++ repr_class c
        ++ dquote ++ " must be exception type, Matcher, or RaisesGroup."))
  | ObjOther r :: excs =>
    Raises (ValueError ("Invalid argument " ++ dquote ++ r
      ++ dquote ++ " must be exception type, Matcher, or RaisesGroup."))
  end.

Definition is_RaisesGroup (o : pyobj) : bool :=
  match o with
  | ObjRaisesGroup _ => true
  | _ => false
  end.

(** [RaisesGroup.__init__] *)
Definition RaisesGroup_init (exception : pyobj) (other_exceptions : list pyobj)
    (allow_unwrapped flatten_subgroups : bool)
    (match_ : option match_arg) (check : option py_callable)
  : outcome RaisesGroup :=
  let+ match_expr := compile_match match_ in
  if allow_unwrapped && negb (bool_decide (other_exceptions = [])) then
    Raises (ValueError ("You cannot specify multiple exceptions with `allow_unwrapped=True.`"
      ++ " If you want to match one of multiple possible exceptions you should"
      ++ " use a `Matcher`."
      ++ " E.g. `Matcher(check=lambda e: isinstance(e, (...)))`"))
  else if allow_unwrapped && is_RaisesGroup exception then
    Raises (ValueError ("`allow_unwrapped=True` has no effect when expecting a `RaisesGroup`."
      ++ " You might want it in the expected `RaisesGroup`, or"
      ++ " `flatten_subgroups=True` if you don't care about the structure."))
  else if allow_unwrapped && (negb (is_none match_) || negb (is_none check)) then
    Raises (ValueError ("`allow_unwrapped=True` bypasses the `match` and `check` parameters"
      ++ " if the exception is unwrapped. If you intended to match/check the"
      ++ " exception you should use a `Matcher` object. If you want to match/check"
      ++ " the exceptiongroup when the exception *is* wrapped you need to"
      ++ " do e.g. `if isinstance(exc.value, ExceptionGroup):"
      ++ " assert RaisesGroup(...).matches(exc.value)` afterwards."))
  else
    let+ '(expected_exceptions, is_base) :=
      verify_expected flatten_subgroups (exception :: other_exceptions) false in
    Returns (MkRaisesGroup expected_exceptions allow_unwrapped
               flatten_subgroups match_expr check is_base false).

(** [_unroll_exceptions], used if [flatten_subgroups=True] *)
Fixpoint unroll_exception (e : exc) : list exc :=
  if isinstance e BaseExceptionGroup then
    (fix unroll (exceptions : list exc) : list exc :=
       match exceptions with
       | [] => []
       | e :: exceptions => (unroll_exception e ++ unroll exceptions)%list
       end) (exc_exceptions e)
  else [e].

Definition _unroll_exceptions (exceptions : list exc) : list exc :=
  concat (map unroll_exception exceptions).

End RaisesGroupStatic.

(** ** [RaisesGroup._check_exceptions] *)

(** [l.remove(x)] *)
Fixpoint list_remove (x : nat) (l : list nat) : outcome (list nat) :=
  match l with
  | [] => Raises (ValueError "list.remove(x): x not in list")
  | y :: l =>
    if bool_decide (x = y) then Returns l
    else let+ l' := list_remove x l in Returns (y :: l')
  end.

(** [b and m], where evaluating [m] may raise *)
Definition and_then (b : bool) (m : outcome bool) : outcome bool :=
  if b then m else Returns false.

(** The locals that the pairing loop of [_check_exceptions] updates;
    [last_res] is the local [res], unbound until the first check. *)
Record pairing := MkPairing {
  pr_results : ResultHolder;
  remaining_actual : list nat;
  failed_expected : list nat;
  matches : gmap nat nat;
  last_res : option (option string);
}.

(** [{v: k for k, v in matches.items()}]; the values of [matches] are
    distinct, so the order of the items does not matter. *)
Definition rev_matches_of (matches : gmap nat nat) : gmap nat nat :=
  foldr (λ kv acc, <[kv.2 := kv.1]> acc) ∅ (reverse (map_to_list matches)).

(** [f"{x}"] for [x : str | None] *)
Definition format_result (x : option string) : string :=
  match x with
  | Some s => s
  | None => "None"
  end.

Section Pairing.
Context `{Host}.
Variable _check_expected : ExpectedType → exc → outcome (option string).

(** The inner loop [for i_rem in remaining_actual]: the table and [res]
    after it, and the [i_rem] at which it broke out, if it did. *)
Definition scan_remaining (expected : ExpectedType) (i_exp : nat)
    (actual_exceptions : list exc)
  : list nat → ResultHolder → option (option string) →
    outcome (ResultHolder * option (option string) * option nat) :=
  fix scan remaining results_ res :=
    match remaining with
    | [] => Returns (results_, res, None)
    | i_rem :: remaining =>
      match actual_exceptions !! i_rem with
      | None => Raises IndexError
      | Some actual =>
        let+ res := _check_expected expected actual in
        let+ results_ := set_result results_ i_exp i_rem res in
        match res with
        | None => Returns (results_, Some res, Some i_rem)
        | Some _ => scan remaining results_ (Some res)
        end
      end
    end.

(** The loop [for i_exp, expected in enumerate(self.expected_exceptions)]
    that pairs greedily, expected exceptions first. *)
Definition pairing_loop (actual_exceptions : list exc)
  : nat → list ExpectedType → pairing → outcome pairing :=
  fix loop i_exp expecteds st :=
    match expecteds with
    | [] => Returns st
    | expected :: expecteds =>
      let+ '(results_, res, found) :=
        scan_remaining expected i_exp actual_exceptions
          (remaining_actual st) (pr_results st) (last_res st) in
      match found with
      | Some i_rem =>
        let+ remaining := list_remove i_rem (remaining_actual st) in
        loop (S i_exp) expecteds
          (MkPairing results_ remaining (failed_expected st)
             (<[i_exp := i_rem]> (matches st)) res)
      | None =>
        loop (S i_exp) expecteds
          (MkPairing results_ (remaining_actual st)
             (failed_expected st ++ [i_exp]) (matches st) res)
      end
    end.

(** The pairing loop from the initial locals. *)
Definition greedy_pairing (expected_exceptions : list ExpectedType)
    (actual_exceptions : list exc) : outcome pairing :=
  pairing_loop actual_exceptions 0 expected_exceptions
    (MkPairing (ResultHolder_init expected_exceptions actual_exceptions)
       (seq 0 (length actual_exceptions)) [] ∅ None).

(** The exhaustive loops that complete the table. *)
Definition fill_row (expected : ExpectedType) (i_exp : nat)
  : nat → list exc → ResultHolder → outcome ResultHolder :=
  fix fill i_actual actuals results_ :=
    match actuals with
    | [] => Returns results_
    | actual :: actuals =>
      let+ has := has_result results_ i_exp i_actual in
      if has then fill (S i_actual) actuals results_
      else
        let+ res := _check_expected expected actual in
        let+ results_ := set_result results_ i_exp i_actual res in
        fill (S i_actual) actuals results_
    end.

Definition fill_results (actual_exceptions : list exc)
  : nat → list ExpectedType → ResultHolder → outcome ResultHolder :=
  fix fill i_exp expecteds results_ :=
    match expecteds with
    | [] => Returns results_
    | expected :: expecteds =>
      let+ results_ := fill_row expected i_exp 0 actual_exceptions results_ in
      fill (S i_exp) expecteds results_
    end.

(** [[actual_exceptions[i] for i in idx]!r], element by element *)
Fixpoint repr_actual_at (actual_exceptions : list exc) (idx : list nat)
  : outcome (list string) :=
  match idx with
  | [] => Returns []
  | i :: idx =>
    match actual_exceptions !! i with
    | None => Raises IndexError
    | Some e =>
      let+ rest := repr_actual_at actual_exceptions idx in
      Returns (repr_exc e :: rest)
    end
  end.

(** [self._repr_expected(self.expected_exceptions[i]) for i in idx] *)
Fixpoint repr_expected_at (expected_exceptions : list ExpectedType)
    (idx : list nat) : outcome (list string) :=
  match idx with
  | [] => Returns []
  | i :: idx =>
    match expected_exceptions !! i with
    | None => Raises IndexError
    | Some e =>
      let+ rest := repr_expected_at expected_exceptions idx in
      Returns (_repr_expected e :: rest)
    end
  end.

Definition indent_1 : string := "  ".
Definition indent_2 : string := "    ".

(** The loop [for i_failed in failed_expected] of the report.  [i_exp] is
    the local that the loop completing the table left behind: the index of
    the last expected exception. *)
Definition report_failed (expected_exceptions : list ExpectedType)
    (actual_exceptions : list exc) (results_ : ResultHolder)
    (i_exp : option nat) (rev_matches : gmap nat nat)
  : list nat → string → outcome string :=
  fix loop failed s :=
    match failed with
    | [] => Returns s
    | i_failed :: failed =>
      match expected_exceptions !! i_failed with
      | None => Raises IndexError
      | Some e_failed =>
        let s := s ++ newline ++ indent_1 ++ _repr_expected e_failed in
        let+ s :=
          (fix inner i_actual actuals s :=
             match actuals with
             | [] => Returns s
             | actual :: actuals =>
               match i_exp with
               | None => Raises (NameError "i_exp")
               | Some i_exp =>
                 let+ res := get_result results_ i_exp i_actual in
                 if is_none res then
                   match rev_matches !! i_actual with
                   | None => Raises (KeyError i_actual)
                   | Some i_paired =>
                     match expected_exceptions !! i_paired with
                     | None => Raises IndexError
                     | Some e_paired =>
                       inner (S i_actual) actuals
                         (s ++ newline ++ indent_2 ++ "It matches "
                            ++ repr_exc actual ++ " which was paired with "
                            ++ _repr_expected e_paired)
                     end
                   end
                 else inner (S i_actual) actuals s
               end
             end) 0 actual_exceptions s in
        loop failed s
      end
    end.

(** The loop [for i_actual in remaining_actual] of the report. *)
Definition report_remaining (expected_exceptions : list ExpectedType)
    (actual_exceptions : list exc) (results_ : ResultHolder)
    (failed_expected : list nat) (matches : gmap nat nat)
  : list nat → string → outcome string :=
  fix loop remaining s :=
    match remaining with
    | [] => Returns s
    | i_actual :: remaining =>
      match actual_exceptions !! i_actual with
      | None => Raises IndexError
      | Some actual =>
        let s := s ++ newline ++ indent_1 ++ repr_exc actual ++ ":" in
        let+ s :=
          (fix inner i_exp expecteds s :=
             match expecteds with
             | [] => Returns s
             | expected :: expecteds =>
               let+ res := get_result results_ i_exp i_actual in
               let+ s :=
                 if bool_decide (i_exp ∈ failed_expected) then
                   match res with
                   | None => Raises (AssertionError EmptyString)
                   | Some EmptyString => Raises IndexError
                   | Some (String c _ as res) =>
                     let s :=
                       if bool_decide (c = "010"%char) then s
                       else s ++ newline in
                     Returns (s ++ indent res indent_2)
                   end
                 else Returns s in
               let+ s :=
                 if is_none res then
                   match matches !! i_exp with
                   | None => Raises (KeyError i_exp)
                   | Some i_paired =>
                     match actual_exceptions !! i_paired with
                     | None => Raises IndexError
                     | Some a_paired =>
                       Returns (s ++ newline ++ indent_2 ++ "It matches "
                                  ++ _repr_expected expected
                                  ++ " which was paired with "
                                  ++ repr_exc a_paired)
                     end
                   end
                 else Returns s in
               inner (S i_exp) expecteds s
             end) 0 expected_exceptions s in
        loop remaining s
      end
    end.

(** [bool(l)] of a list or dict *)
Definition nonempty {A} (l : list A) : bool :=
  match l with
  | [] => false
  | _ => true
  end.
Definition dict_nonempty (m : gmap nat nat) : bool :=
  negb (bool_decide (m = ∅)).

End Pairing.

Section CheckExceptions.
Context `{Host}.
Variable _check_expected : ExpectedType → exc → outcome (option string).
(** The exhaustive check consulted at the end of the report;
    [_check_exceptions] below passes [possible_match]. *)
Variable exhaustive_check : ResultHolder → outcome bool.

(** The body of [RaisesGroup._check_exceptions]: the value returned, with
    [self.fail_reason] written on the way. *)
Definition _check_exceptions_with (self : RaisesGroup) (_exc_val : exc)
    (actual_exceptions : list exc) : M bool :=
  let expected_exceptions := expected_exceptions self in
  let* st := lift (greedy_pairing _check_expected expected_exceptions
                     actual_exceptions) in
  let remaining_actual := remaining_actual st in
  let failed_expected := failed_expected st in
  let matches := matches st in
  (* All exceptions matched up successfully *)
  if negb (nonempty remaining_actual) && negb (nonempty failed_expected)
  then ret true else
  (* in case of a single expected and single raised we simplify the output *)
  if bool_decide (1 = length actual_exceptions)
     && bool_decide (length actual_exceptions = length expected_exceptions)
  then
    (if dict_nonempty matches then raise (AssertionError EmptyString)
     else ret tt) ;;
    match last_res st with
    | None => raise (NameError "res")
    | Some res => set_fail_reason res
    end ;;
    ret false
  else
  let* results_ := lift (fill_results _check_expected actual_exceptions 0
                           expected_exceptions (pr_results st)) in
  let i_exp :=
    match expected_exceptions with
    | [] => None
    | _ => Some (length expected_exceptions - 1)
    end in
  let successful_str :=
    if dict_nonempty matches then
      pretty (size matches) ++ " matched exception"
      ++ (if bool_decide (1 < size matches) then "s" else EmptyString) ++ ". "
    else EmptyString in
  (* all expected were found *)
  let* c := lift (and_then (negb (nonempty failed_expected))
                    (no_match_for_actual results_ remaining_actual)) in
  if c then
    let* rs := lift (repr_actual_at actual_exceptions remaining_actual) in
    set_fail_reason (Some (successful_str ++ "Unexpected exception(s): "
                             ++ "[" ++ join ", " rs ++ "]")) ;;
    ret false
  else
  (* all raised exceptions were expected *)
  let* c := lift (and_then (negb (nonempty remaining_actual))
                    (no_match_for_expected results_ failed_expected)) in
  if c then
    let* rs := lift (repr_expected_at expected_exceptions failed_expected) in
    set_fail_reason (Some (successful_str
      ++ "Too few exceptions raised, found no match for: ["
      ++ join ", " rs ++ "]")) ;;
    ret false
  else
  (* only one remaining and one failed, and no other match for either *)
  let* c := lift (and_then
      (bool_decide (1 = length remaining_actual)
       && bool_decide (length remaining_actual = length failed_expected))
      (let+ b := no_match_for_actual results_ remaining_actual in
       and_then b (no_match_for_expected results_ failed_expected))) in
  if c then
    match failed_expected, remaining_actual with
    | i_failed :: _, i_rem :: _ =>
      let* res := lift (get_result results_ i_failed i_rem) in
      set_fail_reason (Some (successful_str ++ format_result res)) ;;
      ret false
    | _, _ => raise IndexError
    end
  else
  (* there's both expected and raised exceptions without matches *)
  let s := EmptyString in
  let s := if dict_nonempty matches then s ++ newline ++ successful_str else s in
  let s :=
    if negb (nonempty remaining_actual)
    then s ++ newline ++ "Too few exceptions raised!"
    else if negb (nonempty failed_expected)
    then s ++ newline ++ "Unexpected exception(s)!"
    else s in
  let s :=
    if nonempty failed_expected
    then s ++ newline
           ++ "The following expected exceptions did not find a match:"
    else s in
  let rev_matches := rev_matches_of matches in
  let* s := lift (report_failed expected_exceptions actual_exceptions results_
                    i_exp rev_matches failed_expected s) in
  let s :=
    if nonempty remaining_actual
    then s ++ newline ++ "The following raised exceptions did not find a match"
    else s in
  let* s := lift (report_remaining expected_exceptions actual_exceptions
                    results_ failed_expected matches remaining_actual s) in
  let* possible :=
    lift (and_then
            (bool_decide (length expected_exceptions = length actual_exceptions))
            (exhaustive_check results_)) in
  let s :=
    if possible
    then s ++ newline ++ "There exist a possible match when attempting an exhaustive check, but RaisesGroup uses a greedy algorithm. Please make your expected exceptions more stringent with `Matcher` etc so the greedy algorithm can function."
    else s in
  set_fail_reason (Some s) ;;
  ret false.

End CheckExceptions.

Section RaisesGroupMatches.
Context `{Host}.
Variable _check_expected : ExpectedType → exc → outcome (option string).

Definition _check_exceptions_body : RaisesGroup → exc → list exc → M bool :=
  _check_exceptions_with _check_expected possible_match.

Definition is_type (e : ExpectedType) : bool :=
  match e with
  | ExpType _ => true
  | _ => false
  end.
Definition is_group_pattern (e : ExpectedType) : bool :=
  match e with
  | ExpGroup _ => true
  | _ => false
  end.

(** The body of [RaisesGroup.matches]. *)
Definition RaisesGroup_matches_body (self : RaisesGroup)
    (exc_val : option exc) : M bool :=
  set_fail_reason None ;;
  match exc_val with
  | None =>
    set_fail_reason (Some "exception is None") ;;
    ret false
  | Some exc_val =>
    if negb (isinstance exc_val BaseExceptionGroup) then
      let not_group_msg :=
        repr_str (cls_name (exc_type exc_val))
        ++ " is not an exception group" in
      if bool_decide (1 < length (expected_exceptions self)) then
        set_fail_reason (Some not_group_msg) ;;
        ret false
      else
        match expected_exceptions self with
        | [] => raise IndexError
        | expected :: _ =>
          let* res := lift (_check_expected expected exc_val) in
          if is_none res && allow_unwrapped self then ret true
          else
            (if is_none res then
               set_fail_reason (Some (not_group_msg
                 ++ ", but would match with `allow_unwrapped=True`"))
             else if allow_unwrapped self then set_fail_reason res
             else set_fail_reason (Some not_group_msg)) ;;
            ret false
        end
    else
      let actual_exceptions := exc_exceptions exc_val in
      let actual_exceptions :=
        if flatten_subgroups self then _unroll_exceptions actual_exceptions
        else actual_exceptions in
      let* ok := _check_match (match_expr self) exc_val in
      if negb ok then
        let* old_reason := get_fail_reason in
        let* hint :=
          match actual_exceptions, expected_exceptions self with
          | [actual], [ExpType expected] =>
            if isinstance actual expected then
              let* ok := _check_match (match_expr self) actual in
              ret (if ok then Some expected else None)
            else ret None
          | _, _ => ret None
          end in
        match hint with
        | Some expected =>
          match match_expr self, old_reason with
          | Some match_expr, Some _ =>
            append_fail_reason (", but matched the expected "
              ++ _repr_expected (ExpType expected)
              ++ ". You might want RaisesGroup(Matcher(" ++ cls_name expected
              ++ ", match=" ++ repr_str_or_Pattern (_match_pattern match_expr)
              ++ "))")
          | _, _ => raise (AssertionError "can't be None if _check_match failed")
          end
        | None => set_fail_reason old_reason
        end ;;
        ret false
      else
      (* do the full check on expected exceptions *)
      let* ok := _check_exceptions_body self exc_val actual_exceptions in
      if negb ok then
        let* old_reason := get_fail_reason in
        match old_reason with
        | None => raise (AssertionError EmptyString)
        | Some old_reason =>
          let* second_pass :=
            if negb (flatten_subgroups self)
               && negb (existsb is_group_pattern (expected_exceptions self))
               && existsb (λ e, isinstance e BaseExceptionGroup)
                    actual_exceptions
            then _check_exceptions_body self exc_val
                   (_unroll_exceptions (exc_exceptions exc_val))
            else ret false in
          (if second_pass then
             set_fail_reason (Some (old_reason ++ newline
               ++ "Did you mean to use `flatten_subgroups=True`?"))
           else set_fail_reason (Some old_reason)) ;;
          ret false
        end
      else
      (* only run [self.check] once we know [exc_val] is correct *)
      _check_check (check self) exc_val (_nested self)
  end.

(** What [_check_expected] makes of [expected_type.matches(exception)]:
    [res] is the value returned, [fail_reason] the attribute after the call
    and [repr_] is [repr(expected_type)]. *)
Definition describe_mismatch (repr_ : string) (res : bool)
    (fail_reason : option string) : outcome (option string) :=
  if res then Returns None
  else
    match fail_reason with
    | None => Raises (AssertionError EmptyString)
    | Some fail_reason =>
      if startswith_newline fail_reason then
        Returns (Some (newline ++ repr_ ++ ": " ++ indent fail_reason "  "))
      else Returns (Some (repr_ ++ ": " ++ fail_reason))
    end.

End RaisesGroupMatches.

Section RaisesGroupMethods.
Context `{Host}.

(** [RaisesGroup._check_expected].  The objects' own [fail_reason] before
    the call is overwritten by [matches] before it is read, so the call
    starts from [None]. *)
Fixpoint _check_expected (expected_type : ExpectedType) (exception : exc)
  : outcome (option string) :=
  match expected_type with
  | ExpType t => Returns (_check_raw_type (Some t) exception)
  | ExpMatcher m =>
    let+ '(res, fail_reason) :=
      call_method (Matcher_matches m exception) None in
    describe_mismatch (Matcher_repr m) res fail_reason
  | ExpGroup g =>
    let+ '(res, fail_reason) :=
      call_method
        (RaisesGroup_matches_body _check_expected g (Some exception)) None in
    describe_mismatch (RaisesGroup_repr g) res fail_reason
  end.

End RaisesGroupMethods.

Section RaisesGroupObject.
Context `{Host}.

(** [RaisesGroup.matches] and [RaisesGroup._check_exceptions] *)
Definition RaisesGroup_matches : RaisesGroup → option exc → M bool :=
  RaisesGroup_matches_body _check_expected.

Definition _check_exceptions : RaisesGroup → exc → list exc → M bool :=
  _check_exceptions_body _check_expected.

(** *** The context manager

    [__enter__] creates a handle and returns it; the same object stays
    reachable as [self.excinfo], and [__exit__] fills it through that
    attribute.  The handles live in a store and both references are an
    index into it.  (With pytest installed the class of the handle is
    pytest's [ExceptionInfo]; the module's own [_ExceptionInfo] is the one
    modelled.) *)
Record world := MkWorld {
  handles : list _ExceptionInfo;
  self_excinfo : option nat;
  self_fail_reason : option string;
}.

Definition RaisesGroup_enter (w : world) : nat * world :=
  let h := length (handles w) in
  (h, MkWorld (handles w ++ [for_later]) (Some h) (self_fail_reason w)).

Definition with_fail_reason (w : world) (r : option string) : world :=
  MkWorld (handles w) (self_excinfo w) r.

Definition RaisesGroup_exit (self : RaisesGroup) (exc_type : option pyclass)
    (exc_val : option exc) (exc_tb : option traceback) (w : world)
  : outcome bool * world :=
  match exc_type with
  | None =>
    (Raises (AssertionError ("DID NOT RAISE any exception, expected "
                               ++ expected_type self)), w)
  | Some exc_type =>
    match self_excinfo w with
    | None => (Raises (AttributeError "excinfo"), w)
    | Some h =>
      let group_str :=
        if allow_unwrapped self && negb (issubclass exc_type BaseExceptionGroup)
        then "(group)" else "group" in
      match RaisesGroup_matches self exc_val (self_fail_reason w) with
      | (Raises e, r) => (Raises e, with_fail_reason w r)
      | (Returns false, r) =>
        (Raises (AssertionError ("Raised exception " ++ group_str
                   ++ " did not match: " ++ format_result r)),
         with_fail_reason w r)
      | (Returns true, r) =>
        match handles w !! h with
        | None => (Raises (AttributeError "excinfo"), with_fail_reason w r)
        | Some info =>
          match fill_unfilled info (exc_type, exc_val, exc_tb) with
          | Raises e => (Raises e, with_fail_reason w r)
          | Returns info =>
            (Returns true,
             MkWorld (<[h := info]> (handles w)) (Some h) r)
          end
        end
      end
    end
  end.

End RaisesGroupObject.

(** ** A concrete host, for the examples

    [repr] of a string without quotes, backslashes or control characters;
    [repr] of an exception built from its message alone; [repr] of a
    pattern compiled without flags or with [re.IGNORECASE] (2, which with
    the unicode flag makes 34); [re.compile] of a
    string without metacharacters, whose [search] is substring search;
    [textwrap.indent] of a text without blank lines. *)

Fixpoint contains (needle hay : string) : bool :=
  String.prefix needle hay
  || match hay with
     | EmptyString => false
     | String _ hay => contains needle hay
     end.

Definition literal_pattern (s : string) : Pattern :=
  MkPattern s _REGEX_NO_FLAGS (contains s).

Definition quote (s : string) : string := "'" ++ s ++ "'".

Fixpoint demo_repr_exc (e : exc) : string :=
  cls_name (exc_type e) ++ "("
  ++ (if bool_decide (exc_message e = EmptyString)
         && negb (isinstance e BaseExceptionGroup)
      then EmptyString else quote (exc_message e))
  ++ (if isinstance e BaseExceptionGroup
      then ", [" ++ join ", " (map demo_repr_exc (exc_exceptions e)) ++ "]"
      else EmptyString)
  ++ ")".

Fixpoint demo_indent_from (line_start : bool) (text prefix : string) : string :=
  match text with
  | EmptyString => EmptyString
  | String c text =>
    if bool_decide (c = "010"%char)
    then String c (demo_indent_from true text prefix)
    else (if line_start then prefix else EmptyString)
         ++ String c (demo_indent_from false text prefix)
  end.

Definition demo_host : Host := {|
  repr_exc := demo_repr_exc;
  repr_str := quote;
  repr_Pattern := λ p,
    "re.compile(" ++ quote (pattern p)
    ++ (if bool_decide (flags p = 34%Z) then ", re.IGNORECASE" else EmptyString)
    ++ ")";
  repr_class := λ c, "<class " ++ quote (cls_name c) ++ ">";
  re_compile := λ s, Returns (literal_pattern s);
  indent := demo_indent_from true;
|}.

Definition ValueError_cls : pyclass :=
  PyClass "ValueError" ["Exception"; "BaseException"; "object"].
Definition TypeError_cls : pyclass :=
  PyClass "TypeError" ["Exception"; "BaseException"; "object"].

(** [cls(msg)] for a plain exception class *)
Definition new_exc (cls : pyclass) (msg : string) : exc := Exc cls msg [] [].
(** [ExceptionGroup(msg, excs)] *)
Definition new_group (msg : string) (excs : list exc) : exc :=
  Exc ExceptionGroup msg [] excs.

(** * Properties *)

(** ** The monad: how the building blocks leave [fail_reason] *)

(** What a method that reports through [fail_reason] leaves behind when
    started with [fail_reason = r0]: untouched on [True], a reason on
    [False]. *)
Definition reports {A} (res : outcome bool * option A) (r0 : option A) : Prop :=
  match res with
  | (Returns true, r) => r = r0
  | (Returns false, r) => is_Some r
  | (Raises _, _) => True
  end.

(** Case analysis on a scrutinee of the goal that holds no other one. *)
Ltac destruct_innermost :=
  match goal with
  | |- context [match ?x with _ => _ end] =>
    lazymatch x with
    | context [match _ with _ => _ end] => fail
    | _ => destruct x
    end
  end.

Ltac munfold :=
  unfold append_fail_reason in *;
  unfold bind, ret, lift, raise, set_fail_reason, get_fail_reason,
    call_method, obind, and_then in *.

Section BuildingBlocks.
Context `{Host}.

Lemma _check_check_reports check exception suppress_repr r0 :
  reports (_check_check check exception suppress_repr r0) r0.
Proof.
  unfold _check_check. destruct check as [c|]; [|done].
  destruct (call c exception); munfold; simpl; eauto.
Qed.

Lemma _check_check_returns check exception suppress_repr r0 :
  ∃ b r, _check_check check exception suppress_repr r0 = (Returns b, r).
Proof.
  unfold _check_check. munfold.
  destruct check as [c|]; [|by eexists _, _].
  destruct (call c exception); simpl; by eexists _, _.
Qed.

Lemma _check_match_reports match_expr e r0 :
  reports (_check_match match_expr e r0) r0.
Proof.
  unfold _check_match. destruct match_expr as [p|]; [|done].
  destruct (re_search p _); [done|].
  munfold; simpl.
  destruct (str_or_Pattern_eq _ _); simpl; eauto.
Qed.

Lemma _check_match_returns match_expr e r0 :
  ∃ b r, _check_match match_expr e r0 = (Returns b, r).
Proof.
  unfold _check_match. munfold.
  destruct match_expr as [p|]; [|by eexists _, _].
  destruct (re_search p _); [by eexists _, _|].
  simpl. destruct (str_or_Pattern_eq _ _); simpl; by eexists _, _.
Qed.

End BuildingBlocks.

(** ** [Matcher.matches] *)

Definition escape_warning : string :=
  newline ++ "Did you mean to `re.escape()` the regex?".

Section MatcherProperties.
Context `{Host}.

(** The reason [_check_match] leaves when the pattern [p] finds no match in
    the text of [e]. *)
Definition match_fail_reason (p : Pattern) (e : exc) : string :=
  ("Regex pattern " ++ repr_str_or_Pattern (_match_pattern p)
   ++ " did not match " ++ repr_str (_stringify_exception e)
   ++ (if isinstance e BaseExceptionGroup
       then " of " ++ _exception_type_name (exc_type e) else EmptyString))
  ++ (if bool_decide (flags p = _REGEX_NO_FLAGS)
         && bool_decide (pattern p = _stringify_exception e)
      then escape_warning else EmptyString).

(** The outcome of the third check, once the first two have passed. *)
Definition check_verdict (self : Matcher) (e : exc)
  : outcome bool * option string :=
  match m_check self with
  | Some c =>
    if call c e then (Returns true, None)
    else (Returns false, Some "check did not return True")
  | None => (Returns true, None)
  end.

Lemma app_String (a : ascii) (s t : string) :
  String a s ++ t = String a (s ++ t).
Proof. reflexivity. Qed.

Lemma app_empty_r (s : string) : s ++ EmptyString = s.
Proof.
  induction s as [|a s IH]; [done|].
  change (String a (s ++ EmptyString) = String a s). by rewrite IH.
Qed.

(** [Matcher.matches] in closed form. *)
Lemma Matcher_matches_eq (self : Matcher) (e : exc)
    (r0 : option string) :
  Matcher_matches self e r0 =
    match _check_raw_type (exception_type self) e with
    | Some type_reason => (Returns false, Some type_reason)
    | None =>
      match m_match self with
      | Some p =>
        if search p (join newline (exc_message e :: exc_notes e))
        then check_verdict self e
        else (Returns false, Some (match_fail_reason p e))
      | None => check_verdict self e
      end
    end.
Proof.
  unfold Matcher_matches, Matcher__check_type, check_verdict.
  munfold; simpl.
  destruct (_check_raw_type _ _) as [reason|]; simpl; [done|].
  unfold _check_match, match_fail_reason, re_search, _stringify_exception.
  set (text := join newline _).
  destruct (m_match self) as [p|]; simpl.
  - destruct (search p text); simpl.
    + unfold _check_check. destruct (m_check self) as [c|]; [|done].
      by destruct (call c e).
    + munfold; simpl. unfold _match_pattern, str_or_Pattern_eq.
      destruct (bool_decide (flags p = _REGEX_NO_FLAGS)); simpl.
      * by destruct (bool_decide (pattern p = text)); simpl;
          rewrite ?app_empty_r.
      * by rewrite app_empty_r.
  - unfold _check_check. destruct (m_check self) as [c|]; [|done].
    by destruct (call c e).
Qed.

(** [Matcher.matches] never raises, and [fail_reason] is [None] after
    [True] and a reason after [False]. *)
Lemma Matcher_matches_fail_reason (self : Matcher) (e : exc)
    (r0 : option string) :
  ∃ b r, Matcher_matches self e r0 = (Returns b, r)
         ∧ if b then r = None else is_Some r.
Proof.
  rewrite Matcher_matches_eq. unfold check_verdict.
  repeat case_match; eexists _, _; (split; [done|]); simpl; eauto.
Qed.

(** C8, as amended: [Matcher.matches] runs the type check, then the
    text-pattern check, then the predicate check, skips a check that is not
    set, and at the first failing one leaves the reason of that check in
    [fail_reason] and returns [False]; the pattern is searched in the
    message joined with the notes by newlines; the hint to escape the
    pattern is appended when the pattern was compiled with the default
    flags and its string equals that text. *)
Theorem Matcher_matches_checks_in_order (self : Matcher) (e : exc)
    (r0 : option string) :
  Matcher_matches self e r0 =
    match _check_raw_type (exception_type self) e with
    | Some type_reason => (Returns false, Some type_reason)
    | None =>
      match m_match self with
      | Some p =>
        if search p (join newline (exc_message e :: exc_notes e))
        then check_verdict self e
        else (Returns false, Some (match_fail_reason p e))
      | None => check_verdict self e
      end
    end.
Proof. apply Matcher_matches_eq. Qed.

End MatcherProperties.

(** The pattern [a+b] compiled with [re.IGNORECASE]: it finds a match in the
    texts in which an [a] is directly followed by a [b], in either case. *)
Definition a_plus_b_ignorecase : Pattern :=
  MkPattern "a+b" 34%Z
    (λ s, contains "ab" s || contains "aB" s || contains "Ab" s
          || contains "AB" s).

(** C8, the claim as stated fails: the pattern string equals the rendered
    text and the search fails, yet no hint to escape is appended, because
    the pattern carries a flag. *)
Lemma Matcher_matches_no_escape_hint_with_flags :
  let m := MkMatcher (Some ValueError_cls) (Some a_plus_b_ignorecase) None in
  let e := new_exc ValueError_cls "a+b" in
  pattern a_plus_b_ignorecase = _stringify_exception e
  ∧ @Matcher_matches demo_host m e None
    = (Returns false,
       Some "Regex pattern re.compile('a+b', re.IGNORECASE) did not match 'a+b'").
Proof. split; reflexivity. Qed.

(** ** Construction *)

Definition raises {A} (o : outcome A) : Prop :=
  match o with
  | Raises _ => True
  | Returns _ => False
  end.

(** An argument that is none of an exception type, a [Matcher] or a
    [RaisesGroup]. *)
Definition invalid_argument (o : pyobj) : Prop :=
  match o with
  | ObjOther _ => True
  | ObjType c => issubclass c BaseException = false
  | ObjMatcher _ | ObjRaisesGroup _ => False
  end.

Section Construction.
Context `{Host}.

Lemma verify_expected_nested flatten excs is_base g :
  ObjRaisesGroup g ∈ excs → flatten = true →
  raises (verify_expected flatten excs is_base).
Proof.
  intros Hin ->. revert is_base.
  induction excs as [|o excs IH]; intros is_base; [by inversion Hin|].
  apply elem_of_cons in Hin as [<-|Hin]; [done|].
  destruct o as [c|m|g'|r]; simpl; try done.
  - destruct (issubclass c BaseException); [|done].
    specialize (IH Hin (is_base || negb (issubclass c Exception))).
    by destruct (verify_expected _ _ _) as [[]|].
  - match goal with |- context [verify_expected true excs ?b] =>
      specialize (IH Hin b); by destruct (verify_expected _ _ b) as [[]|]
    end.
Qed.

Lemma verify_expected_invalid flatten excs is_base o :
  o ∈ excs → invalid_argument o →
  raises (verify_expected flatten excs is_base).
Proof.
  intros Hin Hbad. revert is_base.
  induction excs as [|o' excs IH]; intros is_base; [by inversion Hin|].
  apply elem_of_cons in Hin as [<-|Hin].
  { destruct o as [c| | |r]; simpl in *; try done. by rewrite Hbad. }
  destruct o' as [c|m|g'|r]; simpl; try done.
  - destruct (issubclass c BaseException); [|done].
    specialize (IH Hin (is_base || negb (issubclass c Exception))).
    by destruct (verify_expected _ _ _) as [[]|].
  - match goal with |- context [verify_expected flatten excs ?b] =>
      specialize (IH Hin b); by destruct (verify_expected _ _ b) as [[]|]
    end.
  - destruct flatten; [done|].
    specialize (IH Hin (is_base || is_baseexceptiongroup g')).
    by destruct (verify_expected _ _ _) as [[]|].
Qed.

(** C4: each invalid configuration raises at construction, so that no
    object exists on which [matches] could be evaluated: a [Matcher] with
    nothing to match on; a [Matcher] whose [exception_type] is not an
    exception type; a [RaisesGroup] with [allow_unwrapped=True] and more
    than one expected exception, a nested [RaisesGroup], or a [match] or
    [check]; [flatten_subgroups=True] with a nested [RaisesGroup]; an
    expected exception that is none of an exception type, a [Matcher] or a
    [RaisesGroup]. *)
Theorem invalid_configurations_raise :
  raises (Matcher_init None None None)
  ∧ (∀ t match_ check,
       issubclass t BaseException = false →
       raises (Matcher_init (Some t) match_ check))
  ∧ (∀ exception other flatten match_ check,
       other ≠ [] →
       raises (RaisesGroup_init exception other true flatten match_ check))
  ∧ (∀ g other flatten match_ check,
       raises (RaisesGroup_init (ObjRaisesGroup g) other true flatten
                 match_ check))
  ∧ (∀ exception other flatten match_ check,
       is_Some match_ ∨ is_Some check →
       raises (RaisesGroup_init exception other true flatten match_ check))
  ∧ (∀ exception other allow match_ check g,
       ObjRaisesGroup g ∈ exception :: other →
       raises (RaisesGroup_init exception other allow true match_ check))
  ∧ (∀ exception other allow flatten match_ check o,
       o ∈ exception :: other → invalid_argument o →
       raises (RaisesGroup_init exception other allow flatten match_ check)).
Proof.
  repeat split.
  - intros t match_ check Ht. unfold Matcher_init. simpl. by rewrite Ht.
  - intros exception other flatten match_ check Hne. unfold RaisesGroup_init.
    destruct (compile_match match_); [simpl|done].
    by rewrite bool_decide_eq_false_2.
  - intros g other flatten match_ check. unfold RaisesGroup_init.
    destruct (compile_match match_); [simpl|done].
    by case_bool_decide.
  - intros exception other flatten match_ check Hset. unfold RaisesGroup_init.
    destruct (compile_match match_); [simpl|done].
    case_bool_decide; simpl; [|done].
    destruct (is_RaisesGroup exception); [done|].
    by destruct Hset as [[? ->]|[? ->]]; simpl; rewrite ?orb_true_r.
  - intros exception other allow match_ check g Hin.
    pose proof (verify_expected_nested true (exception :: other)
                  false g Hin eq_refl) as Hr.
    unfold RaisesGroup_init.
    destruct (compile_match match_); [cbn [obind]|done].
    destruct (verify_expected _ _ _) as [[]|]; [done|].
    by repeat case_match.
  - intros exception other allow flatten match_ check o Hin Hbad.
    pose proof (verify_expected_invalid flatten (exception :: other)
                  false o Hin Hbad) as Hr.
    unfold RaisesGroup_init.
    destruct (compile_match match_); [cbn [obind]|done].
    destruct (verify_expected _ _ _) as [[]|]; [done|].
    by repeat case_match.
Qed.

End Construction.

Lemma invalid_configurations_raise_witness :
  raises (@Matcher_init demo_host (Some (PyClass "int" ["object"])) None None)
  ∧ raises (@RaisesGroup_init demo_host (ObjType ValueError_cls)
              [ObjType TypeError_cls] true false None None)
  ∧ raises (@RaisesGroup_init demo_host (ObjType ValueError_cls) []
              true false (Some (MatchStr "x")) None)
  ∧ raises (@RaisesGroup_init demo_host (ObjType ValueError_cls)
              [ObjRaisesGroup
                 (MkRaisesGroup [ExpType ValueError_cls] false false None None
                    false false)]
              false true None None)
  ∧ raises (@RaisesGroup_init demo_host (ObjType ValueError_cls)
              [ObjOther "3"] false false None None).
Proof.
  destruct (@invalid_configurations_raise demo_host)
    as (_ & Hm & Hmany & _ & Hmc & Hflat & Hbad).
  split; [by apply Hm|].
  split; [by apply Hmany|].
  split; [apply Hmc; left; eauto|].
  split; [eapply Hflat; apply list_elem_of_further, list_elem_of_here|].
  eapply (Hbad _ _ _ _ _ _ (ObjOther "3"));
    [apply list_elem_of_further, list_elem_of_here|done].
Defined.

(** ** The context manager *)

Section ScopedBlock.
Context `{Host}.

(** C5: [__enter__] returns an unfilled handle; [__exit__] either returns
    [True], and then an exception was raised, [matches] accepted it and the
    handle went from unfilled to holding [(exc_type, exc_val, exc_tb)], or
    it raises, and then the handle is still unfilled and either nothing was
    raised or [matches] did not accept; it never returns [False].  A filled
    handle cannot be filled again, and [type], [value] and [tb] of an
    unfilled handle raise. *)
Theorem scoped_block_fills_iff_handled (self : RaisesGroup) (w : world)
    (exc_type : option pyclass) (exc_val : option exc)
    (exc_tb : option traceback) :
  let h := (RaisesGroup_enter w).1 in
  let w1 := (RaisesGroup_enter w).2 in
  let w2 := (RaisesGroup_exit self exc_type exc_val exc_tb w1).2 in
  let accepted :=
    (RaisesGroup_matches self exc_val (self_fail_reason w)).1 = Returns true in
  handles w1 !! h = Some for_later
  ∧ self_excinfo w1 = Some h
  ∧ match (RaisesGroup_exit self exc_type exc_val exc_tb w1).1 with
    | Returns handled =>
      handled = true ∧ accepted
      ∧ ∃ t, exc_type = Some t
             ∧ handles w2 !! h
               = Some (Mk_ExceptionInfo (Some (t, exc_val, exc_tb)))
    | Raises _ =>
      handles w2 !! h = Some for_later ∧ (exc_type = None ∨ ¬ accepted)
    end
  ∧ (∀ info exc_info,
       is_Some (_excinfo info) →
       fill_unfilled info exc_info
       = Raises (AssertionError "ExceptionInfo was already filled"))
  ∧ raises (excinfo_type for_later)
  ∧ raises (excinfo_value for_later)
  ∧ raises (excinfo_tb for_later).
Proof.
  simpl.
  assert (Hh : (handles w ++ [for_later])%list !! length (handles w)
               = Some for_later).
  { by rewrite lookup_app_r, Nat.sub_diag by lia. }
  split; [done|]. split; [done|]. split.
  - unfold RaisesGroup_exit; simpl.
    destruct exc_type as [t|]; simpl; [|by eauto].
    destruct (RaisesGroup_matches self exc_val (self_fail_reason w))
      as [[[]|e] r]; simpl.
    + rewrite Hh; simpl. repeat split; [].
      exists t. split; [done|].
      rewrite list_lookup_insert_eq; [done|].
      rewrite length_app; simpl; lia.
    + split; [done|]. right. congruence.
    + split; [done|]. right. congruence.
  - split; [|done].
    intros info exc_info [x Hx]. unfold fill_unfilled. by rewrite Hx.
Qed.

End ScopedBlock.

Lemma scoped_block_fills_iff_handled_witness :
  fill_unfilled (Mk_ExceptionInfo (Some (ValueError_cls, None, None)))
    (TypeError_cls, None, None)
  = Raises (AssertionError "ExceptionInfo was already filled").
Proof.
  pose proof (@scoped_block_fills_iff_handled demo_host
                (MkRaisesGroup [ExpType ValueError_cls] false false None None
                   false false)
                (MkWorld [] None None) None None None) as Hp.
  simpl in Hp. destruct Hp as (_ & _ & _ & Hfill & _).
  apply Hfill. eauto.
Defined.

(** ** The pairing algorithm *)

(** *** The pairing as the specification words it

    For each expected pattern in declared order, scan the remaining
    unmatched actual errors in original order and take the first one that
    satisfies it, recording every pair tried; remove it from the pool.  A
    pattern that finds no match is recorded as failed and the scan goes on
    with the next pattern. *)

(** The errors tried for one pattern: the pool in order, up to and
    including the first error that satisfies the pattern. *)
Fixpoint tried (ok : nat → bool) (pool : list nat) : list nat :=
  match pool with
  | [] => []
  | j :: pool => j :: (if ok j then [] else tried ok pool)
  end.

Record spec_pairing := MkSpec {
  sp_pool : list nat;
  sp_failed : list nat;
  sp_claimed : gmap nat nat;
  sp_tried : list (nat * nat);
}.

Definition spec_step (sat : nat → nat → bool) (i : nat) (st : spec_pairing)
  : spec_pairing :=
  let tried_now := (λ j, (i, j)) <$> tried (sat i) (sp_pool st) in
  match List.find (sat i) (sp_pool st) with
  | Some j =>
    MkSpec (filter (λ k, k ≠ j) (sp_pool st)) (sp_failed st)
      (<[i := j]> (sp_claimed st)) (sp_tried st ++ tried_now)
  | None =>
    MkSpec (sp_pool st) (sp_failed st ++ [i]) (sp_claimed st)
      (sp_tried st ++ tried_now)
  end.

(** The patterns [i], [i+1], ..., [i+n-1] in turn *)
Fixpoint spec_pairing_from (sat : nat → nat → bool) (i n : nat)
    (st : spec_pairing) : spec_pairing :=
  match n with
  | 0 => st
  | S n => spec_pairing_from sat (S i) n (spec_step sat i st)
  end.

(** [n] expected patterns against [m] actual errors *)
Definition greedy_expected_first (sat : nat → nat → bool) (n m : nat)
  : spec_pairing :=
  spec_pairing_from sat 0 n (MkSpec (seq 0 m) [] ∅ []).

(** A perfect pairing of [n] patterns with [m] errors: every pattern has
    claimed an error, every error was claimed, and no error twice. *)
Definition perfect_pairing (claimed : gmap nat nat) (n m : nat) : Prop :=
  (∀ i, i < n → is_Some (claimed !! i))
  ∧ (∀ j, j < m → ∃ i, i < n ∧ claimed !! i = Some j)
  ∧ (∀ i i' j, claimed !! i = Some j → claimed !! i' = Some j → i = i').

(** *** The table *)

Definition cell_at (T : ResultHolder) (i j : nat) : option cell :=
  results T !! j ≫= (λ row, row !! i).

(** [m] rows of [n] cells *)
Definition table_dims (T : ResultHolder) (m n : nat) : Prop :=
  length (results T) = m ∧ Forall (λ row, length row = n) (results T).

Lemma get_cell_cell_at T i j :
  get_cell T i j
  = match cell_at T i j with
    | Some c => Returns c
    | None => Raises IndexError
    end.
Proof.
  unfold get_cell, cell_at. destruct (results T !! j) as [row|]; [|done].
  simpl. by destruct (row !! i).
Qed.

Lemma cell_at_is_Some T m n i j :
  table_dims T m n → i < n → j < m → is_Some (cell_at T i j).
Proof.
  intros [Hm Hn] Hi Hj. unfold cell_at.
  destruct (lookup_lt_is_Some_2 (results T) j) as [row Hrow]; [lia|].
  rewrite Hrow; simpl. apply lookup_lt_is_Some_2.
  rewrite Forall_lookup in Hn. by rewrite (Hn _ _ Hrow).
Qed.

Lemma ResultHolder_init_dims {E} (expected : list E) (actual : list exc) :
  table_dims (ResultHolder_init expected actual) (length actual)
    (length expected).
Proof.
  split; simpl; [by rewrite length_map|].
  apply Forall_forall. intros row Hin.
  apply list_elem_of_In, in_map_iff in Hin as (? & <- & _).
  by rewrite length_map.
Qed.

Lemma ResultHolder_init_cell_at {E} (expected : list E) (actual : list exc)
    i j :
  i < length expected → j < length actual →
  cell_at (ResultHolder_init expected actual) i j = Some NotChecked.
Proof.
  intros Hi Hj. unfold cell_at, ResultHolder_init; simpl.
  destruct (lookup_lt_is_Some_2 actual j Hj) as [a Ha].
  destruct (lookup_lt_is_Some_2 expected i Hi) as [e He].
  change (map ?f ?l) with (f <$> l).
  rewrite list_lookup_fmap, Ha; simpl.
  change (map ?f ?l) with (f <$> l).
  by rewrite list_lookup_fmap, He.
Qed.

Lemma set_result_spec T m n i j x :
  table_dims T m n → i < n → j < m →
  ∃ T', set_result T i j x = Returns T'
        ∧ table_dims T' m n
        ∧ cell_at T' i j = Some (Checked x)
        ∧ ∀ i' j', ¬ (i' = i ∧ j' = j) → cell_at T' i' j' = cell_at T i' j'.
Proof.
  intros [Hm Hn] Hi Hj. unfold set_result.
  destruct (lookup_lt_is_Some_2 (results T) j) as [row Hrow]; [lia|].
  rewrite Hrow.
  assert (Hlen : length row = n).
  { rewrite Forall_lookup in Hn. by apply (Hn _ _ Hrow). }
  rewrite bool_decide_eq_true_2 by lia.
  eexists. split; [done|]. split; [|split].
  - split; simpl; [by rewrite length_insert|].
    apply Forall_insert; [done|]. by rewrite length_insert.
  - unfold cell_at; simpl.
    rewrite list_lookup_insert_eq by lia. simpl.
    by rewrite list_lookup_insert_eq by lia.
  - intros i' j' Hne. unfold cell_at; simpl.
    destruct (decide (j' = j)) as [->|Hj'].
    + rewrite list_lookup_insert_eq by lia. rewrite Hrow. simpl.
      rewrite list_lookup_insert_ne; [done|]. naive_solver.
    + by rewrite list_lookup_insert_ne.
Qed.

(** *** The code refines the specification *)

Lemma filter_all {X} (P : X → Prop) `{∀ x, Decision (P x)} (l : list X) :
  Forall P l → filter P l = l.
Proof.
  induction 1 as [|x l Hx Hl IH]; [done|].
  by rewrite filter_cons_True, IH.
Qed.

Lemma Forall_filter_keep {X} (P Q : X → Prop) `{∀ x, Decision (Q x)}
    (l : list X) :
  Forall P l → Forall P (filter Q l).
Proof.
  rewrite !Forall_forall. intros Hl x [_ Hx]%list_elem_of_filter. auto.
Qed.

Lemma list_remove_filter (j : nat) (pool : list nat) :
  j ∈ pool → NoDup pool →
  list_remove j pool = Returns (filter (λ k, k ≠ j) pool).
Proof.
  induction pool as [|k pool IH]; intros Hin Hnd; [by inversion Hin|].
  apply NoDup_cons in Hnd as [Hk Hnd]. simpl.
  case_bool_decide as Hjk.
  - subst k. rewrite filter_cons_False by naive_solver.
    f_equal. symmetry. apply filter_all.
    apply Forall_forall. intros x Hx ->. done.
  - apply elem_of_cons in Hin as [?|Hin]; [done|].
    rewrite IH by done. simpl.
    by rewrite filter_cons_True by naive_solver.
Qed.

Section PairingRefinement.
Context `{Host}.
Variable chk : ExpectedType → exc → outcome (option string).
Variable E : list ExpectedType.
Variable A : list exc.

(** What checking pattern [i] against error [j] returns, if it returns. *)
Definition pair_result (i j : nat) : option (option string) :=
  e ← E !! i; a ← A !! j;
  match chk e a with
  | Returns res => Some res
  | Raises _ => None
  end.

(** Error [j] satisfies pattern [i]. *)
Definition satisfies (i j : nat) : bool :=
  bool_decide (pair_result i j = Some None).

(** The table holds the result of exactly the pairs in [L]. *)
Definition table_records (T : ResultHolder) (L : list (nat * nat)) : Prop :=
  ∀ i j, i < length E → j < length A →
    cell_at T i j
    = if bool_decide ((i, j) ∈ L) then Checked <$> pair_result i j
      else Some NotChecked.

Hypothesis no_raise :
  ∀ i j, i < length E → j < length A → is_Some (pair_result i j).

Lemma scan_remaining_refines expected i_exp pool T res :
  E !! i_exp = Some expected →
  table_dims T (length A) (length E) →
  Forall (λ j, j < length A) pool →
  ∃ T' res',
    scan_remaining chk expected i_exp A pool T res
    = Returns (T', res', List.find (satisfies i_exp) pool)
    ∧ table_dims T' (length A) (length E)
    ∧ (∀ j, j ∈ tried (satisfies i_exp) pool →
            cell_at T' i_exp j = Checked <$> pair_result i_exp j)
    ∧ (∀ i' j', ¬ (i' = i_exp ∧ j' ∈ tried (satisfies i_exp) pool) →
                cell_at T' i' j' = cell_at T i' j').
Proof.
  intros HE. revert T res.
  induction pool as [|j pool IH]; intros T res Hdims Hpool.
  { exists T, res. split; [done|]. split; [done|].
    split; [by inversion 1|done]. }
  apply Forall_cons in Hpool as [Hj Hpool].
  pose proof (lookup_lt_Some _ _ _ HE) as Hi.
  destruct (lookup_lt_is_Some_2 A j Hj) as [a Ha].
  destruct (no_raise i_exp j Hi Hj) as [x Hx].
  assert (Hchk : chk expected a = Returns x).
  { unfold pair_result in Hx. rewrite HE, Ha in Hx. simpl in Hx.
    destruct (chk expected a); congruence. }
  destruct (set_result_spec T _ _ i_exp j x Hdims Hi Hj)
    as (T1 & Hset & Hdims1 & Hcell & Hother).
  simpl. rewrite Ha, Hchk. simpl. rewrite Hset. simpl.
  unfold satisfies at 1 3 5. rewrite Hx.
  destruct x as [reason|].
  - rewrite bool_decide_eq_false_2 by congruence.
    destruct (IH T1 (Some (Some reason)) Hdims1 Hpool)
      as (T' & res' & Hscan & Hdims' & Htried & Hrest).
    exists T', res'. split; [done|]. split; [done|]. split.
    + intros j' Hj'.
      destruct (decide (j' ∈ tried (satisfies i_exp) pool)) as [Hin|Hnin].
      * by apply Htried.
      * apply elem_of_cons in Hj' as [->|?]; [|done].
        rewrite Hrest by (by intros [_ ?]). by rewrite Hcell, Hx.
    + intros i' j' Hne. rewrite Hrest.
      * apply Hother. intros [-> ->]. apply Hne. split; [done|]. by left.
      * intros [-> Hin]. apply Hne. split; [done|]. by right.
  - rewrite bool_decide_eq_true_2 by done.
    exists T1, (Some None). split; [done|]. split; [done|]. split.
    + intros j' Hj'. apply list_elem_of_singleton in Hj' as ->.
      by rewrite Hcell, Hx.
    + intros i' j' Hne. apply Hother. intros [-> ->]. apply Hne.
      split; [done|]. by left.
Qed.

Lemma pairing_loop_refines expecteds :
  ∀ i_exp st L,
    drop i_exp E = expecteds →
    table_dims (pr_results st) (length A) (length E) →
    table_records (pr_results st) L →
    Forall (λ j, j < length A) (remaining_actual st) →
    NoDup (remaining_actual st) →
    let sp := spec_pairing_from satisfies i_exp (length expecteds)
                (MkSpec (remaining_actual st) (failed_expected st)
                   (matches st) L) in
    ∃ st', pairing_loop chk A i_exp expecteds st = Returns st'
           ∧ remaining_actual st' = sp_pool sp
           ∧ failed_expected st' = sp_failed sp
           ∧ matches st' = sp_claimed sp
           ∧ table_dims (pr_results st') (length A) (length E)
           ∧ table_records (pr_results st') (sp_tried sp).
Proof.
  induction expecteds as [|expected expecteds IH];
    intros i_exp st L Hdrop Hdims Hrec Hpool Hnd.
  { exists st. by split_and!. }
  assert (HE : E !! i_exp = Some expected).
  { rewrite <- (Nat.add_0_r i_exp), <- lookup_drop, Hdrop. done. }
  assert (Hdrop' : drop (S i_exp) E = expecteds).
  { replace (S i_exp) with (i_exp + 1) by lia.
    by rewrite <- drop_drop, Hdrop. }
  destruct (scan_remaining_refines expected i_exp (remaining_actual st)
              (pr_results st) (last_res st) HE Hdims Hpool)
    as (T' & res' & Hscan & Hdims' & Htried & Hrest).
  simpl. rewrite Hscan. simpl.
  assert (Hrec' : table_records T'
            (L ++ ((λ j, (i_exp, j)) <$>
                     tried (satisfies i_exp) (remaining_actual st)))).
  { intros i j Hi Hj.
    destruct (decide (i = i_exp
                      ∧ j ∈ tried (satisfies i_exp) (remaining_actual st)))
      as [[-> Hin]|Hnin].
    - rewrite Htried by done. rewrite bool_decide_eq_true_2; [done|].
      apply elem_of_app. right. apply list_elem_of_fmap. eauto.
    - rewrite Hrest by done. rewrite (Hrec i j Hi Hj).
      erewrite bool_decide_ext; [done|].
      rewrite elem_of_app, list_elem_of_fmap.
      split; [by left|]. intros [?|(j' & [= -> ->] & ?)]; [done|].
      naive_solver. }
  unfold spec_step. cbn [sp_pool sp_failed sp_claimed sp_tried].
  destruct (List.find (satisfies i_exp) (remaining_actual st)) as [j|] eqn:Hfind.
  - apply find_some in Hfind as [Hin%list_elem_of_In Hsat].
    rewrite list_remove_filter by done. simpl.
    match goal with |- context [pairing_loop chk A (S i_exp) expecteds ?st1] =>
      destruct (IH (S i_exp) st1
                  (L ++ ((λ j, (i_exp, j)) <$>
                           tried (satisfies i_exp) (remaining_actual st)))%list)
        as (st' & Hloop & Hst')
    end; simpl; try done.
    + by apply Forall_filter_keep.
    + by apply NoDup_filter.
    + exists st'. split; [done|]. apply Hst'.
  - match goal with |- context [pairing_loop chk A (S i_exp) expecteds ?st1] =>
      destruct (IH (S i_exp) st1
                  (L ++ ((λ j, (i_exp, j)) <$>
                           tried (satisfies i_exp) (remaining_actual st)))%list)
        as (st' & Hloop & Hst')
    end; simpl; try done.
    exists st'. split; [done|]. apply Hst'.
Qed.

(** The pairing loop of [_check_exceptions] returns what the specification
    describes. *)
Lemma greedy_pairing_refines :
  let sp := greedy_expected_first satisfies (length E) (length A) in
  ∃ st, greedy_pairing chk E A = Returns st
        ∧ remaining_actual st = sp_pool sp
        ∧ failed_expected st = sp_failed sp
        ∧ matches st = sp_claimed sp
        ∧ table_records (pr_results st) (sp_tried sp).
Proof.
  destruct (pairing_loop_refines E 0
              (MkPairing (ResultHolder_init E A) (seq 0 (length A)) [] ∅ None)
              []) as (st & Hloop & Hpool & Hfailed & Hclaimed & _ & Hrec);
    simpl.
  - done.
  - apply ResultHolder_init_dims.
  - intros i j Hi Hj. rewrite ResultHolder_init_cell_at by done.
    by rewrite bool_decide_eq_false_2 by inversion 1.
  - apply Forall_forall. intros j Hj%list_elem_of_In%in_seq. lia.
  - apply NoDup_seq.
  - by exists st.
Qed.

End PairingRefinement.

(** *** The verdict of [_check_exceptions] *)

Section Verdict.
Context `{Host}.
Variable chk : ExpectedType → exc → outcome (option string).
Variable exhaustive_check : ResultHolder → outcome bool.

(** One expected exception against one raised exception: either they are
    paired, or [res] holds the reason and nothing is paired. *)
Lemma greedy_pairing_single e a st :
  greedy_pairing chk [e] [a] = Returns st →
  (remaining_actual st = [] ∧ failed_expected st = [])
  ∨ (∃ reason, last_res st = Some (Some reason) ∧ matches st = ∅).
Proof.
  unfold greedy_pairing. simpl.
  destruct (chk e a) as [[reason|]|]; simpl; [| |done].
  - intros [= <-]. right. eauto.
  - intros [= <-]. left. done.
Qed.

Lemma length_1_inv {X} (l : list X) : 1 = length l → ∃ x, l = [x].
Proof. destruct l as [|x [|]]; simpl; intros; try lia. eauto. Qed.

(** [_check_exceptions] returns [True] exactly when the pairing loop ends
    with no raised exception left and no expected exception failed, and
    then leaves [fail_reason] alone; when it returns [False] it has written
    a reason. *)
Lemma _check_exceptions_with_verdict self exc_val actual r0 :
  ((_check_exceptions_with chk exhaustive_check self exc_val actual r0).1
   = Returns true
   ↔ ∃ st, greedy_pairing chk (expected_exceptions self) actual = Returns st
           ∧ remaining_actual st = [] ∧ failed_expected st = [])
  ∧ reports (_check_exceptions_with chk exhaustive_check self exc_val actual r0)
      r0.
Proof.
  unfold _check_exceptions_with. munfold.
  destruct (greedy_pairing chk (expected_exceptions self) actual)
    as [st|err] eqn:Hgreedy; [|split; [|done]; split; [done|]; by intros (?&?&?)].
  assert (Hno : ∀ (res : outcome bool * option string),
            ¬ (remaining_actual st = [] ∧ failed_expected st = []) →
            res.1 ≠ Returns true ∧ reports res r0 →
            (res.1 = Returns true
             ↔ ∃ st', Returns st = Returns st'
                      ∧ remaining_actual st' = [] ∧ failed_expected st' = [])
            ∧ reports res r0).
  { intros res Hne [Hres Hrep]. split; [|done].
    split; [done|]. intros (st' & [= <-] & ? & ?). by destruct Hne. }
  destruct (remaining_actual st) as [|j rem] eqn:Hrem;
    destruct (failed_expected st) as [|i fl] eqn:Hfl; simpl.
  { split; [|done]. split; [|done]. intros _. exists st.
    by rewrite Hrem, Hfl. }
  all: apply Hno; [by rewrite ?Hrem, ?Hfl; intros [? ?]|].
  all: case_bool_decide as Hone; simpl.
  all: try (case_bool_decide as Hlen; simpl).
  all: try (destruct (length_1_inv _ Hone) as [a ->];
            rewrite <- Hone in Hlen;
            destruct (length_1_inv _ Hlen) as [e He]; rewrite He in Hgreedy;
            destruct (greedy_pairing_single _ _ _ Hgreedy)
              as [[? ?]|(reason & -> & Hm)]; [congruence|];
            unfold dict_nonempty; rewrite Hm; simpl; eauto).
  all: repeat first
         [ by (split; [simpl; congruence|simpl; eauto])
         | match goal with
           | |- context [match ?x with _ => _ end] => destruct x
           end; cbn beta iota zeta ].
Qed.

End Verdict.

(** *** What the specification's pairing guarantees *)

Section SpecPairing.
Variable sat : nat → nat → bool.
Variable m : nat.

(** The state after the patterns below [i] have had their turn. *)
Record spec_invariant (i : nat) (st : spec_pairing) : Prop := {
  inv_nodup : NoDup (sp_pool st);
  inv_bound : ∀ j, j ∈ sp_pool st → j < m;
  inv_failed : ∀ i', i' ∈ sp_failed st ↔ i' < i ∧ sp_claimed st !! i' = None;
  inv_claimed : ∀ i' j, sp_claimed st !! i' = Some j →
                  i' < i ∧ j < m ∧ (j ∉ sp_pool st) ∧ sat i' j = true;
  inv_cover : ∀ j, j < m → j ∈ sp_pool st ∨ ∃ i', sp_claimed st !! i' = Some j;
  inv_inj : ∀ i1 i2 j, sp_claimed st !! i1 = Some j →
              sp_claimed st !! i2 = Some j → i1 = i2;
}.

Lemma spec_step_invariant i st :
  spec_invariant i st → spec_invariant (S i) (spec_step sat i st).
Proof.
  intros [Hnd Hb Hf Hc Hcov Hinj]. unfold spec_step.
  assert (Hfresh : sp_claimed st !! i = None).
  { destruct (sp_claimed st !! i) as [j|] eqn:Hi; [|done].
    apply Hc in Hi. lia. }
  destruct (List.find (sat i) (sp_pool st)) as [j|] eqn:Hfind.
  - apply find_some in Hfind as [Hin%list_elem_of_In Hsat].
    split; simpl.
    + by apply NoDup_filter.
    + intros j' [_ ?]%list_elem_of_filter. auto.
    + intros i'. rewrite Hf. destruct (decide (i' = i)) as [->|Hne].
      * rewrite lookup_insert_eq. split; [lia|]. by intros [_ ?].
      * rewrite lookup_insert_ne by done. split; intros [? ?]; split; auto; lia.
    + intros i' j'. destruct (decide (i' = i)) as [->|Hne].
      * rewrite lookup_insert_eq. intros [= <-].
        split; [lia|]. split; [auto|]. split; [|done].
        rewrite list_elem_of_filter. by intros [? _].
      * rewrite lookup_insert_ne by done. intros Hi'.
        destruct (Hc _ _ Hi') as (? & ? & Hnin & ?).
        split; [lia|]. split; [done|]. split; [|done].
        rewrite list_elem_of_filter. by intros [_ ?].
    + intros j' Hj'. destruct (decide (j' = j)) as [->|Hne].
      * right. exists i. by rewrite lookup_insert_eq.
      * destruct (Hcov j' Hj') as [?|[i' Hi']].
        -- left. by apply list_elem_of_filter.
        -- right. exists i'. rewrite lookup_insert_ne; [done|congruence].
    + intros i1 i2 j'.
      destruct (decide (i1 = i)) as [->|Hne1];
        destruct (decide (i2 = i)) as [->|Hne2];
        rewrite ?lookup_insert_eq, ?lookup_insert_ne by done; try done.
      * intros [= <-] Hi2. by destruct (Hc _ _ Hi2) as (_ & _ & ? & _).
      * intros Hi1 [= <-]. by destruct (Hc _ _ Hi1) as (_ & _ & ? & _).
      * apply Hinj.
  - split; simpl; try done.
    + intros i'. rewrite elem_of_app, list_elem_of_singleton, Hf.
      split.
      * intros [[? ?]| ->]; split; auto; lia.
      * intros [Hlt ?]. destruct (decide (i' = i)); [by right|].
        left. split; [lia|done].
    + intros i' j' Hi'. destruct (Hc _ _ Hi') as (? & ? & ? & ?).
      split; [lia|done].
Qed.

Lemma spec_pairing_from_invariant n : ∀ i st,
  spec_invariant i st → spec_invariant (i + n) (spec_pairing_from sat i n st).
Proof.
  induction n as [|n IH]; intros i st Hinv; simpl.
  - by rewrite Nat.add_0_r.
  - replace (i + S n) with (S i + n) by lia.
    by apply IH, spec_step_invariant.
Qed.

Lemma greedy_expected_first_invariant n :
  spec_invariant n (greedy_expected_first sat n m).
Proof.
  apply (spec_pairing_from_invariant n 0). split; simpl.
  - apply NoDup_seq.
  - intros j Hj%list_elem_of_In%in_seq. lia.
  - intros i'. split; [by inversion 1|lia].
  - intros i' j. by rewrite lookup_empty.
  - intros j Hj. left. apply list_elem_of_In, in_seq. lia.
  - intros i1 i2 j. by rewrite lookup_empty.
Qed.

(** Nothing failed and nothing is left exactly when the patterns and the
    errors are perfectly paired. *)
Lemma spec_done_iff_perfect n st :
  spec_invariant n st →
  (sp_failed st = [] ∧ sp_pool st = [])
  ↔ perfect_pairing (sp_claimed st) n m.
Proof.
  intros [Hnd Hb Hf Hc Hcov Hinj]. split.
  - intros [Hfl Hpl]. split; [|split; [|done]].
    + intros i Hi. destruct (sp_claimed st !! i) eqn:Hci; [by eexists|].
      assert (i ∈ sp_failed st) as Hin by (by apply Hf).
      rewrite Hfl in Hin. by inversion Hin.
    + intros j Hj. destruct (Hcov j Hj) as [Hin|[i Hi]].
      * rewrite Hpl in Hin. by inversion Hin.
      * exists i. split; [|done]. by destruct (Hc _ _ Hi).
  - intros (Hall & Hsur & _). split.
    + destruct (sp_failed st) as [|i fl]; [done|].
      assert (i ∈ i :: fl) as [Hi Hn]%Hf by by left.
      destruct (Hall i Hi) as [? ?]. congruence.
    + destruct (sp_pool st) as [|j pl]; [done|].
      assert (j ∈ j :: pl) as Hin by by left.
      destruct (Hsur j (Hb j Hin)) as (i & _ & Hi).
      by destruct (Hc _ _ Hi) as (_ & _ & ? & _).
Qed.

End SpecPairing.

Section PairingTheorem.
Context `{Host}.

(** A type or a [Matcher] is checked without raising. *)
Lemma _check_expected_flat_returns (e : ExpectedType) (a : exc) :
  is_group_pattern e = false → ∃ res, _check_expected e a = Returns res.
Proof.
  destruct e as [t|m|g]; simpl; [by eexists|intros _|done].
  unfold call_method.
  destruct (Matcher_matches_fail_reason m a None) as (b & r & -> & Hr).
  simpl. destruct b; simpl; [by eexists|].
  destruct Hr as [reason ->]. simpl. destruct (startswith_newline reason); by eexists.
Qed.

Lemma flat_patterns_never_raise (E : list ExpectedType) (A : list exc) :
  forallb (λ e, negb (is_group_pattern e)) E = true →
  ∀ i j, i < length E → j < length A →
         is_Some (pair_result _check_expected E A i j).
Proof.
  intros Hflat i j Hi Hj. unfold pair_result.
  destruct (lookup_lt_is_Some_2 E i Hi) as [e He].
  destruct (lookup_lt_is_Some_2 A j Hj) as [a Ha].
  rewrite He, Ha. simpl.
  rewrite forallb_forall in Hflat.
  destruct (_check_expected_flat_returns e a) as [res ->]; [|by eexists].
  apply negb_true_iff, Hflat, list_elem_of_In, list_elem_of_lookup. eauto.
Qed.

(** C1: the pairing of [_check_exceptions] is greedy and expected-first,
    and it succeeds exactly on a perfect pairing.  Whenever checking a
    pattern against an error returns, the pairing loop ends in the state
    the specification describes: the patterns take their turn in declared
    order, each claims the first error of the remaining pool, in original
    order, that satisfies it, and the table holds the result of exactly
    the pairs tried.  [_check_exceptions] returns [True] if and only if no
    pattern failed and no error is left, which is the case if and only if
    the claimed pairs are a bijection between all the patterns and all the
    errors; every claimed pair satisfies its pattern. *)
Theorem pairing_is_greedy_and_perfect (self : RaisesGroup) (exc_val : exc)
    (actual : list exc) (r0 : option string) :
  let E := expected_exceptions self in
  (∀ i j, i < length E → j < length actual →
          is_Some (pair_result _check_expected E actual i j)) →
  let sat := satisfies _check_expected E actual in
  let sp := greedy_expected_first sat (length E) (length actual) in
  ∃ st,
    greedy_pairing _check_expected E actual = Returns st
    ∧ remaining_actual st = sp_pool sp
    ∧ failed_expected st = sp_failed sp
    ∧ matches st = sp_claimed sp
    ∧ table_records _check_expected E actual (pr_results st) (sp_tried sp)
    ∧ ((_check_exceptions self exc_val actual r0).1 = Returns true
       ↔ failed_expected st = [] ∧ remaining_actual st = [])
    ∧ (failed_expected st = [] ∧ remaining_actual st = []
       ↔ perfect_pairing (matches st) (length E) (length actual))
    ∧ (∀ i j, matches st !! i = Some j → sat i j = true).
Proof.
  intros E Hret sat sp.
  destruct (greedy_pairing_refines _check_expected E actual Hret)
    as (st & Hst & Hpool & Hfailed & Hclaimed & Hrec).
  pose proof (greedy_expected_first_invariant sat (length actual) (length E))
    as Hinv.
  exists st. split_and!; try done.
  - unfold _check_exceptions, _check_exceptions_body.
    rewrite (proj1 (_check_exceptions_with_verdict _ _ _ _ _ _)).
    fold E. rewrite Hst. split.
    + intros (st' & [= <-] & ? & ?). done.
    + intros [? ?]. by exists st.
  - rewrite Hfailed, Hpool, Hclaimed. by apply (spec_done_iff_perfect sat).
  - intros i j. rewrite Hclaimed. intros Hij.
    destruct Hinv as [_ _ _ Hc _ _].
    by destruct (Hc _ _ Hij) as (_ & _ & _ & ?).
Qed.

End PairingTheorem.

Lemma pairing_is_greedy_and_perfect_witness :
  let self := MkRaisesGroup [ExpType ValueError_cls; ExpType TypeError_cls]
                false false None None false false in
  let actual := [new_exc TypeError_cls "b"; new_exc ValueError_cls "a"] in
  ∃ st,
    greedy_pairing (@_check_expected demo_host) (expected_exceptions self)
      actual = Returns st
    ∧ matches st = {[0 := 1; 1 := 0]}
    ∧ (@_check_exceptions demo_host self (new_group "g" actual) actual None).1
      = Returns true.
Proof.
  intros self actual.
  destruct (@pairing_is_greedy_and_perfect demo_host self
              (new_group "g" actual) actual None) as (st & Hst & Hrest).
  { by apply flat_patterns_never_raise. }
  exists st. split; [done|].
  destruct Hrest as (Hpool & Hfailed & -> & _ & Hverdict & _).
  split; [by vm_compute|].
  apply Hverdict. by rewrite Hpool, Hfailed.
Defined.

(** ** [possible_match] *)

Lemma try_columns_spec (recurse : nat → outcome bool) (used : gset nat)
    (vals : list cell) :
  ∀ i,
    (∀ c, c ∉ used → ∃ b, recurse c = Returns b) →
    ∃ b, try_columns recurse used i vals = Returns b
         ∧ (b = true
            ↔ ∃ k, vals !! k = Some (Checked None) ∧ ((i + k) ∉ used)
                   ∧ recurse (i + k) = Returns true).
Proof.
  induction vals as [|val vals IH]; intros i Hrec; simpl.
  { exists false. split; [done|]. split; [done|]. by intros (k & ? & _). }
  destruct (IH (S i) Hrec) as (b & Hb & Hiff).
  assert (Hshift : b = true
            ↔ ∃ k, (val :: vals) !! S k = Some (Checked None)
                   ∧ ((i + S k) ∉ used) ∧ recurse (i + S k) = Returns true).
  { rewrite Hiff. split; intros (k & ? & ? & ?); exists k;
      by replace (i + S k) with (S i + k) in * by lia. }
  assert (Hskip : (is_match val = false ∨ i ∈ used
                   ∨ recurse i = Returns false) →
            b = true
            ↔ ∃ k, (val :: vals) !! k = Some (Checked None) ∧ ((i + k) ∉ used)
                   ∧ recurse (i + k) = Returns true).
  { intros Hno. rewrite Hshift. split.
    - intros (k & ?). by exists (S k).
    - intros ([|k] & Hk & Hu & Hr); [|by exists k].
      rewrite Nat.add_0_r in *. simpl in Hk. injection Hk as ->.
      destruct Hno as [?|[?|?]]; [done|done|congruence]. }
  destruct (is_match val) eqn:Hval; simpl; [|exists b; auto].
  case_bool_decide as Hused; simpl; [exists b; auto|].
  destruct (Hrec i Hused) as [found Hfound]. rewrite Hfound. simpl.
  destruct found; [|exists b; auto].
  exists true. split; [done|]. split; [|done]. intros _. exists 0.
  rewrite Nat.add_0_r. split; [|done].
  simpl. by destruct val as [|[|]].
Qed.

(** A pairing of the rows from [row] on with distinct columns outside
    [used], all on cells that hold a match. *)
Definition assignment (T : ResultHolder) (used : gset nat) (row : nat)
    (cols : list nat) : Prop :=
  row + length cols = length (results T)
  ∧ NoDup cols
  ∧ (∀ c, c ∈ cols → c ∉ used)
  ∧ (∀ k c, cols !! k = Some c → cell_at T c (row + k) = Some (Checked None)).

Lemma possible_match_rec_spec (T : ResultHolder) (depth : nat) :
  ∀ used,
    (size used ≤ length (results T))%nat →
    (length (results T) - size used ≤ depth)%nat →
    ∃ b, possible_match_rec depth T used = Returns b
         ∧ (b = true ↔ ∃ cols, assignment T used (size used) cols).
Proof.
  induction depth as [|depth IH]; intros used Hle Hdepth; simpl.
  - rewrite bool_decide_eq_true_2 by lia.
    exists true. split; [done|]. split; [|done]. intros _. exists [].
    split; [simpl; lia|]. split; [constructor|].
    split; [by inversion 1|by intros k c; rewrite lookup_nil].
  - case_bool_decide as Hfull.
    { exists true. split; [done|]. split; [|done]. intros _. exists [].
      split; [simpl; lia|]. split; [constructor|].
      split; [by inversion 1|by intros k c; rewrite lookup_nil]. }
    destruct (lookup_lt_is_Some_2 (results T) (size used)) as [row Hrow];
      [lia|].
    rewrite Hrow.
    assert (Hsize : ∀ c, c ∉ used → size (used ∪ {[c]}) = S (size used)).
    { intros c Hc. rewrite size_union by set_solver.
      rewrite size_singleton. lia. }
    assert (Hrec : ∀ c, c ∉ used →
              ∃ b, possible_match_rec depth T (used ∪ {[c]}) = Returns b
                   ∧ (b = true
                      ↔ ∃ cols, assignment T (used ∪ {[c]}) (S (size used))
                                  cols)).
    { intros c Hc. rewrite <- (Hsize c Hc). apply IH; rewrite Hsize by done; lia. }
    destruct (try_columns_spec
                (λ i, possible_match_rec depth T (used ∪ {[i]})) used row 0)
      as (b & -> & Hiff).
    { intros c Hc. destruct (Hrec c Hc) as (b & ? & _). by exists b. }
    exists b. split; [done|]. rewrite Hiff. simpl. split.
    + intros (c & Hcell & Hc & Hfound).
      destruct (Hrec c Hc) as (b' & Hb' & Hcols).
      rewrite Hfound in Hb'. injection Hb' as <-.
      destruct (proj1 Hcols eq_refl) as (cols & Hlen & Hnd & Hout & Hcells).
      exists (c :: cols). split; [simpl; lia|]. split.
      { constructor; [|done]. intros Hin. apply Hout in Hin. set_solver. }
      split.
      { intros c' [->|Hin]%elem_of_cons; [done|].
        apply Hout in Hin. set_solver. }
      intros [|k] c'; simpl.
      * intros [= <-]. unfold cell_at. by rewrite Nat.add_0_r, Hrow.
      * intros Hk. replace (size used + S k) with (S (size used) + k) by lia.
        by apply Hcells.
    + intros (cols & Hlen & Hnd & Hout & Hcells).
      destruct cols as [|c cols]; [simpl in Hlen; lia|].
      apply NoDup_cons in Hnd as [Hc Hnd].
      assert (Hcu : c ∉ used) by (apply Hout; by left).
      exists c. split.
      { specialize (Hcells 0 c eq_refl). unfold cell_at in Hcells.
        by rewrite Nat.add_0_r, Hrow in Hcells. }
      split; [done|].
      destruct (Hrec c Hcu) as (b' & -> & Hcols).
      f_equal. apply Hcols. exists cols.
      split; [simpl in Hlen; lia|]. split; [done|]. split.
      { intros c' Hin. assert (c' ≠ c) by (by intros ->).
        assert (c' ∉ used) by (apply Hout; by right). set_solver. }
      intros k c' Hk.
      replace (S (size used) + k) with (size used + S k) by lia.
      by apply Hcells.
Qed.

Lemma possible_match_spec (T : ResultHolder) :
  ∃ b, possible_match T = Returns b
       ∧ (b = true ↔ ∃ cols, assignment T ∅ 0 cols).
Proof.
  unfold possible_match.
  destruct (possible_match_rec_spec T (length (results T)) ∅)
    as (b & Hb & Hiff); rewrite ?size_empty; try lia.
  rewrite size_empty in Hiff. by exists b.
Qed.

Section ExhaustiveCheck.
Context `{Host}.

(** Whatever stands in for the exhaustive check, as long as it returns, the
    value returned by [_check_exceptions] is the same. *)
Lemma _check_exceptions_with_any_check chk pm pm' self exc_val actual r0 :
  (∀ T, ∃ b, pm T = Returns b) →
  (∀ T, ∃ b, pm' T = Returns b) →
  (_check_exceptions_with chk pm self exc_val actual r0).1
  = (_check_exceptions_with chk pm' self exc_val actual r0).1.
Proof.
  intros Hpm Hpm'. unfold _check_exceptions_with. munfold.
  repeat first
    [ done
    | match goal with
      | |- context [if bool_decide ?P then pm ?T else _] =>
        destruct (Hpm T) as [? ->]; destruct (Hpm' T) as [? ->];
        destruct (bool_decide P)
      end; cbn beta iota zeta
    | match goal with
      | |- context [match ?x with _ => _ end] => destruct x
      end; cbn beta iota zeta ].
Qed.

(** C3: on any result table, and so on a fully populated one,
    [possible_match] returns a boolean, which is [True] if and only if every
    row (raised exception) can be paired with a column (expected exception)
    of its own whose cell holds a match.  It does not decide the verdict:
    with anything in its place, even something that raises,
    [_check_exceptions] returns [True] in the same cases, so where it is
    consulted the verdict is already [False]; and with anything that returns
    in its place the value returned is the same, only [fail_reason] can
    differ. *)
Theorem possible_match_only_explains (T : ResultHolder) :
  (∃ b, possible_match T = Returns b
        ∧ (b = true
           ↔ ∃ cols : list nat,
               length cols = length (results T)
               ∧ NoDup cols
               ∧ ∀ row col, cols !! row = Some col →
                            cell_at T col row = Some (Checked None)))
  ∧ (∀ chk other self exc_val actual r0,
       (_check_exceptions_with chk other self exc_val actual r0).1
       = Returns true
       ↔ (_check_exceptions_with chk possible_match self exc_val actual r0).1
         = Returns true)
  ∧ (∀ chk other self exc_val actual r0,
       (∀ T', ∃ b, other T' = Returns b) →
       (_check_exceptions_with chk other self exc_val actual r0).1
       = (_check_exceptions_with chk possible_match self exc_val actual r0).1).
Proof.
  pose proof possible_match_spec as Hpm.
  split; [|split].
  - destruct (Hpm T) as (b & Hb & Hiff). exists b. split; [done|].
    rewrite Hiff. split.
    + intros (cols & Hlen & Hnd & _ & Hcells). exists cols.
      split; [simpl in Hlen; lia|]. split; [done|]. intros row col.
      apply Hcells.
    + intros (cols & Hlen & Hnd & Hcells). exists cols.
      split; [simpl; lia|]. split; [done|]. split; [set_solver|].
      intros row col. apply Hcells.
  - intros chk other self exc_val actual r0.
    by rewrite !(proj1 (_check_exceptions_with_verdict _ _ _ _ _ _)).
  - intros chk other self exc_val actual r0 Hother.
    apply _check_exceptions_with_any_check; [done|].
    intros T'. destruct (Hpm T') as (b & ? & _). by exists b.
Qed.

End ExhaustiveCheck.

(** A table on which the greedy pairing fails although a pairing exists:
    the first row matches both columns, the second only the first. *)
Lemma possible_match_only_explains_witness :
  let T := MkResultHolder
             [[Checked None; Checked None];
              [Checked None; Checked (Some "reason")]] in
  possible_match T = Returns true
  ∧ (@_check_exceptions_with demo_host (@_check_expected demo_host)
       (λ _, Returns false)
       (MkRaisesGroup [ExpType ValueError_cls] false false None None
          false false)
       (new_group "g" [new_exc TypeError_cls "t"])
       [new_exc TypeError_cls "t"] None).1
    = Returns false.
Proof.
  intros T. split; [by vm_compute|].
  destruct (@possible_match_only_explains demo_host T) as (_ & _ & Hsame).
  rewrite Hsame; [by vm_compute|]. intros T'. by exists false.
Defined.

(** ** [fail_reason] after [matches] *)

(** [fail_reason] is [None] after [True] and a reason after [False]. *)
Definition settles (res : outcome bool * option string) : Prop :=
  match res with
  | (Returns true, r) => r = None
  | (Returns false, r) => is_Some r
  | (Raises _, _) => True
  end.

Section FailReason.
Context `{Host}.

Lemma RaisesGroup_matches_body_settles chk self exc_val r0 :
  settles (RaisesGroup_matches_body chk self exc_val r0).
Proof.
  unfold RaisesGroup_matches_body, _check_exceptions_body. munfold.
  destruct exc_val as [exc_val|]; [|by simpl; eauto].
  destruct (negb (isinstance exc_val BaseExceptionGroup)).
  { unfold is_none.
    repeat first [ by simpl; eauto | destruct_innermost; cbn beta iota zeta delta [negb] ]. }
  pose proof (_check_match_reports (match_expr self) exc_val None) as Hmatch.
  destruct (_check_match (match_expr self) exc_val None) as [[[]|] rm];
    simpl in Hmatch; cbn beta iota zeta delta [negb]; [subst rm| |done].
  - match goal with
    | |- context [_check_exceptions_with ?c ?p ?s ?v ?a None] =>
      pose proof (proj2 (_check_exceptions_with_verdict c p s v a None))
        as Hpair;
      destruct (_check_exceptions_with c p s v a None) as [[[]|] rp];
      simpl in Hpair; cbn beta iota zeta delta [negb]; [subst rp| |done]
    end.
    + pose proof (_check_check_reports (check self) exc_val (_nested self) None)
        as Hcheck.
      by destruct (_check_check _ _ _ _) as [[[]|] rc].
    + destruct Hpair as [reason ->]. simpl.
      repeat first
        [ by simpl; eauto | destruct_innermost; cbn beta iota zeta delta [negb] ].
  - destruct Hmatch as [reason ->].
    repeat first
      [ by simpl; eauto
      | match goal with
        | |- context [_check_match ?p ?e ?s] =>
          let Hm := fresh "Hm" in
          pose proof (_check_match_reports p e s) as Hm;
          destruct (_check_match p e s) as [[[]|] ?]; simpl in Hm;
          try subst
        end; cbn beta iota zeta delta [negb]
      | destruct_innermost; cbn beta iota zeta delta [negb] ].
Qed.

(** C10: after [Matcher.matches], which always returns, and after
    [RaisesGroup.matches], whenever it returns, the attribute
    [fail_reason] is [None] if the call returned [True] and a string if it
    returned [False], whatever it held before the call. *)
Theorem fail_reason_after_matches :
  (∀ (m : Matcher) e r0,
     ∃ b r, Matcher_matches m e r0 = (Returns b, r)
            ∧ if b then r = None else is_Some r)
  ∧ (∀ (g : RaisesGroup) exc_val r0 b r,
       RaisesGroup_matches g exc_val r0 = (Returns b, r) →
       if b then r = None else is_Some r).
Proof.
  split; [apply Matcher_matches_fail_reason|].
  intros g exc_val r0 b r Hres.
  pose proof (RaisesGroup_matches_body_settles _check_expected g exc_val r0)
    as Hs.
  unfold RaisesGroup_matches in Hres. rewrite Hres in Hs. by destruct b.
Qed.

End FailReason.

(** A successful call clears the reason a failing call left. *)
Lemma fail_reason_after_matches_witness :
  let g := MkRaisesGroup [ExpType ValueError_cls] false false None None
             false false in
  ∃ stale,
    @RaisesGroup_matches demo_host g
      (Some (new_group "g" [new_exc TypeError_cls "t"])) None
    = (Returns false, Some stale)
    ∧ @RaisesGroup_matches demo_host g
        (Some (new_group "g" [new_exc ValueError_cls "v"])) (Some stale)
      = (Returns true, None).
Proof.
  intros g.
  destruct (@RaisesGroup_matches demo_host g
              (Some (new_group "g" [new_exc TypeError_cls "t"])) None)
    as [[[]|] r] eqn:Hfirst; try by vm_compute in Hfirst.
  pose proof (proj2 (@fail_reason_after_matches demo_host) _ _ _ _ _ Hfirst)
    as [stale ->].
  exists stale. split; [done|].
  destruct (@RaisesGroup_matches demo_host g
              (Some (new_group "g" [new_exc ValueError_cls "v"]))
              (Some stale)) as [[[]|] r] eqn:Hsecond;
    by vm_compute in Hsecond.
Defined.

(** ** [allow_unwrapped] *)

Section AllowUnwrapped.
Context `{Host}.

(** One expected exception against one raised exception. *)
Lemma _check_exceptions_with_single chk pm self exc_val expected e res r0 :
  expected_exceptions self = [expected] →
  chk expected e = Returns res →
  _check_exceptions_with chk pm self exc_val [e] r0
  = if is_none res then (Returns true, r0) else (Returns false, res).
Proof.
  intros Hexp Hres. unfold _check_exceptions_with, greedy_pairing.
  rewrite Hexp. munfold. simpl. rewrite Hres. simpl.
  destruct res as [reason|]; simpl; [|done].
  unfold dict_nonempty. by rewrite bool_decide_eq_true_2 by done.
Qed.

(** C6: a group built with [allow_unwrapped=True] from one pattern, a type
    or a [Matcher], accepts a lone exception that is not a group exactly
    when the group built from the same pattern without the option accepts
    a group whose only member is that exception; both calls return. *)
Theorem allow_unwrapped_as_wrapped (P : pyobj) (e g : exc)
    (unwrapping plain : RaisesGroup) (r0 r0' : option string) :
  isinstance e BaseExceptionGroup = false →
  isinstance g BaseExceptionGroup = true →
  exc_exceptions g = [e] →
  RaisesGroup_init P [] true false None None = Returns unwrapping →
  RaisesGroup_init P [] false false None None = Returns plain →
  ∃ verdict,
    (RaisesGroup_matches unwrapping (Some e) r0).1 = Returns verdict
    ∧ (RaisesGroup_matches plain (Some g) r0').1 = Returns verdict.
Proof.
  intros He Hg Hmembers Hinit_u Hinit_p.
  assert (∃ expected is_base,
            is_group_pattern expected = false
            ∧ unwrapping = MkRaisesGroup [expected] true false None None
                             is_base false
            ∧ plain = MkRaisesGroup [expected] false false None None
                        is_base false) as (expected & is_base & Hflat & -> & ->).
  { unfold RaisesGroup_init in *. simpl in *.
    destruct P as [c|m|?|?]; simpl in *; try done.
    - destruct (issubclass c BaseException); [|done].
      injection Hinit_u as <-. injection Hinit_p as <-.
      by exists (ExpType c), (negb (issubclass c Exception)).
    - injection Hinit_u as <-. injection Hinit_p as <-.
      by eexists (ExpMatcher m), _. }
  destruct (_check_expected_flat_returns expected e Hflat) as [res Hres].
  exists (is_none res). split.
  - unfold RaisesGroup_matches, RaisesGroup_matches_body. munfold. simpl.
    rewrite He. simpl. rewrite Hres. simpl. destruct res; reflexivity.
  - unfold RaisesGroup_matches, RaisesGroup_matches_body,
      _check_exceptions_body. munfold. simpl.
    rewrite Hg, Hmembers. simpl.
    rewrite (_check_exceptions_with_single _ _ _ _ expected e res) by done.
    destruct res as [reason|]; simpl; [|done].
    by rewrite He, andb_false_r.
Qed.

End AllowUnwrapped.

Lemma allow_unwrapped_as_wrapped_witness :
  let P := ObjMatcher (MkMatcher (Some ValueError_cls)
                         (Some (literal_pattern "hello")) None) in
  let e := new_exc ValueError_cls "hello world" in
  ∃ unwrapping plain,
    @RaisesGroup_init demo_host P [] true false None None = Returns unwrapping
    ∧ @RaisesGroup_init demo_host P [] false false None None = Returns plain
    ∧ (@RaisesGroup_matches demo_host unwrapping (Some e) None).1
      = Returns true
    ∧ (@RaisesGroup_matches demo_host plain (Some (new_group "g" [e])) None).1
      = Returns true.
Proof.
  intros P e. eexists _, _. split; [reflexivity|]. split; [reflexivity|].
  destruct (@allow_unwrapped_as_wrapped demo_host P e (new_group "g" [e])
              _ _ None None eq_refl eq_refl eq_refl eq_refl eq_refl)
    as (verdict & Hu & Hp).
  rewrite Hp. split; [by vm_compute|]. rewrite <- Hu. by vm_compute.
Defined.

(** ** The greedy limitation *)

Section GreedyLimitation.
Context `{Host}.

(** Two patterns against two errors, where the first pattern accepts both
    errors and the second only the first error: the first pattern claims
    the first error and the second pattern is left without a match. *)
Lemma _check_exceptions_with_steals chk pm self exc_val E0 E1 a0 a1
    c reason r0 :
  expected_exceptions self = [E0; E1] →
  chk E0 a0 = Returns None →
  chk E0 a1 = Returns None →
  chk E1 a0 = Returns None →
  chk E1 a1 = Returns (Some (String c reason)) →
  (∀ T, ∃ b, pm T = Returns b) →
  ∃ st text,
    greedy_pairing chk [E0; E1] [a0; a1] = Returns st
    ∧ matches st = {[0 := 0]}
    ∧ failed_expected st = [1]
    ∧ remaining_actual st = [1]
    ∧ _check_exceptions_with chk pm self exc_val [a0; a1] r0
      = (Returns false, Some text).
Proof.
  intros Hexp H00 H01 H10 H11 Hpm.
  destruct (Hpm (MkResultHolder
                   [[Checked None; Checked None];
                    [Checked None; Checked (Some (String c reason))]]))
    as [b Hb].
  unfold _check_exceptions_with. rewrite Hexp.
  unfold greedy_pairing. simpl. rewrite H00. simpl. rewrite H11. simpl.
  eexists _, _. split; [reflexivity|]. simpl.
  split; [by rewrite insert_empty|]. split; [done|]. split; [done|].
  munfold. simpl. rewrite H01, H10. simpl.
  unfold dict_nonempty.
  rewrite (bool_decide_eq_false_2 (<[0:=0]> ∅ = ∅))
    by apply insert_non_empty.
  simpl.
  assert (rev_matches_of (<[0:=0]> ∅) !! 0 = Some 0) as -> by by vm_compute.
  rewrite lookup_insert_eq. simpl.
  rewrite Hb. reflexivity.
Qed.

(** C2: with the expected patterns [ValueError] and
    [Matcher(ValueError, match="hello")] and a group holding
    [ValueError("hello")] and [ValueError("goodbye")] in that order,
    [RaisesGroup.matches] returns [False]: the first pattern claims the
    [hello] error and the second finds no match in what is left, although
    pairing the first pattern with the [goodbye] error and the second with
    the [hello] error satisfies both.  The regular expression [hello] is
    any compiled pattern that finds a match in [hello] and none in
    [goodbye]. *)
Theorem greedy_pairing_misses_assignment (hello : Pattern)
    (matcher : Matcher) (rg : RaisesGroup) (r0 : option string) :
  let e_hello := new_exc ValueError_cls "hello" in
  let e_goodbye := new_exc ValueError_cls "goodbye" in
  let g := new_group EmptyString [e_hello; e_goodbye] in
  re_compile "hello" = Returns hello →
  search hello "hello" = true →
  search hello "goodbye" = false →
  Matcher_init (Some ValueError_cls) (Some (MatchStr "hello")) None
  = Returns matcher →
  RaisesGroup_init (ObjType ValueError_cls) [ObjMatcher matcher] false false
    None None = Returns rg →
  (RaisesGroup_matches rg (Some g) r0).1 = Returns false
  ∧ (∃ st, greedy_pairing _check_expected (expected_exceptions rg)
             [e_hello; e_goodbye] = Returns st
           ∧ matches st = {[0 := 0]}
           ∧ failed_expected st = [1]
           ∧ remaining_actual st = [1])
  ∧ _check_expected (ExpType ValueError_cls) e_goodbye = Returns None
  ∧ _check_expected (ExpMatcher matcher) e_hello = Returns None.
Proof.
  intros e_hello e_goodbye g Hcompile Hhello Hgoodbye Hm Hrg.
  unfold Matcher_init in Hm. simpl in Hm. rewrite Hcompile in Hm.
  injection Hm as <-.
  unfold RaisesGroup_init in Hrg. simpl in Hrg. injection Hrg as <-.
  set (matcher := MkMatcher (Some ValueError_cls) (Some hello) None).
  assert (H00 : _check_expected (ExpType ValueError_cls) e_hello
                = Returns None) by by vm_compute.
  assert (H01 : _check_expected (ExpType ValueError_cls) e_goodbye
                = Returns None) by by vm_compute.
  assert (H10 : _check_expected (ExpMatcher matcher) e_hello = Returns None).
  { simpl. unfold call_method. rewrite Matcher_matches_eq.
    simpl. change (join newline ["hello"]) with "hello". by rewrite Hhello. }
  assert (H11 : ∃ c reason,
            _check_expected (ExpMatcher matcher) e_goodbye
            = Returns (Some (String c reason))).
  { simpl. unfold call_method. rewrite Matcher_matches_eq.
    simpl. change (join newline ["goodbye"]) with "goodbye". rewrite Hgoodbye.
    simpl. unfold Matcher_repr. rewrite !app_String. by eexists _, _. }
  destruct H11 as (c & reason & H11).
  destruct (_check_exceptions_with_steals _check_expected possible_match
              (MkRaisesGroup [ExpType ValueError_cls; ExpMatcher matcher]
                 false false None None false false)
              g _ _ e_hello e_goodbye c reason None eq_refl H00 H01 H10 H11)
    as (st & text & Hst & Hmatches & Hfailed & Hremaining & Hverdict).
  { intros T. destruct (possible_match_spec T) as (b & ? & _). by exists b. }
  split; [|split; [by exists st|done]].
  unfold RaisesGroup_matches, RaisesGroup_matches_body, _check_exceptions_body.
  munfold. simpl. by rewrite Hverdict.
Qed.

End GreedyLimitation.

(** With the concrete host, the whole report of the scenario. *)
Lemma greedy_pairing_misses_assignment_witness :
  ∃ matcher rg,
    @Matcher_init demo_host (Some ValueError_cls) (Some (MatchStr "hello"))
      None = Returns matcher
    ∧ @RaisesGroup_init demo_host (ObjType ValueError_cls)
        [ObjMatcher matcher] false false None None = Returns rg
    ∧ (@RaisesGroup_matches demo_host rg
         (Some (new_group EmptyString
                  [new_exc ValueError_cls "hello";
                   new_exc ValueError_cls "goodbye"])) None).1
      = Returns false.
Proof.
  set (matcher := MkMatcher (Some ValueError_cls)
                    (Some (literal_pattern "hello")) None).
  set (rg := MkRaisesGroup [ExpType ValueError_cls; ExpMatcher matcher]
               false false None None false false).
  exists matcher, rg. split; [reflexivity|]. split; [reflexivity|].
  apply (@greedy_pairing_misses_assignment demo_host
           (literal_pattern "hello") matcher rg None); reflexivity.
Defined.

(** ** The report of the general case *)

(** C9, the code on a failing input: [RaisesGroup(TypeError, ValueError)]
    against a group of two [ValueError]s.  [TypeError] finds no match and
    [ValueError] claims the first error.  The report should list
    [TypeError] as failed, without any error it would match, and the
    second [ValueError] as unmatched; instead the loop over the failed
    patterns looks the results up under the stale index of the last
    pattern, [ValueError], takes the unmatched second error for one that
    pattern was paired with, and raises [KeyError]. *)
Theorem report_of_failed_patterns_raises_KeyError :
  @RaisesGroup_matches demo_host
    (MkRaisesGroup [ExpType TypeError_cls; ExpType ValueError_cls]
       false false None None false false)
    (Some (new_group EmptyString
             [new_exc ValueError_cls EmptyString;
              new_exc ValueError_cls EmptyString]))
    None
  = (Raises (KeyError 1), None).
Proof. by vm_compute. Qed.

(** The same defect where the lookup happens to succeed: the failed
    patterns [Matcher(ValueError, match='x')] and
    [Matcher(ValueError, match='y')] are both reported as matching the
    [TypeError], which neither of them matches; it is the last pattern,
    [TypeError], that matches it. *)
Lemma report_of_failed_patterns_names_wrong_pattern :
  let mx := MkMatcher (Some ValueError_cls) (Some (literal_pattern "x")) None in
  let my := MkMatcher (Some ValueError_cls) (Some (literal_pattern "y")) None in
  let t := new_exc TypeError_cls "t" in
  @RaisesGroup_matches demo_host
    (MkRaisesGroup [ExpMatcher mx; ExpMatcher my; ExpType TypeError_cls]
       false false None None false false)
    (Some (new_group EmptyString
             [t; new_exc ValueError_cls "a"; new_exc ValueError_cls "b"]))
    None
  = (Returns false,
     Some "
1 matched exception. 
The following expected exceptions did not find a match:
  Matcher(ValueError, match='x')
    It matches TypeError('t') which was paired with 'TypeError'
  Matcher(ValueError, match='y')
    It matches TypeError('t') which was paired with 'TypeError'
The following raised exceptions did not find a match
  ValueError('a'):
    Matcher(ValueError, match='x'): Regex pattern 'x' did not match 'a'
    Matcher(ValueError, match='y'): Regex pattern 'y' did not match 'a'
  ValueError('b'):
    Matcher(ValueError, match='x'): Regex pattern 'x' did not match 'b'
    Matcher(ValueError, match='y'): Regex pattern 'y' did not match 'b'")
  ∧ @_check_expected demo_host (ExpMatcher mx) t
    = Returns (Some "Matcher(ValueError, match='x'): 'TypeError' is not of type 'ValueError'")
  ∧ @_check_expected demo_host (ExpMatcher my) t
    = Returns (Some "Matcher(ValueError, match='y'): 'TypeError' is not of type 'ValueError'").
Proof. by vm_compute. Qed.

(** ** Order independence for patterns that are types *)

Lemma length_filter_remove (j : nat) (pool : list nat) :
  NoDup pool → j ∈ pool →
  S (length (filter (λ k, k ≠ j) pool)) = length pool.
Proof.
  induction pool as [|k pool IH]; intros Hnd Hin; [by inversion Hin|].
  apply NoDup_cons in Hnd as [Hk Hnd].
  destruct (decide (k = j)) as [->|Hne].
  - rewrite filter_cons_False by (by intros ?). simpl. f_equal.
    f_equal. apply filter_all, Forall_forall. by intros x Hx ->.
  - rewrite filter_cons_True by done. simpl. f_equal. apply IH; [done|].
    apply elem_of_cons in Hin as [?|?]; [congruence|done].
Qed.

Section DisjointPatterns.
Variable sat : nat → nat → bool.

(** When no error of the pool satisfies two of the patterns still to come,
    the greedy pairing ends with nothing failed and nothing left exactly
    when there are as many errors in the pool as patterns to come and every
    such pattern is satisfied by some error of the pool. *)
Lemma spec_pairing_from_disjoint n : ∀ i st,
  NoDup (sp_pool st) →
  (∀ j i1 i2, j ∈ sp_pool st → i ≤ i1 < i + n → i ≤ i2 < i + n → i1 ≠ i2 →
              ¬ (sat i1 j = true ∧ sat i2 j = true)) →
  let sp := spec_pairing_from sat i n st in
  (sp_failed sp = [] ∧ sp_pool sp = [])
  ↔ (sp_failed st = [] ∧ length (sp_pool st) = n
     ∧ ∀ i', i ≤ i' < i + n → ∃ j, j ∈ sp_pool st ∧ sat i' j = true).
Proof.
  induction n as [|n IH]; intros i st Hnd Hdis; simpl.
  { split.
    - intros [-> ->]. split; [done|]. split; [done|]. intros; lia.
    - intros (-> & Hlen & _). split; [done|]. by apply nil_length_inv. }
  unfold spec_step at 1 2.
  destruct (List.find (sat i) (sp_pool st)) as [j|] eqn:Hfind.
  - apply find_some in Hfind as [Hin%list_elem_of_In Hsat].
    rewrite IH; simpl.
    + rewrite <- (length_filter_remove j (sp_pool st)) by done.
      split; intros (Hf & Hlen & Hall); (split; [done|]); (split; [lia|]).
      * intros i' Hi'. destruct (decide (i' = i)) as [->|Hne]; [by exists j|].
        destruct (Hall i') as (j' & [_ ?]%list_elem_of_filter & ?); [lia|].
        by exists j'.
      * intros i' Hi'. destruct (Hall i') as (j' & Hj' & Hsat'); [lia|].
        exists j'. split; [|done]. apply list_elem_of_filter. split; [|done].
        intros ->. apply (Hdis j i i'); try done; lia.
    + by apply NoDup_filter.
    + intros j' i1 i2 [_ Hj']%list_elem_of_filter ? ? ?.
      apply Hdis; try done; lia.
  - rewrite IH; simpl; [|done|by intros; apply Hdis; try done; lia].
    split.
    + intros (Hf & _). by destruct (sp_failed st).
    + intros (_ & _ & Hall). destruct (Hall i) as (j & Hj & Hsat); [lia|].
      apply list_elem_of_In in Hj.
      by rewrite (find_none _ _ Hfind j Hj) in Hsat.
Qed.

End DisjointPatterns.

(** The exceptions the pairing runs on: the members of the group, flattened
    when the [RaisesGroup] asks for it. *)
Definition paired_exceptions (rg : RaisesGroup) (g : exc) : list exc :=
  if flatten_subgroups rg then _unroll_exceptions (exc_exceptions g)
  else exc_exceptions g.

Lemma _unroll_exceptions_Permutation (es es' : list exc) :
  es ≡ₚ es' → _unroll_exceptions es ≡ₚ _unroll_exceptions es'.
Proof.
  unfold _unroll_exceptions.
  induction 1 as [|e es es' _ IH|e1 e2 es|es1 es2 es3 _ IH1 _ IH2]; simpl.
  - done.
  - by rewrite IH.
  - rewrite !(assoc_L (++)). f_equiv. apply Permutation_app_comm.
  - by etrans.
Qed.

Section OrderIndependence.
Context `{Host}.

Lemma _check_match_true_iff match_expr e r0 :
  (_check_match match_expr e r0).1 = Returns true
  ↔ match match_expr with
    | Some p => search p (_stringify_exception e) = true
    | None => True
    end.
Proof.
  unfold _check_match, re_search. destruct match_expr as [p|]; [|done].
  destruct (search p _); [done|]. munfold. simpl.
  by destruct (str_or_Pattern_eq _ _).
Qed.

Lemma _check_check_true_iff check e suppress_repr r0 :
  (_check_check check e suppress_repr r0).1 = Returns true
  ↔ match check with
    | Some c => call c e = true
    | None => True
    end.
Proof.
  unfold _check_check. destruct check as [c|]; [|done].
  by destruct (call c e).
Qed.

(** [matches] accepts a group exactly when the group passes [match], the
    pairing succeeds and the group passes [check]. *)
Lemma RaisesGroup_matches_true_iff rg g r0 :
  isinstance g BaseExceptionGroup = true →
  (RaisesGroup_matches rg (Some g) r0).1 = Returns true
  ↔ (_check_match (match_expr rg) g None).1 = Returns true
    ∧ (_check_exceptions rg g (paired_exceptions rg g) None).1 = Returns true
    ∧ (_check_check (check rg) g (_nested rg) None).1 = Returns true.
Proof.
  intros Hg.
  unfold RaisesGroup_matches, RaisesGroup_matches_body, _check_exceptions,
    _check_exceptions_body, paired_exceptions.
  munfold. rewrite Hg. cbn beta iota zeta delta [negb].
  pose proof (_check_match_reports (match_expr rg) g None) as Hmatch.
  destruct (_check_match (match_expr rg) g None) as [[[]|] rm];
    simpl in Hmatch; cbn beta iota zeta delta [negb fst].
  - subst rm.
    match goal with
    | |- context [_check_exceptions_with ?c ?p ?s ?v ?a None] =>
      pose proof (proj2 (_check_exceptions_with_verdict c p s v a None))
        as Hpair;
      destruct (_check_exceptions_with c p s v a None) as [[[]|] rp];
      simpl in Hpair; cbn beta iota zeta delta [negb fst]
    end.
    + subst rp. unfold ret. naive_solver.
    + split; [|by intros (_ & ? & _)].
      repeat first
        [ by simpl | destruct_innermost; cbn beta iota zeta delta [negb] ].
    + split; [done|by intros (_ & ? & _)].
  - split; [|by intros [? _]].
    repeat first
      [ by simpl
      | match goal with
        | |- context [_check_match ?p ?e ?s] =>
          destruct (_check_match p e s) as [[[]|] ?]
        end; cbn beta iota zeta delta [negb]
      | destruct_innermost; cbn beta iota zeta delta [negb] ].
  - split; [done|by intros [? _]].
Qed.

Lemma _check_raw_type_None t a :
  _check_raw_type (Some t) a = None ↔ isinstance a t = true.
Proof.
  unfold _check_raw_type. destruct (isinstance a t); simpl; [done|].
  split; [|done]. by destruct (isinstance a BaseExceptionGroup).
Qed.

Lemma satisfies_type (ts : list pyclass) (A : list exc) i j t a :
  ts !! i = Some t → A !! j = Some a →
  satisfies _check_expected (ExpType <$> ts) A i j = isinstance a t.
Proof.
  intros Ht Ha. unfold satisfies, pair_result.
  rewrite list_lookup_fmap, Ht, Ha. cbn [fmap option_fmap option_map mbind
    option_bind _check_expected].
  pose proof (_check_raw_type_None t a) as Hiff.
  destruct (isinstance a t).
  - apply bool_decide_eq_true_2. f_equal. by apply Hiff.
  - apply bool_decide_eq_false_2. intros [= Hnone].
    by apply Hiff in Hnone.
Qed.

(** With types that no error is an instance of twice, the pairing succeeds
    exactly when there are as many errors as types and every type has an
    instance among the errors. *)
Lemma _check_exceptions_types_iff self exc_val (ts : list pyclass)
    (A : list exc) r0 :
  expected_exceptions self = ExpType <$> ts →
  NoDup ts →
  (∀ a t t', a ∈ A → t ∈ ts → t' ∈ ts → t ≠ t' →
             ¬ (isinstance a t = true ∧ isinstance a t' = true)) →
  (_check_exceptions self exc_val A r0).1 = Returns true
  ↔ length ts = length A
    ∧ ∀ t, t ∈ ts → ∃ a, a ∈ A ∧ isinstance a t = true.
Proof.
  intros Hexp Hnd Hdis.
  unfold _check_exceptions, _check_exceptions_body.
  rewrite (proj1 (_check_exceptions_with_verdict _ _ _ _ _ _)), Hexp.
  destruct (greedy_pairing_refines _check_expected (ExpType <$> ts) A)
    as (st & Hst & Hpool & Hfailed & _).
  { apply flat_patterns_never_raise, forallb_forall.
    by intros e (t & -> & _)%list_elem_of_In%list_elem_of_fmap. }
  rewrite Hst.
  assert ((∃ st', Returns st = Returns st' ∧ remaining_actual st' = []
                  ∧ failed_expected st' = [])
          ↔ failed_expected st = [] ∧ remaining_actual st = []) as ->.
  { split; [by intros (? & [= <-] & ? & ?)|]. intros [? ?]. by exists st. }
  rewrite Hfailed, Hpool. unfold greedy_expected_first.
  rewrite spec_pairing_from_disjoint; simpl.
  - rewrite length_fmap, length_seq. split.
    + intros (_ & Hlen & Hall). split; [done|].
      intros t [i Hi]%list_elem_of_lookup.
      destruct (Hall i) as (j & Hj%list_elem_of_In%in_seq & Hsat).
      { apply lookup_lt_Some in Hi. lia. }
      destruct (lookup_lt_is_Some_2 A j) as [a Ha]; [lia|].
      exists a. split; [by eapply list_elem_of_lookup_2|].
      by rewrite <- (satisfies_type ts A i j).
    + intros [Hlen Hall]. split; [done|]. split; [done|].
      intros i Hi.
      destruct (lookup_lt_is_Some_2 ts i) as [t Ht]; [lia|].
      destruct (Hall t) as (a & [j Hj]%list_elem_of_lookup & Hinst).
      { by eapply list_elem_of_lookup_2. }
      exists j. split.
      * apply list_elem_of_In, in_seq. apply lookup_lt_Some in Hj. lia.
      * by rewrite (satisfies_type ts A i j t a).
  - apply NoDup_seq.
  - intros j i1 i2 Hj%list_elem_of_In%in_seq Hi1 Hi2 Hne [Hs1 Hs2].
    rewrite length_fmap in Hi1, Hi2.
    destruct (lookup_lt_is_Some_2 ts i1) as [t1 Ht1]; [lia|].
    destruct (lookup_lt_is_Some_2 ts i2) as [t2 Ht2]; [lia|].
    destruct (lookup_lt_is_Some_2 A j) as [a Ha]; [lia|].
    rewrite (satisfies_type ts A i1 j t1 a) in Hs1 by done.
    rewrite (satisfies_type ts A i2 j t2 a) in Hs2 by done.
    apply (Hdis a t1 t2);
      [by eapply list_elem_of_lookup_2|by eapply list_elem_of_lookup_2
      |by eapply list_elem_of_lookup_2| |done].
    intros <-. apply Hne. by eapply NoDup_lookup.
Qed.

End OrderIndependence.

(** The same [RaisesGroup] expecting [es]. *)
Definition with_expected (rg : RaisesGroup) (es : list ExpectedType)
  : RaisesGroup :=
  MkRaisesGroup es (allow_unwrapped rg) (flatten_subgroups rg) (match_expr rg)
    (check rg) (is_baseexceptiongroup rg) (_nested rg).

(** The same exception group holding [members]. *)
Definition with_members (g : exc) (members : list exc) : exc :=
  Exc (exc_type g) (exc_message g) (exc_notes g) members.

Section OrderIndependenceTheorem.
Context `{Host}.

(** C7, as amended: for a [RaisesGroup] whose expected exceptions are types
    without duplicates, and a group none of whose paired errors is an
    instance of two of these types, [matches] returns [True] on the group
    if and only if it returns [True] after the expected types and the
    members of the group have both been reordered; a [check] on the group,
    if there is one, is to give the same answer on the group and on the
    reordered group. *)
Theorem type_patterns_order_independent (rg : RaisesGroup)
    (ts ts' : list pyclass) (g : exc) (members' : list exc)
    (r0 r0' : option string) :
  let rg' := with_expected rg (ExpType <$> ts') in
  let g' := with_members g members' in
  expected_exceptions rg = ExpType <$> ts →
  ts ≡ₚ ts' →
  exc_exceptions g ≡ₚ members' →
  isinstance g BaseExceptionGroup = true →
  NoDup ts →
  (∀ a t t', a ∈ paired_exceptions rg g → t ∈ ts → t' ∈ ts → t ≠ t' →
             ¬ (isinstance a t = true ∧ isinstance a t' = true)) →
  (∀ c, check rg = Some c → call c g = call c g') →
  (RaisesGroup_matches rg (Some g) r0).1 = Returns true
  ↔ (RaisesGroup_matches rg' (Some g') r0').1 = Returns true.
Proof.
  intros rg' g' Hexp Hts Hmembers Hg Hnd Hdis Hcheck.
  assert (Hpaired : paired_exceptions rg g ≡ₚ paired_exceptions rg' g').
  { unfold paired_exceptions. simpl. destruct (flatten_subgroups rg); [|done].
    by apply _unroll_exceptions_Permutation. }
  rewrite !RaisesGroup_matches_true_iff by done.
  rewrite !_check_match_true_iff, !_check_check_true_iff.
  rewrite (_check_exceptions_types_iff rg g ts) by done.
  rewrite (_check_exceptions_types_iff rg' g' ts'); [|done|by rewrite <- Hts|].
  - assert (Hsame : (∀ t, t ∈ ts → ∃ a, a ∈ paired_exceptions rg g
                                       ∧ isinstance a t = true)
                    ↔ (∀ t, t ∈ ts' → ∃ a, a ∈ paired_exceptions rg' g'
                                           ∧ isinstance a t = true)).
    { split; intros Hall t Ht.
      - destruct (Hall t) as (a & Ha & ?); [by rewrite Hts|].
        exists a. by rewrite <- Hpaired.
      - destruct (Hall t) as (a & Ha & ?); [by rewrite <- Hts|].
        exists a. by rewrite Hpaired. }
    rewrite Hsame, Hts, Hpaired. simpl.
    destruct (check rg) as [c|] eqn:Hc; [|done].
    by rewrite (Hcheck c eq_refl).
  - intros a t t'. rewrite <- Hpaired, <- !Hts. apply Hdis.
Qed.

End OrderIndependenceTheorem.

Global Instance pyclass_eq_dec : EqDecision pyclass.
Proof. solve_decision. Defined.

Lemma type_patterns_order_independent_witness :
  let rg := MkRaisesGroup [ExpType ValueError_cls; ExpType TypeError_cls]
              false false None None false false in
  let members := [new_exc TypeError_cls "t"; new_exc ValueError_cls "v"] in
  (@RaisesGroup_matches demo_host rg (Some (new_group "g" members)) None).1
  = Returns true
  ∧ (@RaisesGroup_matches demo_host
       (with_expected rg [ExpType TypeError_cls; ExpType ValueError_cls])
       (Some (new_group "g" (reverse members))) None).1
    = Returns true.
Proof.
  intros rg members.
  assert (Hfirst : (@RaisesGroup_matches demo_host rg
                      (Some (new_group "g" members)) None).1 = Returns true)
    by by vm_compute.
  split; [done|].
  apply (@type_patterns_order_independent demo_host rg
           [ValueError_cls; TypeError_cls] [TypeError_cls; ValueError_cls]
           (new_group "g" members) (reverse members) None None);
    try done.
  - apply perm_swap.
  - apply perm_swap.
  - apply NoDup_cons. split; [|apply NoDup_singleton].
    by intros ?%list_elem_of_singleton.
  - intros a t t' Ha Ht Ht' Hne [Hi Hi'].
    apply elem_of_cons in Ht as [->|Ht%list_elem_of_singleton];
      apply elem_of_cons in Ht' as [->|Ht'%list_elem_of_singleton];
      subst; try done;
      apply elem_of_cons in Ha as [->|Ha%list_elem_of_singleton];
      subst; by vm_compute in Hi, Hi'.
Defined.

(** C7, the claim as stated fails.  The types [A] and [B] are distinct and
    neither is a subclass of the other; [C] inherits from both.  Against
    the group of a [C] and an [A], [RaisesGroup(A, B)] lets [A] claim the
    [C] and finds nothing for [B]; [RaisesGroup(B, A)] pairs [B] with the
    [C] and [A] with the [A]. *)
Lemma unrelated_types_order_dependent :
  let bases := ["Exception"; "BaseException"; "object"] in
  let A := PyClass "A" bases in
  let B := PyClass "B" bases in
  let C := PyClass "C" ("A" :: "B" :: bases) in
  let g := new_group "g" [new_exc C "c"; new_exc A "a"] in
  let rg := MkRaisesGroup [ExpType A; ExpType B] false false None None
              false false in
  A ≠ B
  ∧ issubclass A B = false
  ∧ issubclass B A = false
  ∧ (@RaisesGroup_matches demo_host rg (Some g) None).1 = Returns false
  ∧ (@RaisesGroup_matches demo_host
       (with_expected rg [ExpType B; ExpType A]) (Some g) None).1
    = Returns true.
Proof. by vm_compute. Qed.

(** Why the amended statement asks what it asks.  A [check] may look at the
    order of the members: the check below wants a [ValueError] first, and
    the verdict follows the order of the group. *)
Lemma check_may_depend_on_member_order :
  let first_is_ValueError :=
    PyCallable
      (λ g, match exc_exceptions g with
            | e :: _ => isinstance e ValueError_cls
            | [] => false
            end)
      "<lambda>" in
  let rg := MkRaisesGroup [ExpType ValueError_cls; ExpType TypeError_cls]
              false false None (Some first_is_ValueError) false false in
  let v := new_exc ValueError_cls "v" in
  let t := new_exc TypeError_cls "t" in
  (@RaisesGroup_matches demo_host rg (Some (new_group "g" [v; t])) None).1
  = Returns true
  ∧ (@RaisesGroup_matches demo_host rg (Some (new_group "g" [t; v])) None).1
    = Returns false.
Proof. by vm_compute. Qed.

(** And a match that fails may return [False] in one order of the expected
    types and raise in the other, through the report of the failed
    patterns. *)
Lemma failing_match_may_raise_in_one_order :
  let rg := MkRaisesGroup [ExpType ValueError_cls; ExpType TypeError_cls]
              false false None None false false in
  let g := new_group EmptyString
             [new_exc ValueError_cls EmptyString;
              new_exc ValueError_cls EmptyString] in
  (@RaisesGroup_matches demo_host rg (Some g) None).1 = Returns false
  ∧ (@RaisesGroup_matches demo_host
       (with_expected rg [ExpType TypeError_cls; ExpType ValueError_cls])
       (Some g) None).1
    = Raises (KeyError 1).
Proof. by vm_compute. Qed.

(** * Further properties of the module *)

(** ** [_unroll_exceptions] *)

(** Induction on an exception and, with it, on the members of a group. *)
Section exc_induction.
Variable P : exc → Prop.
Hypothesis step : ∀ t msg notes members,
  Forall P members → P (Exc t msg notes members).

Fixpoint exc_nested_ind (e : exc) : P e :=
  match e with
  | Exc t msg notes members =>
    step t msg notes members
      ((fix all (es : list exc) : Forall P es :=
          match es with
          | [] => @List.Forall_nil _ P
          | e :: es => @List.Forall_cons _ P e es (exc_nested_ind e) (all es)
          end) members)
  end.
End exc_induction.

(** An exception that is not a group. *)
Definition is_leaf (e : exc) : Prop := isinstance e BaseExceptionGroup = false.

Lemma unroll_exception_eq (e : exc) :
  unroll_exception e
  = if isinstance e BaseExceptionGroup
    then _unroll_exceptions (exc_exceptions e) else [e].
Proof.
  destruct e as [t msg notes members]. simpl.
  destruct (isinstance _ _); [|done].
  unfold _unroll_exceptions. induction members as [|e es IH]; [done|].
  simpl. by rewrite IH.
Qed.

Lemma _unroll_exceptions_cons (e : exc) (es : list exc) :
  _unroll_exceptions (e :: es)
  = (unroll_exception e ++ _unroll_exceptions es)%list.
Proof. done. Qed.

Lemma unroll_exception_leaves (e : exc) : Forall is_leaf (unroll_exception e).
Proof.
  induction e as [t msg notes members IH] using exc_nested_ind.
  rewrite unroll_exception_eq.
  destruct (isinstance _ _) eqn:Hgroup;
    [clear Hgroup|by constructor; [exact Hgroup|constructor]].
  simpl. induction IH as [|e es He _ IHes]; [constructor|].
  rewrite _unroll_exceptions_cons. by apply Forall_app.
Qed.

Lemma _unroll_exceptions_leaves (es : list exc) :
  Forall is_leaf (_unroll_exceptions es).
Proof.
  induction es as [|e es IH]; [constructor|].
  rewrite _unroll_exceptions_cons. apply Forall_app.
  split; [apply unroll_exception_leaves|done].
Qed.

Lemma _unroll_exceptions_flat (es : list exc) :
  Forall is_leaf es → _unroll_exceptions es = es.
Proof.
  induction 1 as [|e es He _ IH]; [done|].
  rewrite _unroll_exceptions_cons, unroll_exception_eq, He, IH. done.
Qed.

(** X1: flattening leaves no exception group behind, does nothing to a
    list that holds none, and doing it twice is doing it once. *)
Theorem _unroll_exceptions_idempotent (es : list exc) :
  Forall is_leaf (_unroll_exceptions es)
  ∧ (Forall is_leaf es → _unroll_exceptions es = es)
  ∧ _unroll_exceptions (_unroll_exceptions es) = _unroll_exceptions es.
Proof.
  split; [apply _unroll_exceptions_leaves|].
  split; [apply _unroll_exceptions_flat|].
  apply _unroll_exceptions_flat, _unroll_exceptions_leaves.
Qed.

Lemma _unroll_exceptions_idempotent_witness :
  let v := new_exc ValueError_cls "v" in
  _unroll_exceptions [v; v] = [v; v].
Proof.
  intros v. destruct (_unroll_exceptions_idempotent [v; v]) as (_ & Hflat & _).
  apply Hflat. by repeat constructor.
Defined.

(** X2: flattening keeps the members that are not groups in their order
    and puts the flattened members of a group in the place of the group. *)
Theorem _unroll_exceptions_in_place (es1 es2 : list exc) (g : exc) :
  isinstance g BaseExceptionGroup = true →
  _unroll_exceptions (es1 ++ g :: es2)
  = (_unroll_exceptions es1 ++ _unroll_exceptions (exc_exceptions g)
     ++ _unroll_exceptions es2)%list.
Proof.
  intros Hg. induction es1 as [|e es1 IH]; simpl.
  - by rewrite _unroll_exceptions_cons, unroll_exception_eq, Hg.
  - rewrite !_unroll_exceptions_cons, IH. by rewrite (assoc_L (++)).
Qed.

Lemma _unroll_exceptions_in_place_witness :
  let v := new_exc ValueError_cls "v" in
  let t := new_exc TypeError_cls "t" in
  _unroll_exceptions [v; new_group "inner" [t; new_group "deep" [v]]; t]
  = [v; t; v; t].
Proof.
  intros v t.
  exact (_unroll_exceptions_in_place [v]
           [t] (new_group "inner" [t; new_group "deep" [v]]) eq_refl).
Defined.

(** ** [ResultHolder] *)

Lemma get_result_cell_at T i j :
  get_result T i j
  = match cell_at T i j with
    | Some (Checked res) => Returns res
    | Some NotChecked => Raises (AssertionError EmptyString)
    | None => Raises IndexError
    end.
Proof.
  unfold get_result. rewrite get_cell_cell_at.
  by destruct (cell_at T i j) as [[|]|].
Qed.

Lemma has_result_cell_at T i j :
  has_result T i j
  = match cell_at T i j with
    | Some (Checked _) => Returns true
    | Some NotChecked => Returns false
    | None => Raises IndexError
    end.
Proof.
  unfold has_result. rewrite get_cell_cell_at.
  by destruct (cell_at T i j) as [[|]|].
Qed.

Lemma cell_at_out_of_range T m n i j :
  table_dims T m n → ¬ (i < n ∧ j < m) → cell_at T i j = None.
Proof.
  intros [Hm Hn] Hout. unfold cell_at.
  destruct (results T !! j) as [row|] eqn:Hrow; [simpl|done].
  apply lookup_ge_None. rewrite Forall_lookup in Hn.
  rewrite (Hn _ _ Hrow). apply lookup_lt_Some in Hrow. lia.
Qed.

(** X3: a result stored with [set_result] at a cell of the table is what
    [get_result] reads there and [has_result] reports it; the table keeps
    its size and every other cell reads as before. *)
Theorem set_result_then_get_result (T : ResultHolder) (m n i j : nat)
    (res : option string) :
  table_dims T m n → i < n → j < m →
  ∃ T', set_result T i j res = Returns T'
        ∧ table_dims T' m n
        ∧ get_result T' i j = Returns res
        ∧ has_result T' i j = Returns true
        ∧ ∀ i' j', ¬ (i' = i ∧ j' = j) →
                   get_result T' i' j' = get_result T i' j'
                   ∧ has_result T' i' j' = has_result T i' j'.
Proof.
  intros Hdims Hi Hj.
  destruct (set_result_spec T m n i j res Hdims Hi Hj)
    as (T' & Hset & Hdims' & Hcell & Hother).
  exists T'. split; [done|]. split; [done|].
  rewrite get_result_cell_at, has_result_cell_at, Hcell.
  split; [done|]. split; [done|]. intros i' j' Hne.
  by rewrite !get_result_cell_at, !has_result_cell_at, (Hother i' j' Hne).
Qed.

Lemma set_result_then_get_result_witness :
  ∃ T', set_result (ResultHolder_init [1; 2] [new_exc ValueError_cls "v"])
          1 0 (Some "reason") = Returns T'
        ∧ get_result T' 1 0 = Returns (Some "reason")
        ∧ has_result T' 0 0 = Returns false.
Proof.
  destruct (set_result_then_get_result
              (ResultHolder_init [1; 2] [new_exc ValueError_cls "v"])
              1 2 1 0 (Some "reason"))
    as (T' & Hset & _ & Hget & _ & Hother);
    [apply (ResultHolder_init_dims [1; 2])|lia|lia|].
  exists T'. split; [done|]. split; [done|].
  rewrite (proj2 (Hother 0 0 ltac:(lia))). reflexivity.
Defined.

(** X4: in the table that [ResultHolder] starts with no cell has a result:
    [has_result] says so and [get_result] fails its assertion; outside the
    table [set_result], [get_result] and [has_result] raise [IndexError]. *)
Theorem ResultHolder_fresh_and_bounds {E} (expected : list E)
    (actual : list exc) (i j : nat) (res : option string) :
  let T := ResultHolder_init expected actual in
  (i < length expected → j < length actual →
   has_result T i j = Returns false
   ∧ get_result T i j = Raises (AssertionError EmptyString))
  ∧ (¬ (i < length expected ∧ j < length actual) →
     set_result T i j res = Raises IndexError
     ∧ get_result T i j = Raises IndexError
     ∧ has_result T i j = Raises IndexError).
Proof.
  intros T. split.
  - intros Hi Hj. rewrite has_result_cell_at, get_result_cell_at.
    unfold T. by rewrite ResultHolder_init_cell_at.
  - intros Hout.
    pose proof (ResultHolder_init_dims expected actual) as Hdims.
    rewrite has_result_cell_at, get_result_cell_at.
    rewrite (cell_at_out_of_range T _ _ i j Hdims Hout).
    split; [|done]. unfold set_result.
    destruct (results T !! j) as [row|] eqn:Hrow; [|done].
    destruct Hdims as [Hm Hn]. rewrite Forall_lookup in Hn.
    rewrite (Hn _ _ Hrow). apply lookup_lt_Some in Hrow.
    rewrite bool_decide_eq_false_2; [done|]. fold T in Hm. lia.
Qed.

Lemma ResultHolder_fresh_and_bounds_witness :
  let T := ResultHolder_init [1; 2] [new_exc ValueError_cls "v"] in
  get_result T 1 0 = Raises (AssertionError EmptyString)
  ∧ set_result T 0 1 None = Raises IndexError.
Proof.
  intros T.
  split.
  - apply (ResultHolder_fresh_and_bounds [1; 2] [new_exc ValueError_cls "v"]
             1 0 None); simpl; lia.
  - apply (ResultHolder_fresh_and_bounds [1; 2] [new_exc ValueError_cls "v"]
             0 1 None). simpl. lia.
Defined.

(** The cells of row [j] all hold a result. *)
Definition row_checked (T : ResultHolder) (j : nat) : Prop :=
  ∃ row, results T !! j = Some row ∧ Forall (λ c, c ≠ NotChecked) row.

(** The cells of column [i] all hold a result. *)
Definition column_checked (T : ResultHolder) (i : nat) : Prop :=
  Forall (λ row, ∃ c, row !! i = Some c ∧ c ≠ NotChecked) (results T).

Lemma no_match_in_row_spec (row : list cell) :
  Forall (λ c, c ≠ NotChecked) row →
  ∃ b, no_match_in_row row = Returns b
       ∧ (b = false ↔ Checked None ∈ row).
Proof.
  induction 1 as [|c row Hc _ (b & Hb & Hiff)]; simpl.
  { exists true. split; [done|]. split; [done|by inversion 1]. }
  destruct c as [|[reason|]]; [done| |].
  - exists b. split; [done|]. rewrite Hiff. split; [by right|].
    by intros [[=]|?]%elem_of_cons.
  - exists false. split; [done|]. split; [by left|done].
Qed.

Lemma no_match_in_column_spec (i : nat) (rows : list (list cell)) :
  Forall (λ row, ∃ c, row !! i = Some c ∧ c ≠ NotChecked) rows →
  ∃ b, no_match_in_column i rows = Returns b
       ∧ (b = false ↔ ∃ row, row ∈ rows ∧ row !! i = Some (Checked None)).
Proof.
  induction 1 as [|row rows (c & Hc & Hne) _ (b & Hb & Hiff)]; simpl.
  { exists true. split; [done|]. split; [done|].
    intros (row & Hin & _). by inversion Hin. }
  rewrite Hc. destruct c as [|[reason|]]; [done| |].
  - exists b. split; [done|]. rewrite Hiff. split.
    + intros (row' & ? & ?). exists row'. split; [by right|done].
    + intros (row' & [->|?]%elem_of_cons & Hrow'); [congruence|].
      by exists row'.
  - exists false. split; [done|]. split; [|done]. intros _.
    exists row. split; [by left|done].
Qed.

Lemma no_match_for_actual_spec (T : ResultHolder) (idx : list nat) :
  Forall (row_checked T) idx →
  ∃ b, no_match_for_actual T idx = Returns b
       ∧ (b = false
          ↔ ∃ j row, j ∈ idx ∧ results T !! j = Some row
                     ∧ Checked None ∈ row).
Proof.
  induction 1 as [|j idx (row & Hrow & Hall) _ (b & Hb & Hiff)]; simpl.
  { exists true. split; [done|]. split; [done|].
    intros (j & row & Hin & _). by inversion Hin. }
  rewrite Hrow.
  destruct (no_match_in_row_spec row Hall) as (b0 & -> & Hiff0). simpl.
  destruct b0.
  + exists b. split; [done|]. rewrite Hiff. split.
    * intros (j' & row' & ? & ? & ?). exists j', row'.
      split; [by right|done].
    * intros (j' & row' & [->|?]%elem_of_cons & Hrow' & Hin).
      -- rewrite Hrow in Hrow'. injection Hrow' as <-.
         by apply Hiff0 in Hin.
      -- by exists j', row'.
  + exists false. split; [done|]. split; [|done]. intros _.
    exists j, row. split; [by left|]. split; [done|]. by apply Hiff0.
Qed.

Lemma no_match_for_expected_spec (T : ResultHolder) (idx : list nat) :
  Forall (column_checked T) idx →
  ∃ b, no_match_for_expected T idx = Returns b
       ∧ (b = false
          ↔ ∃ i row, i ∈ idx ∧ row ∈ results T
                     ∧ row !! i = Some (Checked None)).
Proof.
  induction 1 as [|i idx Hcol _ (b & Hb & Hiff)]; simpl.
  { exists true. split; [done|]. split; [done|].
    intros (i & row & Hin & _). by inversion Hin. }
  destruct (no_match_in_column_spec i (results T) Hcol)
    as (b0 & -> & Hiff0). simpl.
  destruct b0.
  + exists b. split; [done|]. rewrite Hiff. split.
    * intros (i' & row' & ? & ? & ?). exists i', row'.
      split; [by right|done].
    * intros (i' & row' & [->|?]%elem_of_cons & Hin & Hrow').
      -- assert (true = false) by (apply Hiff0; by exists row'). done.
      -- by exists i', row'.
  + exists false. split; [done|]. split; [|done]. intros _.
    destruct (proj1 Hiff0 eq_refl) as (row & ? & ?).
    exists i, row. split; [by left|done].
Qed.

(** X5: on rows whose cells all hold a result, [no_match_for_actual]
    returns, and it returns [False] exactly when one of the rows holds a
    match; on columns whose cells all hold a result, so does
    [no_match_for_expected] for the columns.  Both return [True] for the
    empty list. *)
Theorem no_match_for_reads_the_table (T : ResultHolder) (idx : list nat) :
  (Forall (row_checked T) idx →
   ∃ b, no_match_for_actual T idx = Returns b
        ∧ (b = false
           ↔ ∃ j row, j ∈ idx ∧ results T !! j = Some row
                      ∧ Checked None ∈ row))
  ∧ (Forall (column_checked T) idx →
     ∃ b, no_match_for_expected T idx = Returns b
          ∧ (b = false
             ↔ ∃ i row, i ∈ idx ∧ row ∈ results T
                        ∧ row !! i = Some (Checked None)))
  ∧ no_match_for_actual T [] = Returns true
  ∧ no_match_for_expected T [] = Returns true.
Proof.
  split; [apply no_match_for_actual_spec|].
  split; [apply no_match_for_expected_spec|done].
Qed.

Lemma no_match_for_reads_the_table_witness :
  let T := MkResultHolder
             [[Checked (Some "a"); Checked None];
              [Checked (Some "b"); Checked (Some "c")]] in
  no_match_for_actual T [1] = Returns true
  ∧ no_match_for_expected T [0; 1] = Returns false.
Proof.
  intros T.
  destruct (no_match_for_reads_the_table T [1]) as ((b & Hb & Hiff) & _).
  { repeat constructor. eexists. split; [reflexivity|].
    by repeat constructor. }
  destruct (no_match_for_reads_the_table T [0; 1])
    as (_ & (b' & Hb' & Hiff') & _).
  { repeat constructor; eexists; (split; [reflexivity|done]). }
  split.
  - rewrite Hb. by vm_compute in Hb.
  - rewrite Hb'. by vm_compute in Hb'.
Defined.

(** ** [Matcher] *)

Section MatcherVerdict.
Context `{Host}.






(** X7: [Matcher(...)] raises exactly when no parameter is given, when the
    type given is not an exception class, or when the pattern string does
    not compile; otherwise the object holds the type and the predicate as
    given and the pattern compiled, or as given when it was compiled
    already. *)
Theorem Matcher_init_returns_iff (t : option pyclass)
    (m : option match_arg) (c : option py_callable) :
  (raises (Matcher_init t m c)
   ↔ (t = None ∧ m = None ∧ c = None)
     ∨ (∃ T, t = Some T ∧ issubclass T BaseException = false)
     ∨ (∃ s, m = Some (MatchStr s) ∧ raises (re_compile s)))
  ∧ (∀ self, Matcher_init t m c = Returns self →
       exception_type self = t ∧ m_check self = c
       ∧ match m with
         | None => m_match self = None
         | Some (MatchPattern p) => m_match self = Some p
         | Some (MatchStr s) =>
           ∃ p, re_compile s = Returns p ∧ m_match self = Some p
         end).
Proof.
  unfold Matcher_init, compile_match.
  destruct t as [T|]; simpl.
  - destruct (issubclass T BaseException) eqn:HT; simpl.
    + destruct m as [[s|p]|]; simpl.
      * destruct (re_compile s) as [p|err] eqn:Hs; simpl.
        -- split; [|intros ? [= <-]; eauto].
           split; [done|]. intros [(? & _)|[(? & [= <-] & ?)|(? & [= <-] & ?)]];
             [done|congruence|by rewrite Hs in *].
        -- split; [|done]. split; [|done]. intros _. right. right.
           exists s. by rewrite Hs.
      * split; [|by intros ? [= <-]].
        split; [done|]. intros [(? & _)|[(? & [= <-] & ?)|(? & ? & _)]];
          [done|congruence|done].
      * split; [|by intros ? [= <-]].
        split; [done|]. intros [(? & _)|[(? & [= <-] & ?)|(? & ? & _)]];
          [done|congruence|done].
    + split; [|done]. split; [|done]. intros _. right. left. by exists T.
  - destruct m as [[s|p]|]; simpl.
    + destruct (re_compile s) as [p|err] eqn:Hs; simpl.
      * split; [|intros ? [= <-]; eauto].
        split; [done|]. intros [(_ & ? & _)|[(? & ? & _)|(? & [= <-] & ?)]];
          [done|done|by rewrite Hs in *].
      * split; [|done]. split; [|done]. intros _. right. right.
        exists s. by rewrite Hs.
    + split; [|by intros ? [= <-]].
      split; [done|]. intros [(_ & ? & _)|[(? & ? & _)|(? & ? & _)]]; done.
    + destruct c as [c|]; simpl.
      * split; [|by intros ? [= <-]].
        split; [done|]. intros [(_ & _ & ?)|[(? & ? & _)|(? & ? & _)]]; done.
      * split; [|done]. split; [|done]. intros _. by left.
Qed.

End MatcherVerdict.


Lemma Matcher_init_returns_iff_witness :
  exception_type (MkMatcher (Some ValueError_cls) (Some (literal_pattern "v")) None)
  = Some ValueError_cls.
Proof.
  apply (@Matcher_init_returns_iff demo_host (Some ValueError_cls)
           (Some (MatchStr "v")) None).
  reflexivity.
Defined.

(** ** [RaisesGroup.__init__] *)

(** How [__init__] stores an argument: types and matchers as given, a
    nested group with [_nested] set. *)
Definition stored_as (o : pyobj) (e : ExpectedType) : Prop :=
  match o, e with
  | ObjType c, ExpType c' => c' = c ∧ issubclass c BaseException = true
  | ObjMatcher m, ExpMatcher m' => m' = m
  | ObjRaisesGroup g, ExpGroup g' => g' = set__nested g true
  | _, _ => False
  end.

(** The patterns that make the expected group a [BaseExceptionGroup]: a type
    that is not a subclass of [Exception], alone or in a [Matcher], and a
    nested group that is one itself. *)
Definition base_only (e : ExpectedType) : bool :=
  match e with
  | ExpType c => negb (issubclass c Exception)
  | ExpMatcher m =>
    from_option (λ t, negb (issubclass t Exception)) false (exception_type m)
  | ExpGroup g => is_baseexceptiongroup g
  end.

Section ConstructionComplete.
Context `{Host}.

Lemma verify_expected_spec flatten excs is_base :
  match verify_expected flatten excs is_base with
  | Returns (stored, b) =>
    Forall2 stored_as excs stored
    ∧ b = is_base || existsb base_only stored
    ∧ (flatten = true → Forall (λ o, is_RaisesGroup o = false) excs)
  | Raises _ =>
    (flatten = true ∧ ∃ g, ObjRaisesGroup g ∈ excs)
    ∨ ∃ o, o ∈ excs ∧ invalid_argument o
  end.
Proof.
  revert is_base. induction excs as [|o excs IH]; intros is_base.
  { simpl. split; [constructor|]. split; [by rewrite orb_false_r|].
    by constructor. }
  assert (∀ b, match verify_expected flatten excs b with
               | Returns _ => True
               | Raises _ =>
                 (flatten = true ∧ ∃ g, ObjRaisesGroup g ∈ o :: excs)
                 ∨ ∃ o', o' ∈ o :: excs ∧ invalid_argument o'
               end) as Hraise.
  { intros b. specialize (IH b).
    destruct (verify_expected flatten excs b) as [[]|]; [done|].
    destruct IH as [(? & g & ?)|(o' & ? & ?)].
    - left. split; [done|]. exists g. by right.
    - right. exists o'. split; [by right|done]. }
  destruct o as [c|m|g|r]; simpl.
  - destruct (issubclass c BaseException) eqn:Hc.
    + specialize (IH (is_base || negb (issubclass c Exception))).
      specialize (Hraise (is_base || negb (issubclass c Exception))).
      destruct (verify_expected _ _ _) as [[stored b]|]; [simpl|done].
      destruct IH as (Hst & -> & Hfl). split; [by constructor|].
      split; [by rewrite orb_assoc|]. intros ?. constructor; auto.
    + right. exists (ObjType c). split; [by left|done].
  - match goal with |- context [verify_expected flatten excs ?b] =>
      specialize (IH b); specialize (Hraise b);
      destruct (verify_expected flatten excs b) as [[stored b']|];
        [simpl|done]
    end.
    destruct IH as (Hst & -> & Hfl). split; [by constructor|].
    split; [|intros ?; constructor; auto].
    destruct (exception_type m); simpl; [by rewrite orb_assoc|done].
  - destruct flatten.
    + left. split; [done|]. exists g. by left.
    + specialize (IH (is_base || is_baseexceptiongroup g)).
      specialize (Hraise (is_base || is_baseexceptiongroup g)).
      destruct (verify_expected _ _ _) as [[stored b]|]; [simpl|done].
      destruct IH as (Hst & -> & Hfl). split; [by constructor|].
      split; [by rewrite orb_assoc|done].
  - right. exists (ObjOther r). split; [by left|done].
Qed.

(** X8: the object that [RaisesGroup(...)] builds holds the flags and the
    predicate as given, is not marked as nested, and holds the expected
    exceptions in the order given, the nested groups marked as nested;
    [is_baseexceptiongroup] says whether one of them is a type outside
    [Exception] or a group that is a [BaseExceptionGroup].  With
    [allow_unwrapped] it has exactly one expected exception, which is not a
    group, and neither [match] nor [check]; with [flatten_subgroups] no
    expected exception is a group. *)
Theorem RaisesGroup_init_builds (exception : pyobj) (other : list pyobj)
    (allow flatten : bool) (match_ : option match_arg)
    (check_ : option py_callable) (self : RaisesGroup) :
  RaisesGroup_init exception other allow flatten match_ check_ = Returns self →
  allow_unwrapped self = allow ∧ flatten_subgroups self = flatten
  ∧ check self = check_ ∧ _nested self = false
  ∧ compile_match match_ = Returns (match_expr self)
  ∧ Forall2 stored_as (exception :: other) (expected_exceptions self)
  ∧ is_baseexceptiongroup self = existsb base_only (expected_exceptions self)
  ∧ (allow = true →
     (∃ e, expected_exceptions self = [e] ∧ ∀ g, e ≠ ExpGroup g)
     ∧ match_expr self = None ∧ check self = None)
  ∧ (flatten = true → ∀ g, ExpGroup g ∉ expected_exceptions self).
Proof.
  assert (∀ stored,
    Forall2 stored_as (exception :: other) stored →
    (flatten = true →
     Forall (λ o, is_RaisesGroup o = false) (exception :: other)) →
    flatten = true → ∀ g, ExpGroup g ∉ stored) as Hflat.
  { intros stored Hst Hfl Hflatten g Hin. apply Forall2_flip in Hst.
    destruct (proj1 (list_elem_of_lookup _ _) Hin) as [i Hi].
    destruct (Forall2_lookup_l _ _ _ _ _ Hst Hi) as (o & Ho & Hso).
    specialize (Hfl Hflatten). rewrite Forall_lookup in Hfl.
    specialize (Hfl _ _ Ho). by destruct o. }
  unfold RaisesGroup_init.
  destruct (compile_match match_) as [p|] eqn:Hp; [cbn [obind]|done].
  pose proof (verify_expected_spec flatten (exception :: other) false) as Hv.
  destruct allow; cbn [andb].
  - case_bool_decide as Hother; [cbn [negb]|done].
    destruct (is_RaisesGroup exception) eqn:Hgroup; [done|].
    destruct match_ as [?|]; [done|]. destruct check_ as [?|]; [done|].
    cbn [is_none negb orb].
    destruct (verify_expected _ _ _) as [[stored b]|]; [|done].
    intros [= <-]. cbn. destruct Hv as (Hst & -> & Hfl).
    injection Hp as <-. split_and!; try done; [|by apply Hflat].
    intros _. split; [|done]. subst other.
    apply Forall2_cons_inv_l in Hst as (e & rest & He & Hrest & ->).
    apply Forall2_nil_inv_l in Hrest as ->. exists e. split; [done|].
    intros g ->. by destruct exception.
  - destruct (verify_expected _ _ _) as [[stored b]|]; [|done].
    intros [= <-]. cbn. destruct Hv as (Hst & -> & Hfl).
    split_and!; try done. by apply Hflat.
Qed.

(** X9: [RaisesGroup(...)] raises in no other case than these: the pattern
    string does not compile; [allow_unwrapped] comes with a second expected
    exception, a group, a [match] or a [check]; [flatten_subgroups] comes
    with a group; an argument is none of an exception type, a [Matcher] or
    a [RaisesGroup]. *)
Theorem RaisesGroup_init_raises_iff (exception : pyobj) (other : list pyobj)
    (allow flatten : bool) (match_ : option match_arg)
    (check_ : option py_callable) :
  raises (RaisesGroup_init exception other allow flatten match_ check_)
  ↔ (∃ s, match_ = Some (MatchStr s) ∧ raises (re_compile s))
    ∨ (allow = true
       ∧ (other ≠ [] ∨ is_RaisesGroup exception = true
          ∨ is_Some match_ ∨ is_Some check_))
    ∨ (flatten = true ∧ ∃ g, ObjRaisesGroup g ∈ exception :: other)
    ∨ (∃ o, o ∈ exception :: other ∧ invalid_argument o).
Proof.
  split.
  - unfold RaisesGroup_init.
    destruct (compile_match match_) as [p|] eqn:Hp; cbn [obind].
    + pose proof (verify_expected_spec flatten (exception :: other) false)
        as Hv.
      destruct allow; cbn [andb].
      * case_bool_decide as Hother; cbn [negb]; [|by intros _; right; left; auto].
        destruct (is_RaisesGroup exception) eqn:Hgroup;
          [by intros _; right; left; auto|].
        destruct match_ as [?|]; [by intros _; right; left; eauto 6|].
        destruct check_ as [?|]; [by intros _; right; left; eauto 6|].
        cbn [is_none negb orb].
        destruct (verify_expected _ _ _) as [[stored b]|]; [done|].
        intros _. right. right. destruct Hv as [?|?]; auto.
      * destruct (verify_expected _ _ _) as [[stored b]|]; [done|].
        intros _. right. right. destruct Hv as [?|?]; auto.
    + intros _. left. unfold compile_match in Hp.
      destruct match_ as [[s|?]|]; [|done..]. exists s. split; [done|].
      by destruct (re_compile s).
  - intros [(s & -> & Hs)|[(-> & Hallow)|[(-> & g & Hg)|(o & Ho & Hbad)]]].
    + unfold RaisesGroup_init, compile_match.
      by destruct (re_compile s).
    + unfold RaisesGroup_init.
      destruct (compile_match match_); [cbn [obind andb]|done].
      case_bool_decide as Hother; cbn [negb]; [|done].
      destruct (is_RaisesGroup exception); [done|].
      destruct Hallow as [?|[?|[[? ->]|[? ->]]]]; [done|done|done|].
      by destruct (is_none match_).
    + pose proof (verify_expected_nested true (exception :: other)
                    false g Hg eq_refl) as Hr.
      unfold RaisesGroup_init.
      destruct (compile_match match_); [cbn [obind]|done].
      destruct (verify_expected _ _ _) as [[]|]; [done|].
      by repeat case_match.
    + pose proof (verify_expected_invalid flatten (exception :: other)
                    false o Ho Hbad) as Hr.
      unfold RaisesGroup_init.
      destruct (compile_match match_); [cbn [obind]|done].
      destruct (verify_expected _ _ _) as [[]|]; [done|].
      by repeat case_match.
Qed.

End ConstructionComplete.

Lemma RaisesGroup_init_builds_witness :
  ∃ self,
    @RaisesGroup_init demo_host (ObjType ValueError_cls) [] true false
      None None = Returns self
    ∧ (∃ e, expected_exceptions self = [e] ∧ ∀ g, e ≠ ExpGroup g).
Proof.
  eexists. split; [reflexivity|].
  eapply (@RaisesGroup_init_builds demo_host (ObjType ValueError_cls) []
            true false None None); reflexivity.
Defined.

Lemma RaisesGroup_init_raises_iff_witness :
  raises (@RaisesGroup_init demo_host (ObjType ValueError_cls)
            [ObjMatcher (MkMatcher (Some TypeError_cls) None None)]
            true false None None).
Proof.
  apply RaisesGroup_init_raises_iff. right. left. split; [done|]. by left.
Defined.

(** ** What a [True] from [matches] guarantees *)

Section PairingSound.
Context `{Host}.
Variable chk : ExpectedType → exc → outcome (option string).
Variable E : list ExpectedType.
Variable A : list exc.

(** Error [j] was checked against pattern [i] and passed. *)
Definition passed (i j : nat) : Prop :=
  ∃ e a, E !! i = Some e ∧ A !! j = Some a ∧ chk e a = Returns None.

(** What holds of the locals of the pairing loop before the turn of
    pattern [i_exp], whatever the checks return or raise. *)
Definition pairing_sound (i_exp : nat) (st : pairing) : Prop :=
  NoDup (remaining_actual st)
  ∧ Forall (λ j, j < length A) (remaining_actual st)
  ∧ (∀ i j, matches st !! i = Some j →
            i < i_exp ∧ (j ∉ remaining_actual st) ∧ passed i j)
  ∧ (∀ i i' j, matches st !! i = Some j → matches st !! i' = Some j → i = i')
  ∧ (∀ i, i < i_exp → i ∈ failed_expected st ∨ is_Some (matches st !! i))
  ∧ (∀ j, j < length A →
          j ∈ remaining_actual st ∨ ∃ i, matches st !! i = Some j)
  ∧ length (remaining_actual st) + size (matches st) = length A
  ∧ size (matches st) + length (failed_expected st) = i_exp.

Lemma scan_remaining_found expected i_exp pool T res T' res' j :
  scan_remaining chk expected i_exp A pool T res = Returns (T', res', Some j) →
  j ∈ pool ∧ ∃ a, A !! j = Some a ∧ chk expected a = Returns None.
Proof.
  revert T res. induction pool as [|k pool IH]; intros T res; [done|].
  simpl. destruct (A !! k) as [a|] eqn:Ha; [|done].
  destruct (chk expected a) as [x|] eqn:Hx; [simpl|done].
  destruct (set_result T i_exp k x) as [T1|]; [simpl|done].
  destruct x as [reason|].
  - intros Hscan. destruct (IH _ _ Hscan) as [Hin Hpass].
    split; [by right|done].
  - intros [= <- <- <-]. split; [by left|]. by exists a.
Qed.

Lemma pairing_loop_sound expecteds :
  ∀ i_exp st st',
    drop i_exp E = expecteds →
    pairing_sound i_exp st →
    pairing_loop chk A i_exp expecteds st = Returns st' →
    pairing_sound (i_exp + length expecteds) st'.
Proof.
  induction expecteds as [|expected expecteds IH];
    intros i_exp st st' Hdrop Hinv.
  { simpl. intros [= <-]. by rewrite Nat.add_0_r. }
  assert (HE : E !! i_exp = Some expected).
  { rewrite <- (Nat.add_0_r i_exp), <- lookup_drop, Hdrop. done. }
  assert (Hdrop' : drop (S i_exp) E = expecteds).
  { replace (S i_exp) with (i_exp + 1) by lia.
    by rewrite <- drop_drop, Hdrop. }
  destruct Hinv as (Hnd & Hlt & Hm & Hinj & Hdom & Hcov & Hsz1 & Hsz2).
  assert (Hfresh : matches st !! i_exp = None).
  { destruct (matches st !! i_exp) as [j|] eqn:Hj; [|done].
    destruct (Hm _ _ Hj). lia. }
  simpl.
  destruct (scan_remaining chk expected i_exp A (remaining_actual st)
              (pr_results st) (last_res st)) as [[[T' res'] [j|]]|] eqn:Hscan;
    [simpl| |done].
  - apply scan_remaining_found in Hscan as (Hin & a & Ha & Hpass).
    rewrite list_remove_filter by done. simpl.
    replace (i_exp + S (length expecteds))
      with (S i_exp + length expecteds) by lia.
    apply IH; [done|]. unfold pairing_sound.
    cbn [remaining_actual matches failed_expected].
    pose proof (length_filter_remove j _ Hnd Hin) as Hlen.
    split_and!.
    + by apply NoDup_filter.
    + by apply Forall_filter_keep.
    + intros i j'. destruct (decide (i = i_exp)) as [->|Hne].
      * rewrite lookup_insert_eq. intros [= <-]. split; [lia|]. split.
        -- by intros [? _]%list_elem_of_filter.
        -- by exists expected, a.
      * rewrite lookup_insert_ne by done. intros Hij.
        destruct (Hm _ _ Hij) as (? & Hnin & ?). split; [lia|].
        split; [|done]. by intros [_ ?]%list_elem_of_filter.
    + intros i i' j'.
      destruct (decide (i = i_exp)) as [->|Hne];
        destruct (decide (i' = i_exp)) as [->|Hne']; [done| | |].
      * rewrite lookup_insert_eq, lookup_insert_ne by done.
        intros [= <-] Hi'. by destruct (Hm _ _ Hi') as (_ & ? & _).
      * rewrite lookup_insert_eq, lookup_insert_ne by done.
        intros Hi [= <-]. by destruct (Hm _ _ Hi) as (_ & ? & _).
      * rewrite !lookup_insert_ne by done. apply Hinj.
    + intros i Hi. destruct (decide (i = i_exp)) as [->|Hne].
      * right. rewrite lookup_insert_eq. by eexists.
      * rewrite lookup_insert_ne by done. apply Hdom. lia.
    + intros j' Hj'. destruct (decide (j' = j)) as [->|Hne].
      * right. exists i_exp. by rewrite lookup_insert_eq.
      * destruct (Hcov j' Hj') as [?|[i Hi]].
        -- left. by apply list_elem_of_filter.
        -- right. exists i. rewrite lookup_insert_ne; [done|].
           intros <-. congruence.
    + rewrite map_size_insert_None by done. lia.
    + rewrite map_size_insert_None by done. lia.
  - replace (i_exp + S (length expecteds))
      with (S i_exp + length expecteds) by lia.
    apply IH; [done|]. unfold pairing_sound.
    cbn [remaining_actual matches failed_expected]. split_and!; try done.
    + intros i j Hij. destruct (Hm _ _ Hij) as (? & ? & ?).
      split; [lia|done].
    + intros i Hi. destruct (decide (i = i_exp)) as [->|Hne].
      * left. apply elem_of_app. right. by left.
      * destruct (Hdom i) as [?|?]; [lia| |by right].
        left. apply elem_of_app. by left.
    + rewrite length_app. simpl. lia.
Qed.

Lemma greedy_pairing_sound st :
  greedy_pairing chk E A = Returns st →
  pairing_sound (length E) st.
Proof.
  intros Hst. refine (pairing_loop_sound E 0 _ st eq_refl _ Hst).
  unfold pairing_sound. cbn [remaining_actual matches failed_expected].
  split_and!; try done.
  - apply NoDup_seq.
  - apply Forall_forall. intros j Hj%list_elem_of_In%in_seq. lia.
  - intros i Hi. lia.
  - intros j Hj. left. apply list_elem_of_In, in_seq. lia.
  - rewrite length_seq, map_size_empty. lia.
Qed.

End PairingSound.

Section MatchesSound.
Context `{Host}.

(** X10: when [matches] returns [True] for a group, the raised exceptions
    it paired, the members of the group or their flattening, are as many
    as the expected ones, and they are paired one to one with the expected
    ones, every raised exception with an expected one that it was checked
    against and passed; this holds whatever the other checks returned or
    raised. *)
Theorem matches_True_is_a_perfect_pairing (rg : RaisesGroup) (g : exc)
    (r0 : option string) :
  isinstance g BaseExceptionGroup = true →
  (RaisesGroup_matches rg (Some g) r0).1 = Returns true →
  let E := expected_exceptions rg in
  let A := paired_exceptions rg g in
  length A = length E
  ∧ ∃ claimed,
      perfect_pairing claimed (length E) (length A)
      ∧ ∀ i j, claimed !! i = Some j → passed _check_expected E A i j.
Proof.
  intros Hg Htrue E A.
  apply RaisesGroup_matches_true_iff in Htrue as (_ & Hpair & _); [|done].
  unfold _check_exceptions, _check_exceptions_body in Hpair.
  apply (proj1 (_check_exceptions_with_verdict _ _ _ _ _ _)) in Hpair
    as (st & Hst & Hrem & Hfailed).
  apply greedy_pairing_sound in Hst
    as (Hnd & Hlt & Hm & Hinj & Hdom & Hcov & Hsz1 & Hsz2).
  rewrite Hrem in *. rewrite Hfailed in *. simpl in *.
  fold E A in Hm, Hdom, Hcov, Hsz1, Hsz2 |- *.
  split; [lia|]. exists (matches st). split; [split_and!|].
  - intros i Hi. destruct (Hdom i Hi) as [Hin|?]; [by inversion Hin|done].
  - intros j Hj. destruct (Hcov j Hj) as [Hin|[i Hi]]; [by inversion Hin|].
    exists i. split; [|done]. by destruct (Hm _ _ Hi).
  - done.
  - intros i j Hij. by destruct (Hm _ _ Hij) as (_ & _ & ?).
Qed.

End MatchesSound.

Lemma matches_True_is_a_perfect_pairing_witness :
  let rg := MkRaisesGroup [ExpType ValueError_cls; ExpType TypeError_cls]
              false true None None false false in
  let g := new_group "g" [new_group "inner" [new_exc TypeError_cls "t"];
                          new_exc ValueError_cls "v"] in
  length (paired_exceptions rg g) = 2.
Proof.
  intros rg g.
  apply (@matches_True_is_a_perfect_pairing demo_host rg g None);
    reflexivity.
Defined.

(** ** [matches] on what is not a group *)

Section LoneException.
Context `{Host}.

(** X11: [matches(None)] is [False] with the reason that the exception is
    [None].  An exception that is not a group is accepted exactly when
    [allow_unwrapped] is set and the one expected exception accepts it.
    With more than one expected exception the reason is that it is not a
    group; with one and without [allow_unwrapped] the reason says so and
    adds that it would match with [allow_unwrapped=True] when it would;
    with [allow_unwrapped] the reason is the one of the expected
    exception. *)
Theorem matches_of_a_lone_exception (self : RaisesGroup) (e : exc)
    (r0 : option string) :
  let not_group :=
    repr_str (cls_name (exc_type e)) ++ " is not an exception group" in
  RaisesGroup_matches self None r0 = (Returns false, Some "exception is None")
  ∧ (isinstance e BaseExceptionGroup = false →
     ((RaisesGroup_matches self (Some e) r0).1 = Returns true
      ↔ allow_unwrapped self = true
        ∧ ∃ p, expected_exceptions self = [p]
               ∧ _check_expected p e = Returns None)
     ∧ (1 < length (expected_exceptions self) →
        RaisesGroup_matches self (Some e) r0
        = (Returns false, Some not_group))
     ∧ (∀ p res,
          expected_exceptions self = [p] →
          _check_expected p e = Returns res →
          allow_unwrapped self = false →
          RaisesGroup_matches self (Some e) r0
          = (Returns false,
             Some (if is_none res
                   then not_group
                        ++ ", but would match with `allow_unwrapped=True`"
                   else not_group)))
     ∧ (∀ p reason,
          expected_exceptions self = [p] →
          _check_expected p e = Returns (Some reason) →
          allow_unwrapped self = true →
          RaisesGroup_matches self (Some e) r0
          = (Returns false, Some reason))).
Proof.
  intros not_group. split; [done|]. intros He.
  unfold RaisesGroup_matches, RaisesGroup_matches_body. munfold.
  rewrite He. cbn beta iota zeta delta [negb]. split_and!.
  - case_bool_decide as Hlen.
    { split; [done|]. intros (_ & p & Hp & _). rewrite Hp in Hlen.
      simpl in Hlen. lia. }
    destruct (expected_exceptions self) as [|p [|p' rest]] eqn:HE;
      [|clear Hlen|simpl in Hlen; lia].
    { split; [done|]. by intros (_ & p & ? & _). }
    destruct (_check_expected p e) as [[reason|]|err] eqn:Hres;
      cbn beta iota zeta delta [is_none andb].
    + split; [by destruct (allow_unwrapped self)|].
      by intros (_ & p' & [= <-] & ?); congruence.
    + destruct (allow_unwrapped self); simpl.
      * split; [|done]. intros _. split; [done|]. by exists p.
      * split; [done|]. by intros [? _].
    + split; [done|]. by intros (_ & p' & [= <-] & ?); congruence.
  - intros Hlen. by rewrite bool_decide_eq_true_2.
  - intros p res -> Hres Hallow. rewrite Hres, Hallow. simpl.
    by destruct res.
  - intros p reason -> Hres Hallow. by rewrite Hres, Hallow.
Qed.

End LoneException.

Lemma matches_of_a_lone_exception_witness :
  let self := MkRaisesGroup [ExpType ValueError_cls] false false None None
                false false in
  @RaisesGroup_matches demo_host self (Some (new_exc ValueError_cls "v"))
    (Some "stale")
  = (Returns false,
     Some "'ValueError' is not an exception group, but would match with `allow_unwrapped=True`").
Proof.
  intros self.
  destruct (@matches_of_a_lone_exception demo_host self
              (new_exc ValueError_cls "v") (Some "stale"))
    as (_ & Hlone).
  destruct (Hlone eq_refl) as (_ & _ & Hplain & _).
  exact (Hplain (ExpType ValueError_cls) None eq_refl eq_refl eq_refl).
Defined.

(** ** [matches] on a group *)

Section GroupVerdict.
Context `{Host}.


(** X13: marking a group as nested changes no verdict of [matches]; it only
    shortens the reason left by a failing [check], so without [check] the
    reason is the same too. *)
Theorem _nested_changes_no_verdict (rg : RaisesGroup) (b : bool)
    (exc_val : option exc) (r0 : option string) :
  (RaisesGroup_matches (set__nested rg b) exc_val r0).1
  = (RaisesGroup_matches rg exc_val r0).1
  ∧ (check rg = None →
     RaisesGroup_matches (set__nested rg b) exc_val r0
     = RaisesGroup_matches rg exc_val r0).
Proof.
  unfold RaisesGroup_matches, RaisesGroup_matches_body, set__nested.
  cbn [expected_exceptions allow_unwrapped flatten_subgroups match_expr
       check _nested is_baseexceptiongroup].
  change (_check_exceptions_body ?c (MkRaisesGroup _ _ _ _ _ _ _))
    with (_check_exceptions_body c rg).
  munfold. destruct exc_val as [e|]; [|done].
  destruct (negb (isinstance e BaseExceptionGroup)); [done|].
  destruct (_check_match (match_expr rg) e None) as [[[]|] rm];
    cbn beta iota zeta delta [negb]; [|done|done].
  destruct (_check_exceptions_body _check_expected rg e _ rm) as [[[]|] rp];
    cbn beta iota zeta delta [negb]; [|done|done].
  unfold _check_check. split.
  - destruct (check rg) as [c|]; [|done]. by destruct (call c e).
  - by intros ->.
Qed.



End GroupVerdict.


Lemma _nested_changes_no_verdict_witness :
  let rg := MkRaisesGroup [ExpType ValueError_cls] false false None None
              false false in
  @RaisesGroup_matches demo_host (set__nested rg true)
    (Some (new_group "g" [new_exc TypeError_cls "t"])) None
  = @RaisesGroup_matches demo_host rg
      (Some (new_group "g" [new_exc TypeError_cls "t"])) None.
Proof.
  intros rg.
  apply (@_nested_changes_no_verdict demo_host rg true). reflexivity.
Defined.

(** ** Using the context manager again *)

Section Reuse.
Context `{Host}.

Lemma RaisesGroup_exit_True self t v tb w w' :
  RaisesGroup_exit self (Some t) v tb w = (Returns true, w') →
  ∃ h info r,
    self_excinfo w = Some h ∧ handles w !! h = Some info
    ∧ _excinfo info = None
    ∧ RaisesGroup_matches self v (self_fail_reason w) = (Returns true, r)
    ∧ w' = MkWorld (<[h := Mk_ExceptionInfo (Some (t, v, tb))]> (handles w))
             (Some h) r.
Proof.
  unfold RaisesGroup_exit.
  destruct (self_excinfo w) as [h|]; [|done].
  destruct (RaisesGroup_matches self v (self_fail_reason w)) as [[[]|] r];
    [|done|done].
  destruct (handles w !! h) as [[[info|]]|] eqn:Hh; [done| |done].
  simpl. intros [= <-]. by eexists h, _, r.
Qed.

(** X15: after a block that [__exit__] has handled, a second [__exit__] of
    the same object without a new [__enter__] fails, for an exception that
    [matches] accepts, on the handle that is already filled, and the handle
    keeps what it held.  A new [__enter__] returns a new, unfilled handle
    and leaves the first one as it is, also when the second block is
    handled and fills the new one. *)
Theorem context_manager_used_again (self : RaisesGroup) (w w2 : world)
    (t t' : pyclass) (v v' : option exc) (tb tb' : option traceback) :
  let h := (RaisesGroup_enter w).1 in
  let first := Mk_ExceptionInfo (Some (t, v, tb)) in
  RaisesGroup_exit self (Some t) v tb (RaisesGroup_enter w).2
  = (Returns true, w2) →
  handles w2 !! h = Some first
  ∧ ((RaisesGroup_matches self v' (self_fail_reason w2)).1 = Returns true →
     (RaisesGroup_exit self (Some t') v' tb' w2).1
     = Raises (AssertionError "ExceptionInfo was already filled")
     ∧ handles (RaisesGroup_exit self (Some t') v' tb' w2).2 !! h
       = Some first)
  ∧ (let h' := (RaisesGroup_enter w2).1 in
     let w3 := (RaisesGroup_enter w2).2 in
     h' ≠ h
     ∧ handles w3 !! h' = Some for_later
     ∧ handles w3 !! h = Some first
     ∧ ∀ w4, RaisesGroup_exit self (Some t') v' tb' w3 = (Returns true, w4) →
             handles w4 !! h' = Some (Mk_ExceptionInfo (Some (t', v', tb')))
             ∧ handles w4 !! h = Some first).
Proof.
  cbn zeta. unfold RaisesGroup_enter. cbn [fst snd handles self_excinfo].
  remember (Mk_ExceptionInfo (Some (t, v, tb))) as first eqn:Hfirst_def.
  intros Hexit.
  apply RaisesGroup_exit_True in Hexit
    as (h0 & info & r & [= <-] & Hinfo & _ & _ & ->).
  cbn [handles self_excinfo self_fail_reason] in *.
  rewrite <- Hfirst_def.
  assert (Hlen : length (handles w ++ [for_later]) = S (length (handles w))).
  { rewrite length_app. simpl. lia. }
  assert (Hfirst :
    <[length (handles w) := first]> (handles w ++ [for_later])%list
      !! length (handles w) = Some first).
  { apply list_lookup_insert_eq. lia. }
  split; [done|]. split.
  - intros Hacc. unfold RaisesGroup_exit.
    cbn [handles self_excinfo self_fail_reason].
    destruct (RaisesGroup_matches self v' r) as [[[]|] r']; try done.
    rewrite Hfirst, Hfirst_def. simpl. by rewrite <- Hfirst_def.
  - rewrite length_insert, Hlen.
    split; [lia|]. split; [|split].
    + rewrite lookup_app_r by (rewrite length_insert; lia).
      by rewrite length_insert, Hlen, Nat.sub_diag.
    + by rewrite lookup_app_l by (rewrite length_insert; lia).
    + intros w4 Hexit'.
      apply RaisesGroup_exit_True in Hexit'
        as (h' & info' & r' & [= <-] & _ & _ & _ & ->).
      cbn [handles]. split.
      * apply list_lookup_insert_eq.
        rewrite length_app, length_insert. simpl. lia.
      * rewrite list_lookup_insert_ne by lia.
        by rewrite lookup_app_l by (rewrite length_insert; lia).
Qed.

End Reuse.

Lemma context_manager_used_again_witness :
  let self := MkRaisesGroup [ExpType ValueError_cls] false false None None
                false false in
  let g := new_group "g" [new_exc ValueError_cls "v"] in
  (@RaisesGroup_exit demo_host self (Some ExceptionGroup) (Some g) None
     (@RaisesGroup_exit demo_host self (Some ExceptionGroup) (Some g) None
        (RaisesGroup_enter (MkWorld [] None None)).2).2).1
  = Raises (AssertionError "ExceptionInfo was already filled").
Proof.
  intros self g.
  destruct (@context_manager_used_again demo_host self (MkWorld [] None None)
              _ ExceptionGroup ExceptionGroup (Some g) (Some g) None None
              eq_refl) as (_ & Hagain & _).
  apply Hagain. reflexivity.
Defined.

(** ** Completing the table *)

Section FillResults.
Context `{Host}.
Variable chk : ExpectedType → exc → outcome (option string).
Variable E : list ExpectedType.
Variable A : list exc.

Hypothesis no_raise :
  ∀ i j, i < length E → j < length A → is_Some (pair_result chk E A i j).

(** Every cell of the table is unchecked or holds what the check of its
    pair returns. *)
Definition table_faithful (T : ResultHolder) : Prop :=
  ∀ i j, i < length E → j < length A →
    cell_at T i j = Some NotChecked
    ∨ cell_at T i j = Checked <$> pair_result chk E A i j.

Lemma fill_row_spec expected i_exp actuals :
  ∀ k T,
    E !! i_exp = Some expected →
    drop k A = actuals →
    table_dims T (length A) (length E) →
    table_faithful T →
    (∀ j, j < k → cell_at T i_exp j = Checked <$> pair_result chk E A i_exp j) →
    ∃ T', fill_row chk expected i_exp k actuals T = Returns T'
          ∧ table_dims T' (length A) (length E)
          ∧ table_faithful T'
          ∧ (∀ j, j < length A →
                  cell_at T' i_exp j = Checked <$> pair_result chk E A i_exp j)
          ∧ (∀ i j, i ≠ i_exp → cell_at T' i j = cell_at T i j)
          ∧ (∀ i j c, cell_at T i j = Some (Checked c) →
                      cell_at T' i j = Some (Checked c)).
Proof.
  induction actuals as [|a actuals IH]; intros k T HE Hdrop Hdims Hfaith Hdone.
  { exists T. split_and!; try done. intros j Hj. apply Hdone.
    apply (f_equal length) in Hdrop. rewrite length_drop in Hdrop.
    simpl in Hdrop. lia. }
  pose proof (lookup_lt_Some _ _ _ HE) as Hi.
  assert (Ha : A !! k = Some a).
  { rewrite <- (Nat.add_0_r k), <- lookup_drop, Hdrop. done. }
  pose proof (lookup_lt_Some _ _ _ Ha) as Hk.
  assert (Hdrop' : drop (S k) A = actuals).
  { replace (S k) with (k + 1) by lia. by rewrite <- drop_drop, Hdrop. }
  destruct (no_raise i_exp k Hi Hk) as [x Hx].
  assert (Hchk : chk expected a = Returns x).
  { unfold pair_result in Hx. rewrite HE, Ha in Hx. simpl in Hx.
    destruct (chk expected a); congruence. }
  simpl. rewrite has_result_cell_at.
  destruct (Hfaith i_exp k Hi Hk) as [Hcell|Hcell]; rewrite Hcell.
  - simpl. rewrite Hchk. simpl.
    destruct (set_result_spec T _ _ i_exp k x Hdims Hi Hk)
      as (T1 & -> & Hdims1 & Hcell1 & Hother). simpl.
    destruct (IH (S k) T1 HE Hdrop' Hdims1) as (T' & -> & ? & ? & ? & Hne & Hkeep).
    + intros i j Hi' Hj'. destruct (decide (i = i_exp ∧ j = k)) as [[-> ->]|Hn].
      * right. by rewrite Hcell1, Hx.
      * rewrite (Hother i j Hn). by apply Hfaith.
    + intros j Hj. destruct (decide (j = k)) as [->|Hn].
      * by rewrite Hcell1, Hx.
      * rewrite Hother by naive_solver. apply Hdone. lia.
    + exists T'. split_and!; try done.
      * intros i j Hn. rewrite Hne by done. apply Hother. naive_solver.
      * intros i j c Hc. apply Hkeep. rewrite Hother; [done|].
        intros [-> ->]. congruence.
  - rewrite Hx. simpl.
    destruct (IH (S k) T HE Hdrop' Hdims Hfaith) as (T' & -> & ?); [|by exists T'].
    intros j Hj. destruct (decide (j = k)) as [->|Hn]; [done|].
    apply Hdone. lia.
Qed.

Lemma fill_results_spec expecteds :
  ∀ k T,
    drop k E = expecteds →
    table_dims T (length A) (length E) →
    table_faithful T →
    (∀ i j, i < k → j < length A →
            cell_at T i j = Checked <$> pair_result chk E A i j) →
    ∃ T', fill_results chk A k expecteds T = Returns T'
          ∧ table_dims T' (length A) (length E)
          ∧ (∀ i j, i < length E → j < length A →
                    cell_at T' i j = Checked <$> pair_result chk E A i j)
          ∧ (∀ i j c, cell_at T i j = Some (Checked c) →
                      cell_at T' i j = Some (Checked c)).
Proof.
  induction expecteds as [|e expecteds IH]; intros k T Hdrop Hdims Hfaith Hdone.
  { exists T. split_and!; try done. intros i j Hi Hj. apply Hdone; [|done].
    apply (f_equal length) in Hdrop. rewrite length_drop in Hdrop.
    simpl in Hdrop. lia. }
  assert (HE : E !! k = Some e).
  { rewrite <- (Nat.add_0_r k), <- lookup_drop, Hdrop. done. }
  assert (Hdrop' : drop (S k) E = expecteds).
  { replace (S k) with (k + 1) by lia. by rewrite <- drop_drop, Hdrop. }
  simpl.
  destruct (fill_row_spec e k A 0 T HE eq_refl Hdims Hfaith)
    as (T1 & -> & Hdims1 & Hfaith1 & Hrow & Hne & Hkeep1); [intros; lia|].
  simpl.
  destruct (IH (S k) T1 Hdrop' Hdims1 Hfaith1) as (T' & -> & ? & ? & Hkeep).
  - intros i j Hi Hj. destruct (decide (i = k)) as [->|Hn]; [by apply Hrow|].
    rewrite Hne by done. apply Hdone; [lia|done].
  - exists T'. split_and!; try done. intros i j c Hc. by apply Hkeep, Hkeep1.
Qed.

(** X16: when the checks of the pairs return, the loops that complete the
    table return, whatever part of the table the pairing loop filled in;
    afterwards every cell holds what the check of its pair returns, a result
    that was there already is kept, and every row and every column is
    checked through, as [no_match_for_actual] and [no_match_for_expected]
    assert. *)
Theorem fill_results_completes_the_table (T : ResultHolder) :
  table_dims T (length A) (length E) →
  table_faithful T →
  ∃ T', fill_results chk A 0 E T = Returns T'
        ∧ (∀ i j, i < length E → j < length A →
                  cell_at T' i j = Checked <$> pair_result chk E A i j)
        ∧ (∀ i j c, cell_at T i j = Some (Checked c) →
                    cell_at T' i j = Some (Checked c))
        ∧ (∀ j, j < length A → row_checked T' j)
        ∧ (∀ i, i < length E → column_checked T' i).
Proof.
  intros Hdims Hfaith.
  destruct (fill_results_spec E 0 T eq_refl Hdims Hfaith)
    as (T' & Hfill & [Hm Hn] & Hall & Hkeep); [intros; lia|].
  exists T'. split_and!; try done.
  - intros j Hj.
    destruct (lookup_lt_is_Some_2 (results T') j) as [row Hrow]; [lia|].
    exists row. split; [done|]. apply Forall_lookup. intros i c Hc ->.
    rewrite Forall_lookup in Hn. pose proof (Hn _ _ Hrow) as Hlen.
    apply lookup_lt_Some in Hc as Hi. rewrite Hlen in Hi.
    specialize (Hall i j Hi Hj). unfold cell_at in Hall.
    rewrite Hrow in Hall. simpl in Hall. rewrite Hc in Hall.
    by destruct (pair_result chk E A i j).
  - intros i Hi. apply Forall_lookup. intros j row Hrow.
    apply lookup_lt_Some in Hrow as Hj. rewrite Hm in Hj.
    specialize (Hall i j Hi Hj). unfold cell_at in Hall.
    rewrite Hrow in Hall. simpl in Hall.
    destruct (no_raise i j Hi Hj) as [x Hx]. rewrite Hx in Hall.
    by exists (Checked x).
Qed.

End FillResults.

Lemma fill_results_completes_the_table_witness :
  let E := [ExpType ValueError_cls; ExpType TypeError_cls] in
  let A := [new_exc TypeError_cls "t"; new_exc ValueError_cls "v"] in
  ∃ T', fill_results (@_check_expected demo_host) A 0 E
          (ResultHolder_init E A) = Returns T'
        ∧ cell_at T' 1 0 = Some (Checked None).
Proof.
  intros E A.
  destruct (fill_results_completes_the_table
              (@_check_expected demo_host) E A
              (flat_patterns_never_raise E A eq_refl)
              (ResultHolder_init E A))
    as (T' & Hfill & Hall & _).
  - apply ResultHolder_init_dims.
  - intros i j Hi Hj. left. by apply ResultHolder_init_cell_at.
  - exists T'. split; [done|]. rewrite (Hall 1 0); [reflexivity|simpl; lia..].
Defined.

(** ** One expected and one raised exception; flattening *)

Section SinglePair.
Context `{Host}.

(** X17: with one expected exception, no [match], and a group of which one
    exception is paired that the expected one rejects, [matches] returns
    [False] and the reason is the one [_check_expected] gave, with nothing
    around it, when the raised exception is not a group itself or the
    expected one is, or with [flatten_subgroups]. *)
Theorem single_pair_reason (rg : RaisesGroup) (g a : exc)
    (p : ExpectedType) (reason : string) (r0 : option string) :
  isinstance g BaseExceptionGroup = true →
  expected_exceptions rg = [p] →
  paired_exceptions rg g = [a] →
  match_expr rg = None →
  _check_expected p a = Returns (Some reason) →
  flatten_subgroups rg = true ∨ is_group_pattern p = true
  ∨ isinstance a BaseExceptionGroup = false →
  RaisesGroup_matches rg (Some g) r0 = (Returns false, Some reason).
Proof.
  intros Hg HE HA Hmatch Hres Hplain.
  unfold RaisesGroup_matches, RaisesGroup_matches_body,
    _check_exceptions_body.
  rewrite Hg, Hmatch. unfold paired_exceptions in HA. unfold _check_match.
  munfold. cbn beta iota zeta delta [negb].
  rewrite HA.
  rewrite (_check_exceptions_with_single _ _ _ _ p a (Some reason)) by done.
  cbn beta iota zeta delta [negb is_none].
  rewrite HE. cbn [existsb orb].
  destruct (flatten_subgroups rg); [done|].
  destruct (is_group_pattern p); [done|].
  destruct Hplain as [?|[?| ->]]; done.
Qed.

Lemma _check_match_with_members m g members :
  _check_match m (with_members g members) = _check_match m g.
Proof. reflexivity. Qed.

Lemma _check_exceptions_with_exc_val chk pm rg g g' actual :
  _check_exceptions_with chk pm rg g actual
  = _check_exceptions_with chk pm rg g' actual.
Proof. reflexivity. Qed.

(** X18: with [flatten_subgroups] and no [check], [matches] does with a
    group what it does with the group of its leaves: the nesting of the
    raised group is not looked at. *)
Theorem flatten_subgroups_sees_the_leaves (rg : RaisesGroup) (g : exc)
    (r0 : option string) :
  flatten_subgroups rg = true →
  check rg = None →
  isinstance g BaseExceptionGroup = true →
  RaisesGroup_matches rg (Some g) r0
  = RaisesGroup_matches rg
      (Some (with_members g (_unroll_exceptions (exc_exceptions g)))) r0.
Proof.
  intros Hflat Hcheck Hg.
  assert (Hg' : isinstance
                  (with_members g (_unroll_exceptions (exc_exceptions g)))
                  BaseExceptionGroup = true) by done.
  unfold RaisesGroup_matches, RaisesGroup_matches_body,
    _check_exceptions_body.
  rewrite Hg, Hg', Hflat, Hcheck, _check_match_with_members.
  rewrite (_check_exceptions_with_exc_val _ _ rg
             (with_members g (_unroll_exceptions (exc_exceptions g))) g).
  change (exc_exceptions (with_members g ?ms)) with ms.
  rewrite (_unroll_exceptions_flat (_unroll_exceptions (exc_exceptions g)))
    by apply _unroll_exceptions_leaves.
  reflexivity.
Qed.

End SinglePair.

Lemma single_pair_reason_witness :
  let rg := MkRaisesGroup [ExpType ValueError_cls] false false None None
              false false in
  @RaisesGroup_matches demo_host rg
    (Some (new_group "g" [new_exc TypeError_cls "t"])) None
  = (Returns false, Some "'TypeError' is not of type 'ValueError'").
Proof.
  intros rg.
  apply (@single_pair_reason demo_host rg
           (new_group "g" [new_exc TypeError_cls "t"])
           (new_exc TypeError_cls "t") (ExpType ValueError_cls));
    try reflexivity.
  right. right. reflexivity.
Defined.

Lemma flatten_subgroups_sees_the_leaves_witness :
  let rg := MkRaisesGroup [ExpType ValueError_cls; ExpType TypeError_cls]
              false true None None false false in
  let inner := new_group "inner" [new_exc TypeError_cls "t"] in
  @RaisesGroup_matches demo_host rg
    (Some (new_group "g" [inner; new_exc ValueError_cls "v"])) None
  = @RaisesGroup_matches demo_host rg
      (Some (new_group "g" [new_exc TypeError_cls "t";
                            new_exc ValueError_cls "v"])) None.
Proof.
  intros rg inner.
  exact (@flatten_subgroups_sees_the_leaves demo_host rg
           (new_group "g" [inner; new_exc ValueError_cls "v"]) None
           eq_refl eq_refl eq_refl).
Defined.

(** ** What [__exit__] leaves and says *)

Section ExitOutcome.
Context `{Host}.

(** X19: after a block that [__exit__] has handled, the handle that
    [__enter__] returned gives the class, the exception and the traceback
    that [__exit__] was called with, the exception is one that [matches]
    accepts, and [fail_reason] is [None]. *)
Theorem handled_block_can_be_read (self : RaisesGroup) (w w2 : world)
    (t : pyclass) (v : option exc) (tb : option traceback) :
  RaisesGroup_exit self (Some t) v tb (RaisesGroup_enter w).2
  = (Returns true, w2) →
  ∃ info,
    handles w2 !! (RaisesGroup_enter w).1 = Some info
    ∧ excinfo_type info = Returns t
    ∧ excinfo_value info = Returns v
    ∧ excinfo_tb info = Returns tb
    ∧ (∃ e, v = Some e)
    ∧ (RaisesGroup_matches self v (self_fail_reason w)).1 = Returns true
    ∧ self_fail_reason w2 = None.
Proof.
  intros Hexit.
  apply RaisesGroup_exit_True in Hexit
    as (h & info & r & [= <-] & Hinfo & _ & Hm & ->).
  exists (Mk_ExceptionInfo (Some (t, v, tb))).
  cbn [RaisesGroup_enter fst snd handles self_fail_reason] in *.
  split_and!; try done.
  - apply list_lookup_insert_eq. by apply lookup_lt_Some in Hinfo.
  - destruct v as [e|]; [by exists e|]. by vm_compute in Hm.
  - by rewrite Hm.
  - pose proof (RaisesGroup_matches_body_settles _check_expected self v
                  (self_fail_reason w)) as Hs.
    unfold RaisesGroup_matches in Hm. by rewrite Hm in Hs.
Qed.

(** X20: [__exit__] of an entered block raises [AssertionError] when
    nothing was raised, and the message names the expected group; when
    [matches] rejects what was raised, the message is [Raised exception
    group did not match: ] followed by the reason that [matches] left,
    which is a string, and the group is put in parentheses when
    [allow_unwrapped] is set and the class raised is not a group; the
    reason stays in [fail_reason] and the handle stays unfilled. *)
Theorem unhandled_block_says_why (self : RaisesGroup) (w : world)
    (v : option exc) (tb : option traceback) :
  let h := (RaisesGroup_enter w).1 in
  let w1 := (RaisesGroup_enter w).2 in
  RaisesGroup_exit self None v tb w1
  = (Raises (AssertionError ("DID NOT RAISE any exception, expected "
                               ++ expected_type self)), w1)
  ∧ ∀ t, (RaisesGroup_matches self v (self_fail_reason w)).1 = Returns false →
         ∃ reason,
           RaisesGroup_exit self (Some t) v tb w1
           = (Raises (AssertionError
                        ("Raised exception "
                         ++ (if allow_unwrapped self
                                && negb (issubclass t BaseExceptionGroup)
                             then "(group)" else "group")
                         ++ " did not match: " ++ reason)),
              with_fail_reason w1 (Some reason))
           ∧ handles w1 !! h = Some for_later.
Proof.
  cbn zeta. split; [done|]. intros t Hfalse.
  pose proof (RaisesGroup_matches_body_settles _check_expected self v
                (self_fail_reason w)) as Hs.
  unfold RaisesGroup_exit, RaisesGroup_enter.
  cbn [fst snd handles self_excinfo self_fail_reason].
  unfold RaisesGroup_matches in *.
  destruct (RaisesGroup_matches_body _check_expected self v
              (self_fail_reason w)) as [[[]|] r]; try done.
  destruct Hs as [reason ->]. exists reason. split; [done|].
  by rewrite lookup_app_r, Nat.sub_diag by lia.
Qed.

End ExitOutcome.

Lemma handled_block_can_be_read_witness :
  let self := MkRaisesGroup [ExpType ValueError_cls] false false None None
                false false in
  let g := new_group "g" [new_exc ValueError_cls "v"] in
  ∃ w2 info,
    @RaisesGroup_exit demo_host self (Some ExceptionGroup) (Some g) None
      (RaisesGroup_enter (MkWorld [] None (Some "stale"))).2
    = (Returns true, w2)
    ∧ handles w2 !! 0 = Some info
    ∧ excinfo_value info = Returns (Some g).
Proof.
  intros self g. eexists.
  destruct (@handled_block_can_be_read demo_host self
              (MkWorld [] None (Some "stale")) _ ExceptionGroup (Some g)
              None eq_refl) as (info & Hinfo & _ & Hvalue & _).
  exists info. split; [reflexivity|]. by split.
Defined.

Lemma unhandled_block_says_why_witness :
  let self := MkRaisesGroup [ExpType ValueError_cls] true false None None
                false false in
  ∃ reason,
    (@RaisesGroup_exit demo_host self (Some TypeError_cls)
       (Some (new_exc TypeError_cls "t")) None
       (RaisesGroup_enter (MkWorld [] None None)).2).1
    = Raises (AssertionError
                ("Raised exception (group) did not match: " ++ reason)).
Proof.
  intros self.
  destruct (@unhandled_block_says_why demo_host self (MkWorld [] None None)
              (Some (new_exc TypeError_cls "t")) None) as (_ & Hwhy).
  destruct (Hwhy TypeError_cls eq_refl) as (reason & Hexit & _).
  exists reason. by rewrite Hexit.
Defined.

(** ** The reports of [_check_exceptions] *)

(** [successful_str] of [_check_exceptions] for [n] matched pairs *)
Definition successful_str (n : nat) : string :=
  if bool_decide (n = 0) then EmptyString
  else pretty n ++ " matched exception"
       ++ (if bool_decide (1 < n) then "s" else EmptyString) ++ ". ".

Section Reports.
Context `{Host}.
Variable chk : ExpectedType → exc → outcome (option string).
Variable exhaustive_check : ResultHolder → outcome bool.
Variable E : list ExpectedType.
Variable A : list exc.

Hypothesis no_raise :
  ∀ i j, i < length E → j < length A → is_Some (pair_result chk E A i j).

(** The table is complete. *)
Definition table_complete (T : ResultHolder) : Prop :=
  table_dims T (length A) (length E)
  ∧ ∀ i j, i < length E → j < length A →
           cell_at T i j = Checked <$> pair_result chk E A i j.

Lemma pairing_then_fill st :
  greedy_pairing chk E A = Returns st →
  ∃ T', fill_results chk A 0 E (pr_results st) = Returns T'
        ∧ table_complete T'.
Proof.
  intros Hst.
  destruct (pairing_loop_refines chk E A no_raise E 0
              (MkPairing (ResultHolder_init E A) (seq 0 (length A)) [] ∅ None)
              []) as (st0 & Hloop & _ & _ & _ & Hdims & Hrec); simpl.
  - done.
  - apply ResultHolder_init_dims.
  - intros i j Hi Hj. rewrite ResultHolder_init_cell_at by done.
    by rewrite bool_decide_eq_false_2 by inversion 1.
  - apply Forall_forall. intros j Hj%list_elem_of_In%in_seq. lia.
  - apply NoDup_seq.
  - unfold greedy_pairing in Hst. rewrite Hst in Hloop.
    injection Hloop as <-.
    destruct (fill_results_spec chk E A no_raise E 0 (pr_results st) eq_refl
                Hdims) as (T' & Hfill & Hdims' & Hall & _).
    + intros i j Hi Hj. rewrite (Hrec i j Hi Hj). case_bool_decide; auto.
    + intros; lia.
    + by exists T'.
Qed.

Lemma table_complete_row T j row i :
  table_complete T → results T !! j = Some row →
  (i < length E ↔ i < length row)
  ∧ (row !! i = Some (Checked None) → satisfies chk E A i j = true)
  ∧ (i < length E → ∃ x, row !! i = Some (Checked x)).
Proof.
  intros [[Hm Hn] Hall] Hrow.
  rewrite Forall_lookup in Hn. pose proof (Hn _ _ Hrow) as Hlen.
  apply lookup_lt_Some in Hrow as Hj. rewrite Hm in Hj.
  assert (Hcell : i < length E → row !! i = Checked <$> pair_result chk E A i j).
  { intros Hi. specialize (Hall i j Hi Hj). unfold cell_at in Hall.
    by rewrite Hrow in Hall. }
  split; [by rewrite Hlen|]. split.
  - intros Hi. apply lookup_lt_Some in Hi as Hlt. rewrite Hlen in Hlt.
    rewrite (Hcell Hlt) in Hi. unfold satisfies.
    apply bool_decide_eq_true_2.
    destruct (pair_result chk E A i j) as [x|]; [|done].
    by injection Hi as ->.
  - intros Hi. destruct (no_raise i j Hi Hj) as [x Hx].
    exists x. by rewrite (Hcell Hi), Hx.
Qed.

Lemma no_match_for_actual_True T idx :
  table_complete T →
  Forall (λ j, j < length A) idx →
  (∀ i j, j ∈ idx → i < length E → satisfies chk E A i j = false) →
  no_match_for_actual T idx = Returns true.
Proof.
  intros HT Hidx Hnone.
  destruct (no_match_for_actual_spec T idx) as ([] & Hb & Hiff); [|done|].
  - apply Forall_forall. intros j Hj.
    rewrite Forall_forall in Hidx. specialize (Hidx j Hj).
    destruct (lookup_lt_is_Some_2 (results T) j) as [row Hrow].
    { destruct HT as [[-> _] _]. done. }
    exists row. split; [done|]. apply Forall_lookup. intros i c Hc ->.
    apply lookup_lt_Some in Hc as Hi.
    apply (table_complete_row T j row i HT Hrow) in Hi.
    destruct (proj2 (proj2 (table_complete_row T j row i HT Hrow)) Hi)
      as [x Hx]. congruence.
  - destruct (proj1 Hiff eq_refl) as (j & row & Hj & Hrow & Hin).
    apply list_elem_of_lookup in Hin as [i Hi].
    pose proof (proj1 (proj2 (table_complete_row T j row i HT Hrow)) Hi)
      as Hsat.
    rewrite Hnone in Hsat; [done|done|].
    apply (table_complete_row T j row i HT Hrow).
    by apply lookup_lt_Some in Hi.
Qed.

Lemma no_match_for_expected_True T idx :
  table_complete T →
  Forall (λ i, i < length E) idx →
  (∀ i j, i ∈ idx → j < length A → satisfies chk E A i j = false) →
  no_match_for_expected T idx = Returns true.
Proof.
  intros HT Hidx Hnone.
  destruct (no_match_for_expected_spec T idx) as ([] & Hb & Hiff); [|done|].
  - apply Forall_forall. intros i Hi.
    rewrite Forall_forall in Hidx. specialize (Hidx i Hi).
    apply Forall_lookup. intros j row Hrow.
    destruct (proj2 (proj2 (table_complete_row T j row i HT Hrow)) Hidx)
      as [x Hx]. by exists (Checked x).
  - destruct (proj1 Hiff eq_refl) as (i & row & Hi & Hin & Hcell).
    apply list_elem_of_lookup in Hin as [j Hrow].
    pose proof (proj1 (proj2 (table_complete_row T j row i HT Hrow)) Hcell)
      as Hsat.
    rewrite Hnone in Hsat; [done|done|].
    destruct HT as [[<- _] _]. by apply lookup_lt_Some in Hrow.
Qed.

Lemma repr_actual_at_returns idx :
  Forall (λ j, j < length A) idx →
  ∃ reprs, repr_actual_at A idx = Returns reprs
           ∧ Forall2 (λ j s, ∃ a, A !! j = Some a ∧ s = repr_exc a) idx reprs.
Proof.
  induction 1 as [|j idx Hj _ (reprs & Hr & Hall)]; simpl.
  { exists []. split; [done|constructor]. }
  destruct (lookup_lt_is_Some_2 A j Hj) as [a Ha]. rewrite Ha, Hr. simpl.
  eexists. split; [done|]. constructor; [by exists a|done].
Qed.

Lemma repr_expected_at_returns idx :
  Forall (λ i, i < length E) idx →
  ∃ reprs, repr_expected_at E idx = Returns reprs
           ∧ Forall2 (λ i s, ∃ e, E !! i = Some e ∧ s = _repr_expected e)
               idx reprs.
Proof.
  induction 1 as [|i idx Hi _ (reprs & Hr & Hall)]; simpl.
  { exists []. split; [done|constructor]. }
  destruct (lookup_lt_is_Some_2 E i Hi) as [e He]. rewrite He, Hr. simpl.
  eexists. split; [done|]. constructor; [by exists e|done].
Qed.

Lemma dict_nonempty_size (m : gmap nat nat) :
  dict_nonempty m = negb (bool_decide (size m = 0)).
Proof.
  unfold dict_nonempty. f_equal. apply bool_decide_ext.
  by rewrite map_size_empty_iff.
Qed.

End Reports.

Section ReportTheorems.
Context `{Host}.

(** X21: when the checks of the pairs return, every expected exception has
    found its exception, and exceptions are left of which none satisfies an
    expected one, [_check_exceptions] returns [False] and the reason counts
    the matched pairs, as many as there are expected exceptions, and lists
    the [repr] of the exceptions that are left, in their order. *)
Theorem unexpected_exceptions_report (self : RaisesGroup) (exc_val : exc)
    (A : list exc) (r0 : option string) (st : pairing) :
  let E := expected_exceptions self in
  (∀ i j, i < length E → j < length A →
          is_Some (pair_result _check_expected E A i j)) →
  greedy_pairing _check_expected E A = Returns st →
  failed_expected st = [] →
  remaining_actual st ≠ [] →
  (∀ i j, j ∈ remaining_actual st → i < length E →
          satisfies _check_expected E A i j = false) →
  size (matches st) = length E
  ∧ ∃ reprs,
      Forall2 (λ j s, ∃ a, A !! j = Some a ∧ s = repr_exc a)
        (remaining_actual st) reprs
      ∧ _check_exceptions self exc_val A r0
        = (Returns false,
           Some (successful_str (length E) ++ "Unexpected exception(s): ["
                 ++ join ", " reprs ++ "]")).
Proof.
  intros E no_raise Hst Hfailed Hrem Hnone. subst E.
  destruct (pairing_then_fill _ _ _ no_raise st Hst) as (T' & Hfill & HT).
  destruct (greedy_pairing_sound _ _ _ st Hst)
    as (Hnd & Hlt & Hm & Hinj & Hdom & Hcov & Hsz1 & Hsz2).
  rewrite Hfailed in Hsz2. simpl in Hsz2. rewrite Nat.add_0_r in Hsz2.
  destruct (repr_actual_at_returns A _ Hlt) as (reprs & Hreprs & Hall).
  pose proof (no_match_for_actual_True _ _ _ no_raise T' _ HT Hlt Hnone)
    as Hnm.
  split; [done|]. exists reprs. split; [done|].
  unfold _check_exceptions, _check_exceptions_body, _check_exceptions_with.
  munfold. rewrite Hst. cbn beta iota zeta.
  rewrite !dict_nonempty_size, !Hsz2.
  rewrite Hfailed.
  assert (Hlen : length (remaining_actual st) ≠ 0).
  { by destruct (remaining_actual st). }
  assert (nonempty (remaining_actual st) = true) as ->.
  { by destruct (remaining_actual st). }
  rewrite (bool_decide_eq_false_2 (length A = _)) by lia.
  rewrite andb_false_r. cbn beta iota zeta delta [negb andb nonempty].
  rewrite Hfill. cbn beta iota zeta. rewrite Hnm. cbn beta iota zeta.
  rewrite Hreprs. cbn beta iota zeta. unfold successful_str.
  by destruct (bool_decide (length (expected_exceptions self) = 0)).
Qed.

(** X22: when the checks of the pairs return, every exception has been
    paired, and expected exceptions are left of which none is satisfied by
    an exception, [_check_exceptions] returns [False] and the reason counts
    the matched pairs, as many as there are exceptions, and lists the
    expected exceptions that found no match, in their order. *)
Theorem too_few_exceptions_report (self : RaisesGroup) (exc_val : exc)
    (A : list exc) (r0 : option string) (st : pairing) :
  let E := expected_exceptions self in
  (∀ i j, i < length E → j < length A →
          is_Some (pair_result _check_expected E A i j)) →
  greedy_pairing _check_expected E A = Returns st →
  remaining_actual st = [] →
  failed_expected st ≠ [] →
  (∀ i j, i ∈ failed_expected st → j < length A →
          satisfies _check_expected E A i j = false) →
  size (matches st) = length A
  ∧ ∃ reprs,
      Forall2 (λ i s, ∃ e, E !! i = Some e ∧ s = _repr_expected e)
        (failed_expected st) reprs
      ∧ _check_exceptions self exc_val A r0
        = (Returns false,
           Some (successful_str (length A)
                 ++ "Too few exceptions raised, found no match for: ["
                 ++ join ", " reprs ++ "]")).
Proof.
  intros E no_raise Hst Hrem Hfailed Hnone. subst E.
  destruct (pairing_then_fill _ _ _ no_raise st Hst) as (T' & Hfill & HT).
  destruct (greedy_pairing_sound _ _ _ st Hst)
    as (Hnd & Hlt & Hm & Hinj & Hdom & Hcov & Hsz1 & Hsz2).
  rewrite Hrem in Hsz1. simpl in Hsz1.
  assert (Hbound : Forall (λ i, i < length (expected_exceptions self))
                     (failed_expected st)).
  { destruct (greedy_pairing_refines _ _ _ no_raise)
      as (st0 & Hst0 & _ & Hf & _).
    rewrite Hst in Hst0. injection Hst0 as <-.
    pose proof (greedy_expected_first_invariant
                  (satisfies _check_expected (expected_exceptions self) A)
                  (length A) (length (expected_exceptions self))) as Hinv.
    apply Forall_forall. intros i Hi. rewrite Hf in Hi.
    by apply (inv_failed _ _ _ _ Hinv) in Hi as [? _]. }
  destruct (repr_expected_at_returns _ _ Hbound) as (reprs & Hreprs & Hall).
  pose proof (no_match_for_expected_True _ _ _ no_raise T' _ HT Hbound Hnone)
    as Hnm.
  split; [done|]. exists reprs. split; [done|].
  unfold _check_exceptions, _check_exceptions_body, _check_exceptions_with.
  munfold. rewrite Hst. cbn beta iota zeta.
  rewrite !dict_nonempty_size, !Hsz1.
  rewrite Hrem.
  assert (Hlen : length (failed_expected st) ≠ 0).
  { by destruct (failed_expected st). }
  assert (nonempty (failed_expected st) = true) as ->.
  { by destruct (failed_expected st). }
  rewrite (bool_decide_eq_false_2 (length A = _)) by lia.
  rewrite andb_false_r. cbn beta iota zeta delta [negb andb nonempty].
  rewrite Hfill. cbn beta iota zeta delta [negb andb nonempty].
  rewrite Hnm. cbn beta iota zeta.
  rewrite Hreprs, ?andb_false_r. cbn beta iota zeta. unfold successful_str.
  by destruct (bool_decide (length A = 0)).
Qed.

End ReportTheorems.

Lemma unexpected_exceptions_report_witness :
  let self := MkRaisesGroup [ExpType ValueError_cls] false false None None
                false false in
  let A := [new_exc ValueError_cls "v"; new_exc TypeError_cls "t"] in
  ∃ reprs,
    @_check_exceptions demo_host self (new_group "g" A) A None
    = (Returns false,
       Some (successful_str 1 ++ "Unexpected exception(s): ["
             ++ join ", " reprs ++ "]")).
Proof.
  intros self A.
  destruct (@unexpected_exceptions_report demo_host self (new_group "g" A) A
              None
              (MkPairing
                 (MkResultHolder [[Checked None]; [NotChecked]])
                 [1] [] {[0 := 0]} (Some None)))
    as (_ & reprs & _ & Hreport).
  - by apply flat_patterns_never_raise.
  - by vm_compute.
  - done.
  - done.
  - intros i j Hj%list_elem_of_singleton Hi. subst j.
    assert (i = 0) as -> by (simpl in Hi; lia). by vm_compute.
  - by exists reprs.
Defined.

Lemma too_few_exceptions_report_witness :
  let self := MkRaisesGroup [ExpType ValueError_cls; ExpType TypeError_cls]
                false false None None false false in
  let A := [new_exc ValueError_cls "v"] in
  ∃ reprs,
    @_check_exceptions demo_host self (new_group "g" A) A None
    = (Returns false,
       Some (successful_str 1
             ++ "Too few exceptions raised, found no match for: ["
             ++ join ", " reprs ++ "]")).
Proof.
  intros self A.
  destruct (@too_few_exceptions_report demo_host self (new_group "g" A) A
              None
              (MkPairing
                 (MkResultHolder [[Checked None; NotChecked]])
                 [] [1] {[0 := 0]} (Some None)))
    as (_ & reprs & _ & Hreport).
  - by apply flat_patterns_never_raise.
  - by vm_compute.
  - done.
  - done.
  - intros i j Hi%list_elem_of_singleton Hj. subst i.
    assert (j = 0) as -> by (simpl in Hj; lia). by vm_compute.
  - by exists reprs.
Defined.

(** ** The reason [matches] leaves for a group *)

Section FirstFailure.
Context `{Host}.

(** The reason is the one of the first stage that failed: [match], then
    the pairing, then [check]; a hint may follow the reason of the first
    two. *)
Definition first_failure (rg : RaisesGroup) (g : exc) (reason : string)
  : Prop :=
  (∃ r suffix,
     _check_match (match_expr rg) g None = (Returns false, Some r)
     ∧ reason = r ++ suffix)
  ∨ (∃ r,
       (_check_match (match_expr rg) g None).1 = Returns true
       ∧ _check_exceptions rg g (paired_exceptions rg g) None
         = (Returns false, Some r)
       ∧ (reason = r
          ∨ reason = r ++ newline
                     ++ "Did you mean to use `flatten_subgroups=True`?"))
  ∨ ((_check_match (match_expr rg) g None).1 = Returns true
     ∧ (_check_exceptions rg g (paired_exceptions rg g) None).1
       = Returns true
     ∧ _check_check (check rg) g (_nested rg) None
       = (Returns false, Some reason)).

Lemma matches_reason_stage rg g r0 :
  isinstance g BaseExceptionGroup = true →
  match RaisesGroup_matches rg (Some g) r0 with
  | (Returns false, Some reason) => first_failure rg g reason
  | _ => True
  end.
Proof.
  intros Hg.
  unfold first_failure, RaisesGroup_matches, RaisesGroup_matches_body,
    _check_exceptions, _check_exceptions_body, paired_exceptions.
  munfold. rewrite Hg. cbn beta iota zeta delta [negb].
  pose proof (_check_match_reports (match_expr rg) g None) as Hmatch.
  destruct (_check_match (match_expr rg) g None) as [[[]|] rm];
    simpl in Hmatch; cbn beta iota zeta delta [negb fst]; [subst rm| |done].
  - match goal with
    | |- context [_check_exceptions_with ?c ?p ?s ?v ?a None] =>
      pose proof (proj2 (_check_exceptions_with_verdict c p s v a None))
        as Hpair;
      destruct (_check_exceptions_with c p s v a None) as [[[]|] rp];
      simpl in Hpair; cbn beta iota zeta delta [negb fst]; [subst rp| |done]
    end.
    + destruct (_check_check (check rg) g (_nested rg) None)
        as [[[]|] [rc|]]; try done.
      right. right. done.
    + destruct Hpair as [old ->]. cbn beta iota zeta.
      repeat first
        [ done
        | by (right; left; exists old; split; [done|]; split; [done|];
              first [by left | by right])
        | destruct_innermost; cbn beta iota zeta delta [negb] ].
  - destruct Hmatch as [r ->].
    repeat first
      [ done
      | by (left; exists r, EmptyString; split; [done|];
            by rewrite app_empty_r)
      | by (left; eexists r, _; split; [done|]; reflexivity)
      | match goal with
        | |- context [_check_match ?p ?e ?s] =>
          let Hm := fresh "Hm" in
          pose proof (_check_match_reports p e s) as Hm;
          destruct (_check_match p e s) as [[[]|] ?]; simpl in Hm;
          try subst
        end; cbn beta iota zeta delta [negb]
      | destruct_innermost; cbn beta iota zeta delta [negb] ].
Qed.

(** X23: when [matches] returns [False] for a group, the reason it leaves
    is the reason of the first stage that failed: that of [match], with
    possibly a hint after it; else that of the pairing, as it is or
    followed by the suggestion to use [flatten_subgroups=True] on a line
    of its own; else that of [check].  A later stage or a hint never
    replaces the reason of an earlier one. *)
Theorem reason_is_of_the_first_failure (rg : RaisesGroup) (g : exc)
    (r0 : option string) (reason : string) :
  isinstance g BaseExceptionGroup = true →
  RaisesGroup_matches rg (Some g) r0 = (Returns false, Some reason) →
  first_failure rg g reason.
Proof.
  intros Hg Hres. pose proof (matches_reason_stage rg g r0 Hg) as Hstage.
  by rewrite Hres in Hstage.
Qed.

End FirstFailure.

Lemma reason_is_of_the_first_failure_witness :
  let rg := MkRaisesGroup [ExpType ValueError_cls] false false None None
              false false in
  let g := new_group "g" [new_group "inner" [new_exc ValueError_cls "v"]] in
  @first_failure demo_host rg g
    ("Unexpected nested 'ExceptionGroup', expected bare 'ValueError'"
     ++ newline ++ "Did you mean to use `flatten_subgroups=True`?").
Proof.
  intros rg g.
  apply (@reason_is_of_the_first_failure demo_host rg g None);
    reflexivity.
Defined.

Section OneLeftOneFailed.
Context `{Host}.

(** X24: when the checks of the pairs return, one exception is left and
    one expected exception failed, and neither has a match anywhere,
    [_check_exceptions] returns [False] and the reason is the count of the
    matched pairs, all but one, followed by the reason why the expected
    exception that failed rejects the exception that is left. *)
Theorem one_left_one_failed_report (self : RaisesGroup) (exc_val : exc)
    (A : list exc) (r0 : option string) (st : pairing) (i j : nat) :
  let E := expected_exceptions self in
  (∀ i j, i < length E → j < length A →
          is_Some (pair_result _check_expected E A i j)) →
  greedy_pairing _check_expected E A = Returns st →
  remaining_actual st = [j] →
  failed_expected st = [i] →
  (∀ i', i' < length E → satisfies _check_expected E A i' j = false) →
  (∀ j', j' < length A → satisfies _check_expected E A i j' = false) →
  ∃ reason,
    pair_result _check_expected E A i j = Some (Some reason)
    ∧ _check_exceptions self exc_val A r0
      = (Returns false, Some (successful_str (length E - 1) ++ reason)).
Proof.
  intros E no_raise Hst Hrem Hfailed Hrow Hcol. subst E.
  destruct (pairing_then_fill _ _ _ no_raise st Hst) as (T' & Hfill & HT).
  destruct (greedy_pairing_sound _ _ _ st Hst)
    as (Hnd & Hlt & Hm & Hinj & Hdom & Hcov & Hsz1 & Hsz2).
  rewrite Hrem in Hsz1, Hlt. rewrite Hfailed in Hsz2. simpl in Hsz1, Hsz2.
  pose proof (proj1 (Forall_singleton _ _) Hlt) as Hj. simpl in Hj.
  assert (Hi : i < length (expected_exceptions self)).
  { destruct (greedy_pairing_refines _ _ _ no_raise)
      as (st0 & Hst0 & _ & Hf & _).
    rewrite Hst in Hst0. injection Hst0 as <-.
    pose proof (greedy_expected_first_invariant
                  (satisfies _check_expected (expected_exceptions self) A)
                  (length A) (length (expected_exceptions self))) as Hinv.
    assert (i ∈ failed_expected st) as Hin by (rewrite Hfailed; by left).
    rewrite Hf in Hin. by apply (inv_failed _ _ _ _ Hinv) in Hin as [? _]. }
  destruct (no_raise i j Hi Hj) as [[reason|] Hx].
  2: { specialize (Hrow i Hi). unfold satisfies in Hrow. rewrite Hx in Hrow.
       by rewrite bool_decide_eq_true_2 in Hrow. }
  exists reason. split; [done|].
  destruct (decide (length A = 1)) as [HA|HA].
  - assert (HE : length (expected_exceptions self) = 1) by lia.
    destruct A as [|a [|]]; try done.
    destruct (expected_exceptions self) as [|e [|]] eqn:Hexp; try done.
    assert (i = 0) as -> by (simpl in Hi; lia).
    assert (j = 0) as -> by (simpl in Hj; lia).
    unfold pair_result in Hx. simpl in Hx.
    destruct (_check_expected e a) as [x|] eqn:Hchk; [|done].
    injection Hx as ->.
    unfold _check_exceptions, _check_exceptions_body.
    by rewrite (_check_exceptions_with_single _ _ _ _ e a (Some reason)).
  - assert (Hnm1 : no_match_for_actual T' [j] = Returns true).
    { apply (no_match_for_actual_True _ _ _ no_raise T' _ HT Hlt).
      intros i' j' ->%list_elem_of_singleton Hi'. by apply Hrow. }
    assert (Hnm2 : no_match_for_expected T' [i] = Returns true).
    { apply (no_match_for_expected_True _ _ _ no_raise T' _ HT).
      - by apply Forall_singleton.
      - intros i' j' ->%list_elem_of_singleton Hj'. by apply Hcol. }
    assert (Hget : get_result T' i j = Returns (Some reason)).
    { rewrite get_result_cell_at. destruct HT as [_ Hall].
      by rewrite (Hall i j Hi Hj), Hx. }
    unfold _check_exceptions, _check_exceptions_body, _check_exceptions_with.
    munfold. rewrite Hst. cbn beta iota zeta.
    rewrite !dict_nonempty_size, Hrem, Hfailed.
    cbn beta iota zeta delta [negb andb nonempty length].
    rewrite (bool_decide_eq_false_2 (1 = length A)) by lia.
    cbn beta iota zeta delta [negb andb]. rewrite Hfill.
    cbn beta iota zeta. rewrite Hnm1. cbn beta iota zeta. rewrite Hnm2.
    rewrite !(bool_decide_eq_true_2 (1 = 1)) by done.
    cbn beta iota zeta delta [negb andb]. rewrite Hget.
    cbn beta iota zeta delta [format_result]. unfold successful_str.
    replace (length (expected_exceptions self) - 1)
      with (size (matches st)) by lia.
    by destruct (bool_decide (size (matches st) = 0)).
Qed.

End OneLeftOneFailed.

Lemma one_left_one_failed_report_witness :
  let self := MkRaisesGroup [ExpType ValueError_cls; ExpType TypeError_cls]
                false false None None false false in
  let OSError_cls := PyClass "OSError" ["Exception"; "BaseException"; "object"] in
  let A := [new_exc ValueError_cls "v"; new_exc OSError_cls "o"] in
  ∃ reason,
    @_check_exceptions demo_host self (new_group "g" A) A None
    = (Returns false, Some (successful_str 1 ++ reason)).
Proof.
  intros self OSError_cls A.
  destruct (@one_left_one_failed_report demo_host self (new_group "g" A) A
              None
              (MkPairing
                 (MkResultHolder
                    [[Checked None; NotChecked];
                     [NotChecked;
                      Checked (Some "'OSError' is not of type 'TypeError'")]])
                 [1] [1] {[0 := 0]}
                 (Some (Some "'OSError' is not of type 'TypeError'")))
              1 1)
    as (reason & _ & Hreport).
  - by apply flat_patterns_never_raise.
  - by vm_compute.
  - done.
  - done.
  - intros i' Hi'. destruct i' as [|[|]]; [by vm_compute..|simpl in Hi'; lia].
  - intros j' Hj'. destruct j' as [|[|]]; [by vm_compute..|simpl in Hj'; lia].
  - by exists reason.
Defined.

(** ** [RaisesGroup(T).matches] *)

Section OneType.
Context `{Host}.

(** X25: for an exception type [T], [RaisesGroup(T).matches(v)] is [True]
    exactly when [v] is an exception group with exactly one member and the
    member is an instance of [T], as the docstring of [matches] says. *)
Theorem matches_of_one_type (T : pyclass) (rg : RaisesGroup)
    (v : option exc) (r0 : option string) :
  RaisesGroup_init (ObjType T) [] false false None None = Returns rg →
  (RaisesGroup_matches rg v r0).1 = Returns true
  ↔ ∃ g e, v = Some g ∧ isinstance g BaseExceptionGroup = true
           ∧ exc_exceptions g = [e] ∧ isinstance e T = true.
Proof.
  unfold RaisesGroup_init. simpl.
  destruct (issubclass T BaseException); [|done]. simpl. intros [= <-].
  set (rg := MkRaisesGroup _ _ _ _ _ _ _).
  destruct v as [g|]; [|split; [done|by intros (? & ? & ? & _)]].
  destruct (isinstance g BaseExceptionGroup) eqn:Hg.
  - rewrite (RaisesGroup_matches_true_iff rg g r0 Hg).
    unfold _check_exceptions, _check_exceptions_body.
    rewrite (proj1 (_check_exceptions_with_verdict _ _ _ _ _ _)).
    unfold paired_exceptions. simpl. split.
    + intros (_ & (st & Hst & Hrem & Hfailed) & _).
      apply greedy_pairing_sound in Hst
        as (_ & _ & Hm & _ & Hdom & _ & Hsz1 & Hsz2).
      rewrite Hrem in *. rewrite Hfailed in *. simpl in *.
      destruct (exc_exceptions g) as [|e [|]] eqn:Hmembers;
        simpl in *; try lia.
      exists g, e. split; [done|]. split; [done|]. split; [done|].
      destruct (Hdom 0) as [Hin|[j Hj]]; [lia|by inversion Hin|].
      destruct (Hm 0 j Hj) as (_ & _ & e0 & a & [= <-] & Ha & Hpass).
      destruct j as [|j]; [|done]. injection Ha as <-.
      simpl in Hpass. injection Hpass as Hpass.
      by apply _check_raw_type_None.
    + intros (g' & e & [= <-] & _ & -> & He).
      split; [done|]. split; [|done].
      exists (MkPairing (MkResultHolder [[Checked None]]) [] [] {[0 := 0]}
                (Some None)).
      split; [|done]. unfold greedy_pairing. simpl.
      rewrite He. simpl. reflexivity.
  - split; [|intros (g' & e & [= <-] & ? & _); congruence].
    unfold RaisesGroup_matches, RaisesGroup_matches_body. munfold.
    rewrite Hg. simpl. rewrite andb_false_r.
    destruct (isinstance g T); simpl; rewrite ?Hg; simpl; done.
Qed.

End OneType.

Lemma matches_of_one_type_witness :
  (@RaisesGroup_matches demo_host
     (MkRaisesGroup [ExpType ValueError_cls] false false None None
        false false)
     (Some (new_group "g" [new_exc ValueError_cls "v"])) (Some "stale")).1
  = Returns true.
Proof.
  apply (@matches_of_one_type demo_host ValueError_cls); [reflexivity|].
  eexists _, _. split; [reflexivity|]. by split_and!.
Defined.
